(** * id3: views, entropy engine, ID3 learner and classifier

    A shallow embedding of the Go package [id3] (views.go, learn.go,
    decisions.go) and the properties of its specification.

    Conventions of the embedding.
    - A Go [string] is a [string]; a row [[]string] is a [list string]; the
      nil row that ends an iteration is [None].
    - A Go panic (the explicit [panic] of [find] and [decide], an index out
      of range, a nil dereference) is the outcome [Panic]; a recursion that
      does not come back within the given fuel is [OutOfFuel].
    - The only mutable field of a view chain is [baseView.next]; every
      derived view holds a pointer to its parent, so that field lives in the
      store (a [nat]) that the cursor operations thread, not in the view
      value.
    - [float64] is modelled by the real numbers: the quotient, sum, product
      and [math.Log2] are the exact ones and rounding is not modelled.
    - Go does not fix the iteration order of a map; the order chosen by the
      runtime at each [range] is an input of the model (a seed taken from the
      store). *)

From Stdlib Require Import List String Ascii Arith Bool Lia.
From Stdlib Require Import Permutation Sorted.
From Stdlib Require Import Reals Lra.
Import ListNotations.

Local Open Scope string_scope.
Local Open Scope list_scope.
Local Open Scope nat_scope.

(** ** Outcomes of a call *)

Inductive panic : Type :=
| NotInSlice (x : string)   (* find: "id3: 'x'not in slice" *)
| IndexOutOfRange           (* runtime error: index out of range *)
| NilDereference            (* runtime error: nil pointer dereference *)
| NoRule (column : string). (* decide: "id3: no rule for column ..." *)

Inductive outcome (A : Type) : Type :=
| Ret (a : A)
| Panic (p : panic)
| OutOfFuel.

Arguments Ret {A} a.
Arguments Panic {A} p.
Arguments OutOfFuel {A}.

(** A computation over a store [S] that may panic. *)
Definition M (S A : Type) : Type := S -> outcome (A * S).

Definition ret {S A} (a : A) : M S A := fun s => Ret (a, s).

Definition bind {S A B} (m : M S A) (k : A -> M S B) : M S B :=
  fun s =>
    match m s with
    | Ret (a, s') => k a s'
    | Panic p => Panic p
    | OutOfFuel => OutOfFuel
    end.

Definition raise {S A} (p : panic) : M S A := fun _ => Panic p.

(** A call that reads no store and may panic. *)
Definition lift {S A} (o : outcome A) : M S A :=
  fun s =>
    match o with
    | Ret a => Ret (a, s)
    | Panic p => Panic p
    | OutOfFuel => OutOfFuel
    end.

Declare Scope go_scope.
Delimit Scope go_scope with go.
Notation "x <- m ;; k" := (bind m (fun x => k))
  (at level 61, m at next level, right associativity) : go_scope.
Notation "' pat <- m ;; k" := (bind m (fun x => match x with pat => k end))
  (at level 61, pat pattern, m at next level, right associativity) : go_scope.

(** ** views.go *)

Definition row : Type := list string.

(** [find]: index of the first element equal to [x], panics when absent. *)
Fixpoint find (slice : list string) (x : string) : outcome nat :=
  match slice with
  | [] => Panic (NotInSlice x)
  | str :: rest =>
      if String.eqb str x then Ret 0
      else match find rest x with
           | Ret i => Ret (S i)
           | o => o
           end
  end.

(** The three implementations of the interface [View]. *)
Inductive View : Type :=
| baseView (data : list row)
| selectView (parent : View) (col : nat) (val : string)
| dropView (parent : View) (drop : nat).

(** The data of the base view a chain is rooted at. *)
Fixpoint baseData (v : View) : list row :=
  match v with
  | baseView data => data
  | selectView p _ _ => baseData p
  | dropView p _ => baseData p
  end.

(** [c[i] = x] on a slice. *)
Fixpoint assign {A} (c : list A) (i : nat) (x : A) : outcome (list A) :=
  match c, i with
  | [], _ => Panic IndexOutOfRange
  | _ :: rest, 0 => Ret (x :: rest)
  | a :: rest, S j =>
      match assign rest j x with
      | Ret rest' => Ret (a :: rest')
      | o => o
      end
  end.

Fixpoint Columns (v : View) : outcome (list string) :=
  match v with
  | baseView data =>
      match data with
      | [] => Panic IndexOutOfRange
      | header :: _ => Ret header
      end
  | selectView p _ _ => Columns p
  | dropView p d =>
      match Columns p with
      | Ret c => assign c d ""
      | o => o
      end
  end.

(** [First] of every implementation ends in [b.next = 1] of the base. *)
Fixpoint First (v : View) : M nat unit :=
  match v with
  | baseView _ => fun _ => Ret (tt, 1)
  | selectView p _ _ => First p
  | dropView p _ => First p
  end.

Definition baseNext (data : list row) : M nat (option row) :=
  fun next =>
    let next := if next =? 0 then 1 else next in
    if next =? List.length data then Ret (None, next)
    else match nth_error data next with
         | Some r => Ret (Some r, S next)
         | None => Panic IndexOutOfRange
         end.

(** The loop of [selectView.Next]: ask the parent until a row matches. *)
Fixpoint selectLoop (fuel : nat) (parentNext : M nat (option row))
    (col : nat) (val : string) : M nat (option row) :=
  match fuel with
  | 0 => fun _ => OutOfFuel
  | S fuel' =>
      (r <- parentNext ;;
       match r with
       | None => ret None
       | Some rw =>
           match nth_error rw col with
           | None => raise IndexOutOfRange
           | Some x =>
               if String.eqb x val then ret (Some rw)
               else selectLoop fuel' parentNext col val
           end
       end)%go
  end.

(** The loops over a view are bounded by the rows of the base: the fuel
    [S (length data)] is never used up (lemma [Next_total]). *)
Fixpoint Next (v : View) : M nat (option row) :=
  match v with
  | baseView data => baseNext data
  | selectView p col val => selectLoop (S (List.length (baseData p))) (Next p) col val
  | dropView p _ =>
      (r <- Next p ;;
       match r with
       | None => ret None
       | Some rw => ret (Some rw)
       end)%go
  end.

(** [Select] and [Drop] are the same for the three implementations: look
    the column up in the receiver's columns and wrap the receiver. *)
Definition Select (v : View) (column value : string) : outcome View :=
  match Columns v with
  | Ret c =>
      match find c column with
      | Ret i => Ret (selectView v i value)
      | Panic p => Panic p
      | OutOfFuel => OutOfFuel
      end
  | Panic p => Panic p
  | OutOfFuel => OutOfFuel
  end.

Definition Drop (v : View) (column : string) : outcome View :=
  match Columns v with
  | Ret c =>
      match find c column with
      | Ret i => Ret (dropView v i)
      | Panic p => Panic p
      | OutOfFuel => OutOfFuel
      end
  | Panic p => Panic p
  | OutOfFuel => OutOfFuel
  end.

(** [Read], after [csv.ReadAll] has returned the records [data]: the base
    view and its cursor, on the first data row. *)
Definition Read (data : list row) : View * nat := (baseView data, 1).

(** ** learn.go *)

(** What the learner runs on: the cursor of the base view and the orders in
    which the runtime will walk the maps it ranges over, one seed per
    [range]. *)
Record World : Type := mkWorld { next : nat; order : list nat }.

Definition onCursor {A} (m : M nat A) : M World A :=
  fun w =>
    match m (next w) with
    | Ret (a, n) => Ret (a, mkWorld n (order w))
    | Panic p => Panic p
    | OutOfFuel => OutOfFuel
    end.

Definition rangeSeed : M World nat :=
  fun w =>
    match order w with
    | [] => Ret (0, w)
    | seed :: rest => Ret (seed, mkWorld (next w) rest)
    end.

Record Distinct : Type := mkDistinct { Value : string; Probability : R }.

(** [if _, ok := distinct[v]; !ok { distinct[v] = 0 }; distinct[v]++] on the
    map kept as an association list in first-seen order; the counts are
    whole numbers and are injected into the reals at the division. *)
Fixpoint bump (distinct : list (string * nat)) (v : string)
    : list (string * nat) :=
  match distinct with
  | [] => [(v, 1)]
  | (k, n) :: rest =>
      if String.eqb k v then (k, S n) :: rest else (k, n) :: bump rest v
  end.

(** The counting loop of [Likelihood]. *)
Fixpoint tallyLoop (fuel : nat) (view : View) (i : nat)
    (distinct : list (string * nat)) (total : nat)
    : M nat (list (string * nat) * nat) :=
  match fuel with
  | 0 => fun _ => OutOfFuel
  | S fuel' =>
      (r <- Next view ;;
       match r with
       | None => ret (distinct, total)
       | Some rw =>
           match nth_error rw i with
           | None => raise IndexOutOfRange
           | Some v => tallyLoop fuel' view i (bump distinct v) (S total)
           end
       end)%go
  end.

Fixpoint insertAt {A} (k : nat) (x : A) (l : list A) : list A :=
  match k, l with
  | 0, _ => x :: l
  | S _, [] => [x]
  | S k', y :: l' => y :: insertAt k' x l'
  end.

(** [for k, v := range m]: the entries in the order the seed stands for;
    every order is the order of some seed (lemma [mapRange_any_order]) and
    seed 0 is the first-seen order. *)
Fixpoint mapRange {A} (seed : nat) (m : list A) : list A :=
  match m with
  | [] => []
  | x :: rest =>
      insertAt (seed mod S (List.length rest)) x
        (mapRange (seed / S (List.length rest)) rest)
  end.

Definition gtb (a b : R) : bool := if Rgt_dec a b then true else false.
Definition eqb0 (a : R) : bool := if Req_dec_T a 0 then true else false.

(** [sort.Slice] with [less(i, j) = sorted[i].Probability >
    sorted[j].Probability], as the insertion sort it is on short slices. *)
Fixpoint sortInsert (x : Distinct) (sorted : list Distinct) : list Distinct :=
  match sorted with
  | [] => [x]
  | y :: rest =>
      if gtb (Probability x) (Probability y) then x :: y :: rest
      else y :: sortInsert x rest
  end.

Definition sortSlice (l : list Distinct) : list Distinct :=
  fold_left (fun sorted x => sortInsert x sorted) l [].

Definition toDistinct (total : nat) (kv : string * nat) : Distinct :=
  mkDistinct (fst kv) (INR (snd kv) / INR total).

Definition Likelihood (view : View) (column : string)
    : M World (list Distinct) :=
  (cols <- lift (Columns view) ;;
   i <- lift (find cols column) ;;
   _ <- onCursor (First view) ;;
   ' (distinct, total) <-
      onCursor (tallyLoop (S (List.length (baseData view))) view i [] 0) ;;
   seed <- rangeSeed ;;
   ret (sortSlice (map (toDistinct total) (mapRange seed distinct))))%go.

Definition log2 (x : R) : R := (ln x / ln 2)%R.

Definition Entropy (p : R) : R :=
  if Req_dec_T p 0 then 0%R
  else if Req_dec_T p 1 then 0%R
  else (- p * log2 p)%R.

Definition TotalEntropy (view : View) (class : string) : M World R :=
  (l <- Likelihood view class ;;
   ret (fold_left (fun h v => (h + Entropy (Probability v))%R) l 0%R))%go.

(** The loop of [AverageEntropy] over the distinct values. *)
Fixpoint averageLoop (view : View) (attribute class : string)
    (l : list Distinct) (h : R) : M World R :=
  match l with
  | [] => ret h
  | v :: rest =>
      (sub <- lift (Select view attribute (Value v)) ;;
       t <- TotalEntropy sub class ;;
       averageLoop view attribute class rest (h + Probability v * t)%R)%go
  end.

Definition AverageEntropy (view : View) (attribute class : string)
    : M World R :=
  (cols <- lift (Columns view) ;;
   _ <- lift (find cols class) ;;
   l <- Likelihood view attribute ;;
   averageLoop view attribute class l 0%R)%go.

(** ** decisions.go: the tree *)

(** [Cases []*Case] and [Decide *Decision] are pointers: [None] is nil. *)
Inductive Decision : Type :=
| mkDecision (Column : string) (Cases : list (option Case))
with Case : Type :=
| mkCase (Value : string) (Class : string) (Decide : option Decision).

Definition Column (d : Decision) : string :=
  match d with mkDecision c _ => c end.
Definition Cases (d : Decision) : list (option Case) :=
  match d with mkDecision _ cs => cs end.
Definition caseValue (c : Case) : string :=
  match c with mkCase v _ _ => v end.
Definition caseClass (c : Case) : string :=
  match c with mkCase _ cl _ => cl end.
Definition caseDecide (c : Case) : option Decision :=
  match c with mkCase _ _ d => d end.

(** ** learn.go: Learn *)

(** The loop of [Learn] over the columns: [best] is [(maxGain, maxColumn)]. *)
Fixpoint gainLoop (view : View) (class : string) (h : R)
    (cols : list string) (best : R * string) : M World (R * string) :=
  match cols with
  | [] => ret best
  | v :: rest =>
      if (String.eqb v class || String.eqb v "")%bool
      then gainLoop view class h rest best
      else
        (a <- AverageEntropy view v class ;;
         let gain := (h - a)%R in
         if gtb gain (fst best)
         then gainLoop view class h rest (gain, v)
         else gainLoop view class h rest best)%go
  end.

(** The body of the loop of [Learn] over the distinct values of the chosen
    column, for one value. *)
Definition learnCase (learn : View -> string -> M World Decision)
    (view : View) (class maxColumn : string) (v : Distinct) : M World Case :=
  (subview <- lift (Select view maxColumn (Value v)) ;;
   subh <- TotalEntropy subview class ;;
   if eqb0 subh
   then
     (_ <- onCursor (First subview) ;;
      r <- onCursor (Next subview) ;;
      cols <- lift (Columns subview) ;;
      i <- lift (find cols class) ;;
      match r with
      | None => raise IndexOutOfRange
      | Some rw =>
          match nth_error rw i with
          | None => raise IndexOutOfRange
          | Some cl => ret (mkCase (Value v) cl None)
          end
      end)
   else
     (dropped <- lift (Drop subview maxColumn) ;;
      d <- learn dropped class ;;
      ret (mkCase (Value v) "" (Some d))))%go.

Fixpoint caseLoop (learn : View -> string -> M World Decision)
    (view : View) (class maxColumn : string) (l : list Distinct)
    : M World (list (option Case)) :=
  match l with
  | [] => ret []
  | v :: rest =>
      (c <- learnCase learn view class maxColumn v ;;
       cs <- caseLoop learn view class maxColumn rest ;;
       ret (Some c :: cs))%go
  end.

(** [Learn]; the fuel bounds the depth of the recursion. *)
Fixpoint Learn (fuel : nat) (view : View) (class : string)
    : M World Decision :=
  match fuel with
  | 0 => fun _ => OutOfFuel
  | S fuel' =>
      (h <- TotalEntropy view class ;;
       cols <- lift (Columns view) ;;
       best <- gainLoop view class h cols ((-1)%R, "") ;;
       let maxColumn := snd best in
       l <- Likelihood view maxColumn ;;
       cs <- caseLoop (Learn fuel') view class maxColumn l ;;
       ret (mkDecision maxColumn cs))%go
  end.

(** ** decisions.go: classification *)

(** The loop of [decide] over the cases; [recurse] is [c.Decide.decide]
    on a receiver that is not nil. *)
Fixpoint caseScan (recurse : Decision -> outcome string) (column value : string)
    (cs : list (option Case)) : outcome string :=
  match cs with
  | [] => Panic (NoRule column)
  | None :: _ => Panic NilDereference
  | Some (mkCase v cl dec) :: rest =>
      if String.eqb value v
      then
        if negb (String.eqb cl "") then Ret cl
        else match dec with
             | None => Panic NilDereference
             | Some d' => recurse d'
             end
      else caseScan recurse column value rest
  end.

(** [decide] on a receiver that is not nil. *)
Fixpoint decideOn (d : Decision) (data : list row) (at_ : nat)
    : outcome string :=
  match d with
  | mkDecision column cases =>
      match data with
      | [] => Panic IndexOutOfRange
      | header :: _ =>
          match find header column with
          | Ret i =>
              match nth_error data at_ with
              | None => Panic IndexOutOfRange
              | Some rw =>
                  match nth_error rw i with
                  | None => Panic IndexOutOfRange
                  | Some value =>
                      caseScan (fun d' => decideOn d' data at_)
                        column value cases
                  end
              end
          | Panic p => Panic p
          | OutOfFuel => OutOfFuel
          end
      end
  end.

(** [decide]: the receiver may be nil; it is dereferenced for its column
    once [data[0]] has been evaluated. *)
Definition decide (d : option Decision) (data : list row) (at_ : nat)
    : outcome string :=
  match d with
  | Some d' => decideOn d' data at_
  | None =>
      match data with
      | [] => Panic IndexOutOfRange
      | _ :: _ => Panic NilDereference
      end
  end.

Fixpoint decideRows (d : option Decision) (data : list row) (ats : list nat)
    : outcome (list string) :=
  match ats with
  | [] => Ret []
  | i :: rest =>
      match decide d data i with
      | Ret cl =>
          match decideRows d data rest with
          | Ret result => Ret (cl :: result)
          | o => o
          end
      | Panic p => Panic p
      | OutOfFuel => OutOfFuel
      end
  end.

(** [Decide]: every row after the header, in row order. *)
Definition Decide (d : option Decision) (data : list row)
    : outcome (list string) :=
  decideRows d data (seq 1 (List.length data - 1)).

(** ** Example data *)

(** The table of the package's tests. *)
Definition weather : list row :=
  [ ["outlook"; "temperature"; "humidity"; "wind"; "play"];
    ["sunny"; "hot"; "high"; "weak"; "no"];
    ["sunny"; "hot"; "high"; "strong"; "no"];
    ["overcast"; "hot"; "high"; "weak"; "yes"];
    ["rain"; "mild"; "high"; "weak"; "yes"];
    ["rain"; "cool"; "normal"; "weak"; "yes"];
    ["rain"; "cool"; "normal"; "strong"; "no"];
    ["overcast"; "cool"; "normal"; "strong"; "yes"];
    ["sunny"; "mild"; "high"; "weak"; "no"];
    ["sunny"; "cool"; "normal"; "weak"; "yes"];
    ["rain"; "mild"; "normal"; "weak"; "yes"];
    ["sunny"; "mild"; "normal"; "strong"; "yes"];
    ["overcast"; "mild"; "high"; "strong"; "yes"];
    ["overcast"; "hot"; "normal"; "weak"; "yes"];
    ["rain"; "mild"; "high"; "strong"; "no"] ].

(** ** Statements of the specification, as predicates *)

(** A reader that owns its cursor: neither a step nor a reset of the derived
    view is seen through the parent. *)
Definition cursor_private (parent derived : View) (n : nat) : Prop :=
  (forall r n', Next derived n = Ret (r, n') -> Next parent n' = Next parent n)
  /\ (forall u n', First derived n = Ret (u, n') -> Next parent n' = Next parent n).


(** The value that [decide] on [d] compares with the cases, for the row
    at index [at_] of [data]. *)
Definition lookup (d : Decision) (data : list row) (at_ : nat) : option string :=
  match data with
  | [] => None
  | header :: _ =>
      match find header (Column d), nth_error data at_ with
      | Ret i, Some rw => nth_error rw i
      | _, _ => None
      end
  end.

(** Every case is there and none has the value. *)
Definition matchesNone (value : string) (cs : list (option Case)) : bool :=
  forallb (fun c => match c with
                    | Some k => negb (String.eqb value (caseValue k))
                    | None => false
                    end) cs.

(** [visits data at_ root d]: classifying row [at_] from [root] arrives at
    the decision [d], each step going through the first case that has the
    row's value, a case that holds no class and a decision. *)
Inductive visits (data : list row) (at_ : nat) : Decision -> Decision -> Prop :=
| visits_here d : visits data at_ d d
| visits_below d value pre d' rest d'' :
    lookup d data at_ = Some value ->
    Cases d = pre ++ Some (mkCase value "" (Some d')) :: rest ->
    matchesNone value pre = true ->
    visits data at_ d' d'' ->
    visits data at_ d d''.

(** The tree of the package's test of [Decide]. *)
Definition testRule : Decision :=
  mkDecision "outlook"
    [ Some (mkCase "sunny" ""
        (Some (mkDecision "humidity"
           [ Some (mkCase "high" "no" None);
             Some (mkCase "normal" "yes" None) ])));
      Some (mkCase "overcast" "yes" None);
      Some (mkCase "rain" ""
        (Some (mkDecision "wind"
           [ Some (mkCase "weak" "yes" None);
             Some (mkCase "strong" "no" None) ]))) ].

(** ** The rows and the tallies a view stands for *)

(** The number of fields of the header. *)
Definition width (v : View) : nat :=
  match baseData v with
  | [] => 0
  | header :: _ => List.length header
  end.

(** What [Read] returns: a header and data rows with as many fields. *)
Definition rectangular (data : list row) : bool :=
  match data with
  | [] => false
  | header :: rest =>
      forallb (fun r => List.length r =? List.length header) rest
  end.

(** The views that [Read], [Select] and [Drop] build from records that
    have a header: every record has as many fields as the header (the records
    of [csv.ReadAll] do) and the indices that [find] gave are indices of the
    header. *)
Fixpoint wellFormed (v : View) : bool :=
  match v with
  | baseView data => rectangular data
  | selectView p col _ => wellFormed p && (col <? width p)
  | dropView p d => wellFormed p && (d <? width p)
  end.

Definition field (i : nat) (r : row) : string := nth i r "".

Definition hasValue (col : nat) (val : string) (r : row) : bool :=
  match nth_error r col with
  | Some x => String.eqb x val
  | None => false
  end.

(** The rows of the base that a view lets through. *)
Fixpoint shows (v : View) (r : row) : bool :=
  match v with
  | baseView _ => true
  | selectView p col val => shows p r && hasValue col val r
  | dropView p _ => shows p r
  end.

(** The rows a view yields from the position [n] of the cursor on. *)
Definition rowsFrom (v : View) (n : nat) : list row :=
  filter (shows v) (skipn n (baseData v)).

(** The rows of a full pass. *)
Definition rows (v : View) : list row := rowsFrom v 1.

(** The map [distinct] after the counting loop over the values [l]. *)
Definition tally (l : list string) : list (string * nat) :=
  fold_left bump l [].

Definition sumR (l : list R) : R := fold_right Rplus 0%R l.

(** What one [Next] does to the rows still to come. *)
Definition steps (v : View) (run : M nat (option row)) (n : nat) : Prop :=
  (exists r n', run n = Ret (Some r, n')
                /\ n < n' <= List.length (baseData v)
                /\ rowsFrom v n = r :: rowsFrom v n')
  \/ (run n = Ret (None, List.length (baseData v)) /\ rowsFrom v n = []).


(** The count the map holds for a key, 0 when the key is absent. *)
Fixpoint countOf (m : list (string * nat)) (k : string) : nat :=
  match m with
  | [] => 0
  | (k', n) :: rest => if String.eqb k' k then n else countOf rest k
  end.

(** Non-increasing probabilities. *)
Definition decreasing (l : list Distinct) : Prop :=
  StronglySorted (fun a b => (Probability a >= Probability b)%R) l.

(** Two calls return the same slice. *)
Definition Likelihood_deterministic (view : View) (column : string) : Prop :=
  forall w1 w2 l1 l2 w1' w2',
    Likelihood view column w1 = Ret (l1, w1') ->
    Likelihood view column w2 = Ret (l2, w2') ->
    l1 = l2.

(** A table in which two values of a column are equally frequent. *)
Definition twoRows : list row := [ ["wind"; "play"]; ["weak"; "yes"]; ["strong"; "no"] ].

(** The first column that is neither the class nor hidden. *)
Fixpoint firstEligible (cols : list string) (class : string) : option string :=
  match cols with
  | [] => None
  | v :: rest =>
      if (String.eqb v class || String.eqb v "")%bool
      then firstEligible rest class
      else Some v
  end.

(** [Learn] returns no decision for a view without rows. *)
Definition Learn_rejects_empty (view : View) (class : string) : Prop :=
  rows view = [] ->
  forall fuel w d w', Learn fuel view class w <> Ret (d, w').

(** A table with a header and no data row. *)
Definition headerOnly : list row := [ ["outlook"; "play"] ].

(** ** The entropies as functions of the rows *)

(** The class entropy of the values [l]: [TotalEntropy] over a column
    whose values, row by row, are [l]. *)
Definition entropyOf (l : list string) : R :=
  sumR (map (fun kv => Entropy (Probability (toDistinct (List.length l) kv)))
            (tally l)).

(** The average entropy of the column [k] over the values of the column [a]
    in the rows [rs]. *)
Definition averageOf (rs : list row) (a k : nat) : R :=
  sumR (map (fun kv =>
               (Probability (toDistinct (List.length rs) kv)
                * entropyOf (map (field k) (filter (hasValue a (fst kv)) rs)))%R)
            (tally (map (field a) rs))).

(** ** The choice of the column *)

(** A column that [Learn] computes a gain for. *)
Definition eligible (class x : string) : bool :=
  negb (String.eqb x class || String.eqb x "").

(** The information gain of the column [x]: the entropy of the class minus
    the average entropy of the class over the values of [x]. *)
Definition gainOf (v : View) (cols : list string) (class x : string) : R :=
  match find cols x, find cols class with
  | Ret a, Ret k =>
      (entropyOf (map (field k) (rows v)) - averageOf (rows v) a k)%R
  | _, _ => 0%R
  end.

(** The scan of [Learn] over the columns, on the gains [g]. *)
Fixpoint scan (g : string -> R) (class : string) (cols : list string)
    (best : R * string) : R * string :=
  match cols with
  | [] => best
  | x :: rest =>
      if eligible class x
      then if gtb (g x) (fst best)
           then scan g class rest (g x, x)
           else scan g class rest best
      else scan g class rest best
  end.

(** The column [Learn] decides on. *)
Definition chosen (v : View) (cols : list string) (class : string) : string :=
  snd (scan (gainOf v cols class) class cols ((-1)%R, "")).

(** [c] has the maximum of [g] over the eligible columns and is the first
    column of [cols] that has it. *)
Definition firstMaximum (g : string -> R) (class : string)
    (cols : list string) (c : string) : Prop :=
  exists pre post,
    cols = pre ++ c :: post
    /\ eligible class c = true
    /\ (forall x, In x pre -> eligible class x = true -> (g x < g c)%R)
    /\ (forall x, In x post -> eligible class x = true -> (g x <= g c)%R).

(** ** Consistent rows and learned trees *)

(** Two rows have the same value in every column that is neither the class
    nor hidden. *)
Definition agree (cols : list string) (class : string) (r1 r2 : row) : bool :=
  forallb (fun j => implb (eligible class (nth j cols ""))
                          (String.eqb (field j r1) (field j r2)))
          (seq 0 (List.length cols)).

(** No two rows of the view agree on those columns and differ in the
    class. *)
Definition consistent (v : View) (cols : list string) (class : string) : bool :=
  match find cols class with
  | Ret k =>
      forallb (fun r1 =>
        forallb (fun r2 =>
          implb (agree cols class r1 r2)
                (String.eqb (field k r1) (field k r2)))
          (rows v))
        (rows v)
  | _ => true
  end.

(** The values are all the same. *)
Definition pure (l : list string) : Prop :=
  forall y1 y2, In y1 l -> In y2 l -> y1 = y2.

(** [Learned class v d]: [d] is a tree of [Learn] on [v].  It decides on
    the chosen column and has one case for each distinct value of that column
    in the view, by non-increasing likelihood; the case of a value whose
    sub-view has class entropy 0 is a leaf with the class of the first row of
    the sub-view, and the case of any other value holds a tree of [Learn] on
    the sub-view with the chosen column dropped. *)
Inductive Learned (class : string) : View -> Decision -> Prop :=
| Learned_decision v cols k a l cs :
    Columns v = Ret cols ->
    find cols class = Ret k ->
    find cols (chosen v cols class) = Ret a ->
    Permutation l (map (toDistinct (List.length (rows v)))
                       (tally (map (field a) (rows v)))) ->
    decreasing l ->
    LearnedCases class v a k l cs ->
    Learned class v (mkDecision (chosen v cols class) cs)
with LearnedCases (class : string)
    : View -> nat -> nat -> list Distinct -> list (option Case) -> Prop :=
| LearnedCases_nil v a k : LearnedCases class v a k [] []
| LearnedCases_leaf v a k d l cs :
    entropyOf (map (field k) (rows (selectView v a (Value d)))) = 0%R ->
    LearnedCases class v a k l cs ->
    LearnedCases class v a k (d :: l)
      (Some (mkCase (Value d)
               (field k (hd [] (rows (selectView v a (Value d))))) None) :: cs)
| LearnedCases_recurse v a k d d' l cs :
    entropyOf (map (field k) (rows (selectView v a (Value d)))) <> 0%R ->
    Learned class (dropView (selectView v a (Value d)) a) d' ->
    LearnedCases class v a k l cs ->
    LearnedCases class v a k (d :: l)
      (Some (mkCase (Value d) "" (Some d')) :: cs).

Scheme Learned_minimal := Minimality for Learned Sort Prop
  with LearnedCases_minimal := Minimality for LearnedCases Sort Prop.

(** [consistent], as a property of the rows. *)
Definition consistentRows (rs : list row) (cols : list string)
    (class : string) (k : nat) : Prop :=
  forall r1 r2, In r1 rs -> In r2 rs ->
    (forall j, j < List.length cols ->
               eligible class (nth j cols "") = true ->
               field j r1 = field j r2) ->
    field k r1 = field k r2.

(** The number of columns that are neither the class nor hidden. *)
Definition eligibleCount (cols : list string) (class : string) : nat :=
  List.length (filter (eligible class) cols).

(** ** decisions.go: ToJSON and FromJSON *)

(** [encoding/json] is not part of the package.  Of a byte slice the model
    keeps what [json.Unmarshal] reads in it for a [Decision]: whether it is
    JSON at all, and, for an object, the value it gives to each field of the
    struct, if it gives one that is not null; the spelling of the text
    (white space, the indentation of [MarshalIndent], escapes, the order and
    the case of the keys, keys of no field) is left out. *)
Inductive jsonDecision : Type :=
| jsDecision (Column : option string) (Cases : option (list (option jsonCase)))
with jsonCase : Type :=
| jsCase (Value Class : option string) (Decide : option jsonDecision).

Inductive bytes : Type :=
| notJSON                       (* no JSON text *)
| jsonNull                      (* null *)
| jsonOther                     (* a string, a number, a boolean, an array *)
| jsonObject (o : jsonDecision).

Inductive jsonError : Type := SyntaxError | UnmarshalTypeError.

Definition replacementChar : string :=
  String (ascii_of_nat 239) (String (ascii_of_nat 191)
    (String (ascii_of_nat 189) EmptyString)).

Definition between (lo hi : nat) (c : ascii) : bool :=
  (lo <=? nat_of_ascii c) && (nat_of_ascii c <=? hi).

Definition continuation (c : ascii) : bool := between 128 191 c.

(** What [json.Marshal] writes for a string and [json.Unmarshal] reads
    back: the string coerced to valid UTF-8, every byte that does not start a
    well-formed sequence replaced by U+FFFD. *)
Fixpoint toValidUTF8 (s : string) : string :=
  match s with
  | EmptyString => EmptyString
  | String c0 rest =>
      if between 0 127 c0 then String c0 (toValidUTF8 rest)
      else
        match rest with
        | String c1 rest1 =>
            if between 194 223 c0 && continuation c1
            then String c0 (String c1 (toValidUTF8 rest1))
            else
              match rest1 with
              | String c2 rest2 =>
                  if (between 224 224 c0 && between 160 191 c1
                      || between 225 236 c0 && continuation c1
                      || between 237 237 c0 && between 128 159 c1
                      || between 238 239 c0 && continuation c1)
                     && continuation c2
                  then String c0 (String c1 (String c2 (toValidUTF8 rest2)))
                  else
                    match rest2 with
                    | String c3 rest3 =>
                        if (between 240 240 c0 && between 144 191 c1
                            || between 241 243 c0 && continuation c1
                            || between 244 244 c0 && between 128 143 c1)
                           && continuation c2 && continuation c3
                        then String c0 (String c1 (String c2 (String c3
                               (toValidUTF8 rest3))))
                        else replacementChar ++ toValidUTF8 rest
                    | EmptyString => replacementChar ++ toValidUTF8 rest
                    end
              | EmptyString => replacementChar ++ toValidUTF8 rest
              end
        | EmptyString => replacementChar ++ toValidUTF8 rest
        end
  end.

Definition validUTF8 (s : string) : bool := String.eqb (toValidUTF8 s) s.

(** [json.Marshal] of a [*Decision] that is not nil: every field is
    exported and is written; a nil slice and a nil pointer are written as
    null. *)
Fixpoint marshalDecision (d : Decision) : jsonDecision :=
  match d with
  | mkDecision column cases =>
      jsDecision (Some (toValidUTF8 column))
        match cases with
        | [] => None
        | _ :: _ =>
            Some (map (fun c => match c with
                                | None => None
                                | Some c' => Some (marshalCase c')
                                end) cases)
        end
  end
with marshalCase (c : Case) : jsonCase :=
  match c with
  | mkCase value class dec =>
      jsCase (Some (toValidUTF8 value)) (Some (toValidUTF8 class))
        match dec with
        | None => None
        | Some d => Some (marshalDecision d)
        end
  end.

Definition orEmpty (s : option string) : string :=
  match s with Some x => x | None => "" end.

(** [json.Unmarshal] into a zero [Decision]: a field the object gives no
    value keeps its zero value. *)
Fixpoint unmarshalDecision (o : jsonDecision) : Decision :=
  match o with
  | jsDecision column cases =>
      mkDecision (orEmpty column)
        match cases with
        | None => []
        | Some l =>
            map (fun c => match c with
                          | None => None
                          | Some c' => Some (unmarshalCase c')
                          end) l
        end
  end
with unmarshalCase (c : jsonCase) : Case :=
  match c with
  | jsCase value class dec =>
      mkCase (orEmpty value) (orEmpty class)
        match dec with
        | None => None
        | Some o => Some (unmarshalDecision o)
        end
  end.

(** [ToJSON]: both [json.Marshal] and [json.MarshalIndent] spell the same
    document; no error arises for this type. *)
Definition ToJSON (d : option Decision) (indent : bool)
    : bytes * option jsonError :=
  match indent with
  | false =>
      (match d with None => jsonNull | Some d' => jsonObject (marshalDecision d') end,
       None)
  | true =>
      (match d with None => jsonNull | Some d' => jsonObject (marshalDecision d') end,
       None)
  end.

(** [FromJSON]: [d := new(Decision)], then [json.Unmarshal(b, d)]. *)
Definition FromJSON (b : bytes) : option Decision * option jsonError :=
  match b with
  | notJSON => (None, Some SyntaxError)
  | jsonOther => (None, Some UnmarshalTypeError)
  | jsonNull => (Some (mkDecision "" []), None)
  | jsonObject o => (Some (unmarshalDecision o), None)
  end.

(** Every name, value and class of the tree is valid UTF-8. *)
Fixpoint validTree (d : Decision) : bool :=
  match d with
  | mkDecision column cases =>
      validUTF8 column
      && forallb (fun c => match c with
                           | None => true
                           | Some c' => validCase c'
                           end) cases
  end
with validCase (c : Case) : bool :=
  match c with
  | mkCase value class dec =>
      validUTF8 value && validUTF8 class
      && match dec with
         | None => true
         | Some d => validTree d
         end
  end.

(** Every field of every record of the table is valid UTF-8. *)
Definition validTable (data : list row) : bool :=
  forallb (forallb validUTF8) data.

(** Serializing and deserializing gives the tree back. *)
Definition roundTrips (d : Decision) : Prop :=
  forall indent, FromJSON (fst (ToJSON (Some d) indent)) = (Some d, None).

(** A table whose first column has a name that is not UTF-8 (the byte FF). *)
Definition latin1 : list row :=
  [ [String (ascii_of_nat 255) EmptyString; "play"]; ["x"; "yes"] ].

(** Every tree that [Learn] returns on the view round-trips. *)
Definition learned_trees_round_trip (v : View) (class : string) : Prop :=
  forall fuel w d w', Learn fuel v class w = Ret (d, w') -> roundTrips d.

(** A training table whose only class label is the empty string. *)
Definition emptyLabel : list row := [ ["outlook"; "play"]; ["sunny"; ""] ].

(** ** Reading a view to its end *)

(** [pass v n rs n']: from the position [n] of the cursor, the successive
    calls of [Next] on [v] return the rows [rs], in that order, and then nil,
    leaving the cursor on [n']. *)
Inductive pass (v : View) : nat -> list row -> nat -> Prop :=
| pass_end n n' :
    Next v n = Ret (None, n') -> pass v n [] n'
| pass_row n r n' rs n'' :
    Next v n = Ret (Some r, n') -> pass v n' rs n'' -> pass v n (r :: rs) n''.

(** ** Training data that a tree can fit *)

(** [trainable class header v cols k]: [v] is a well-formed view of a table
    with the header [header]; its columns [cols] are names of the header at
    their index, or hidden; the class is the column [k]; the rows are
    consistent and no row has an empty class. *)
Definition trainable (class : string) (header : list string)
    (v : View) (cols : list string) (k : nat) : Prop :=
  wellFormed v = true
  /\ Columns v = Ret cols
  /\ find cols class = Ret k
  /\ hd [] (baseData v) = header
  /\ (forall j x, nth_error cols j = Some x -> x <> "" ->
                  nth_error header j = Some x)
  /\ consistentRows (rows v) cols class k
  /\ (forall r, In r (rows v) -> field k r <> "").

(** ** Trees that classification is safe on *)

Fixpoint distinct (l : list string) : bool :=
  match l with
  | [] => true
  | x :: rest => negb (existsb (String.eqb x) rest) && distinct rest
  end.

Definition valueOf (c : option Case) : string :=
  match c with
  | Some c' => caseValue c'
  | None => ""
  end.

(** Every decision of the tree has a case, no case is nil, the values of
    the cases of a decision are distinct, and every case holds either a class
    that is not empty and no decision, or the empty class and a decision. *)
Fixpoint safeTree (d : Decision) : bool :=
  match d with
  | mkDecision _ cases =>
      negb (match cases with [] => true | _ :: _ => false end)
      && distinct (map valueOf cases)
      && forallb (fun c => match c with
                           | None => false
                           | Some c' => safeCase c'
                           end) cases
  end
with safeCase (c : Case) : bool :=
  match c with
  | mkCase _ class dec =>
      match dec with
      | None => negb (String.eqb class "")
      | Some d => String.eqb class "" && safeTree d
      end
  end.

(** A table with two records that differ in the class only. *)
Definition contradictory : list row :=
  [ ["outlook"; "play"]; ["sunny"; "yes"]; ["sunny"; "no"] ].

(** The number of decisions on the longest path from a decision to a leaf. *)
Fixpoint depth (d : Decision) : nat :=
  match d with
  | mkDecision _ cases =>
      S (fold_right Nat.max 0
           (map (fun c => match c with
                          | None => 0
                          | Some c' => depthCase c'
                          end) cases))
  end
with depthCase (c : Case) : nat :=
  match c with
  | mkCase _ _ dec =>
      match dec with
      | None => 0
      | Some d => depth d
      end
  end.
(** * Properties *)

(** ** The cursor *)

Lemma First_resets (v : View) (n : nat) : First v n = Ret (tt, 1).
Proof. induction v; simpl; auto. Qed.

Lemma baseNext_bounds (data : list row) (n : nat) r n' :
  baseNext data n = Ret (r, n') ->
  match r with
  | Some rw => n < n' /\ n' <= List.length data /\ 1 < n'
               /\ nth_error data (n' - 1) = Some rw
  | None => n' = List.length data
  end.
Proof.
  unfold baseNext.
  set (m := if n =? 0 then 1 else n).
  assert (Hm : n <= m /\ 1 <= m) by (subst m; destruct (Nat.eqb_spec n 0); lia).
  destruct (Nat.eqb_spec m (List.length data)) as [E|E].
  - intros H; inversion H; subst; auto.
  - destruct (nth_error data m) eqn:Hn; [|discriminate].
    intros H; inversion H; subst.
    assert (m < List.length data) by (apply nth_error_Some; congruence).
    replace (S m - 1) with m by lia. repeat split; auto; lia.
Qed.

Lemma selectLoop_bounds (pn : M nat (option row)) (len : nat) col val :
  (forall n r n', pn n = Ret (r, n') ->
     match r with
     | Some _ => n < n' /\ n' <= len
     | None => n' = len
     end) ->
  forall fuel n r n',
    selectLoop fuel pn col val n = Ret (r, n') ->
    match r with
    | Some _ => n < n' /\ n' <= len
    | None => n' = len
    end.
Proof.
  intros Hp. induction fuel as [|f IH]; intros n r n'; simpl; [discriminate|].
  unfold bind. destruct (pn n) as [[[rw|] m]| |] eqn:E; try discriminate.
  - specialize (Hp _ _ _ E). simpl in Hp.
    destruct (nth_error rw col) as [x|]; [|discriminate].
    destruct (String.eqb x val).
    + unfold ret. intros H; inversion H; subst. auto.
    + intros H. specialize (IH _ _ _ H). destruct r; lia.
  - specialize (Hp _ _ _ E). simpl in Hp.
    unfold ret. intros H; inversion H; subst. auto.
Qed.

Lemma Next_bounds (v : View) : forall n r n',
  Next v n = Ret (r, n') ->
  match r with
  | Some _ => n < n' /\ n' <= List.length (baseData v)
  | None => n' = List.length (baseData v)
  end.
Proof.
  induction v as [data|p IH col val|p IH d]; intros n r n' H.
  - simpl in *. apply baseNext_bounds in H.
    destruct r; [destruct H as (?&?&?&?); split; assumption | assumption].
  - exact (selectLoop_bounds (Next p) _ col val IH _ _ _ _ H).
  - simpl in *. unfold bind in H. destruct (Next p n) as [[[rw|] m]| |] eqn:E; try discriminate;
      unfold ret in H; inversion H; subst; apply (IH _ _ _ E).
Qed.

Lemma selectLoop_total (pn : M nat (option row)) (len : nat) col val :
  (forall n, pn n <> OutOfFuel) ->
  (forall n r n', pn n = Ret (r, n') ->
     match r with
     | Some _ => n < n' /\ n' <= len
     | None => n' = len
     end) ->
  forall fuel n, 1 <= fuel -> len < n + fuel ->
    selectLoop fuel pn col val n <> OutOfFuel.
Proof.
  intros Ht Hp. induction fuel as [|f IH]; intros n Hf Hlen; [lia|].
  simpl. unfold bind. destruct (pn n) as [[[rw|] m]| |] eqn:E.
  - specialize (Hp _ _ _ E). simpl in Hp.
    destruct (nth_error rw col) as [x|]; [|unfold raise; discriminate].
    destruct (String.eqb x val); [unfold ret; discriminate|].
    apply IH; lia.
  - unfold ret; discriminate.
  - discriminate.
  - exfalso. eapply Ht; eauto.
Qed.

(** The loop of [selectView.Next] always comes back. *)
Lemma Next_total (v : View) : forall n, Next v n <> OutOfFuel.
Proof.
  induction v as [data|p IH col val|p IH d]; intros n.
  - simpl. unfold baseNext.
    destruct (_ =? List.length data); [discriminate|].
    destruct (nth_error data _); discriminate.
  - apply (selectLoop_total (Next p) (List.length (baseData p)) col val IH
             (Next_bounds p)); lia.
  - simpl. unfold bind. specialize (IH n).
    destruct (Next p n) as [[[rw|] m]| |]; try discriminate. congruence.
Qed.

(** C9, as stated, fails: a view freshly composed by [Select] on the base
    view of the weather table moves the cursor of the base view when it is
    advanced. *)
Lemma C9_shared_cursor_counterexample :
  ~ cursor_private (baseView weather) (selectView (baseView weather) 0 "sunny") 1.
Proof.
  intros [H _].
  specialize (H (Some ["sunny"; "hot"; "high"; "weak"; "no"]) 2 eq_refl).
  vm_compute in H. discriminate H.
Qed.

(** C9 (amended): a derived view has no cursor of its own.  [First] on any
    view of a chain puts the one cursor of the base view on the first data
    row; [Next] on a hidden-column view is [Next] on its parent; and [Next]
    on a filtered view that yields a row leaves that shared cursor strictly
    further than it found it (on the end of the data when it yields none),
    which is the position the parent and every other view of the chain then
    read from. *)
Theorem C9_derived_views_share_the_base_cursor :
  (forall v n, First v n = Ret (tt, 1))
  /\ (forall p d n, Next (dropView p d) n = Next p n)
  /\ (forall p col val n r n',
        Next (selectView p col val) n = Ret (r, n') ->
        match r with
        | Some _ => n < n' /\ n' <= List.length (baseData p)
        | None => n' = List.length (baseData p)
        end).
Proof.
  split; [exact First_resets|].
  split.
  { intros p d n. simpl. unfold bind, ret.
    destruct (Next p n) as [[[rw|] m]| |]; reflexivity. }
  intros p col val n r n' H. apply (Next_bounds (selectView p col val) _ _ _ H).
Qed.

(** On the weather table the filtered view on overcast moves the cursor of
    the base view from the first to past the third data row. *)
Lemma C9_shared_cursor_witness :
  Next (selectView (baseView weather) 0 "overcast") 1
  = Ret (Some ["overcast"; "hot"; "high"; "weak"; "yes"], 4)
  /\ 1 < 4 <= List.length (baseData (baseView weather)).
Proof.
  split; [reflexivity|].
  exact (proj2 (proj2 C9_derived_views_share_the_base_cursor)
           (baseView weather) 0 "overcast" 1 _ 4 eq_refl).
Defined.

(** ** Classification *)

Lemma decideOn_unfold (d : Decision) (data : list row) (at_ : nat) value :
  lookup d data at_ = Some value ->
  decideOn d data at_ =
  caseScan (fun d' => decideOn d' data at_) (Column d) value (Cases d).
Proof.
  destruct d as [column cases]. unfold lookup. simpl.
  destruct data as [|header rest]; [discriminate|].
  destruct (find header column) as [i| |]; try discriminate.
  destruct (nth_error (header :: rest) at_) as [rw|]; [|discriminate].
  intros ->. reflexivity.
Qed.

Lemma caseScan_skip recurse column value pre cs :
  matchesNone value pre = true ->
  caseScan recurse column value (pre ++ cs) = caseScan recurse column value cs.
Proof.
  induction pre as [|[[v cl dec]|] pre IH]; simpl; auto; [|discriminate].
  intros H. apply andb_prop in H as [Hv Hpre].
  destruct (String.eqb value v); [discriminate|]. auto.
Qed.

Lemma caseScan_none recurse column value cs :
  matchesNone value cs = true ->
  caseScan recurse column value cs = Panic (NoRule column).
Proof.
  intros H. rewrite <- (app_nil_r cs). rewrite caseScan_skip; auto.
Qed.

(** What [decide] does at the first case that has the row's value. *)
Lemma decideOn_first_match (d : Decision) data at_ value pre cl dec rest :
  lookup d data at_ = Some value ->
  Cases d = pre ++ Some (mkCase value cl dec) :: rest ->
  matchesNone value pre = true ->
  decideOn d data at_ =
  if negb (String.eqb cl "") then Ret cl else decide dec data at_.
Proof.
  intros Hl Hc Hp. rewrite (decideOn_unfold _ _ _ _ Hl), Hc.
  rewrite caseScan_skip by assumption. simpl. rewrite String.eqb_refl.
  destruct (negb (String.eqb cl "")); [reflexivity|].
  destruct dec as [d'|]; simpl; [reflexivity|].
  unfold lookup in Hl. destruct data; [discriminate|reflexivity].
Qed.

Lemma visits_decideOn data at_ root d :
  visits data at_ root d -> decideOn root data at_ = decideOn d data at_.
Proof.
  induction 1 as [|d value pre d' rest d'' Hl Hc Hp _ IH]; [reflexivity|].
  rewrite (decideOn_first_match _ _ _ _ _ _ _ _ Hl Hc Hp). simpl. exact IH.
Qed.

Lemma decideRows_panics d data ats i p :
  In i ats -> decide d data i = Panic p ->
  forall result, decideRows d data ats <> Ret result.
Proof.
  induction ats as [|j ats IH]; simpl; [tauto|].
  intros [->|Hin] Hp result.
  - rewrite Hp. discriminate.
  - destruct (decide d data j); try discriminate.
    specialize (IH Hin Hp).
    destruct (decideRows d data ats); try discriminate.
    exfalso. eapply IH; eauto.
Qed.

(** C4: when classification of a row has arrived at a decision none of
    whose cases has the row's value in the decision's column, [decide]
    panics with "no rule for column" and that panic is what the caller of the
    classification of the tree gets, from [decide] and from [Decide]: no
    class label is returned. *)
Theorem C4_unseen_value_panics_with_no_rule
    (root d : Decision) (data : list row) (at_ : nat) (value : string) :
  visits data at_ root d ->
  lookup d data at_ = Some value ->
  matchesNone value (Cases d) = true ->
  decide (Some root) data at_ = Panic (NoRule (Column d))
  /\ (1 <= at_ < List.length data ->
      forall result, Decide (Some root) data <> Ret result).
Proof.
  intros Hv Hl Hm.
  assert (E : decide (Some root) data at_ = Panic (NoRule (Column d))).
  { simpl. rewrite (visits_decideOn _ _ _ _ Hv).
    rewrite (decideOn_unfold _ _ _ _ Hl). apply caseScan_none; assumption. }
  split; [exact E|].
  intros Hat result. unfold Decide.
  apply decideRows_panics with (i := at_) (p := NoRule (Column d)); auto.
  apply in_seq. lia.
Qed.

(** The row (sunny, hot, low, weak) reaches the decision on humidity of the
    test tree, which has no case for "low". *)
Lemma C4_unseen_value_witness :
  decide (Some testRule)
    [ ["outlook"; "temperature"; "humidity"; "wind"; "play"];
      ["sunny"; "hot"; "low"; "weak"; "no"] ] 1
  = Panic (NoRule "humidity").
Proof.
  apply (C4_unseen_value_panics_with_no_rule testRule
    (mkDecision "humidity"
       [ Some (mkCase "high" "no" None); Some (mkCase "normal" "yes" None) ])
    [ ["outlook"; "temperature"; "humidity"; "wind"; "play"];
      ["sunny"; "hot"; "low"; "weak"; "no"] ] 1 "low").
  - eapply (visits_below _ _ testRule "sunny" []).
    + reflexivity.
    + reflexivity.
    + reflexivity.
    + apply visits_here.
  - reflexivity.
  - reflexivity.
Defined.

(** C10: at the first case that has the row's value, [decide] returns the
    case's class when that class is not the empty string and otherwise calls
    [decide] on the case's [Decide] pointer, whatever it is; so a case with
    class "" and a nil [Decide] makes the classification panic on a nil
    dereference instead of returning a label. *)
Theorem C10_leaf_is_tested_by_nonempty_class
    (d : Decision) (data : list row) (at_ : nat) (value cl : string)
    (pre rest : list (option Case)) (dec : option Decision) :
  lookup d data at_ = Some value ->
  Cases d = pre ++ Some (mkCase value cl dec) :: rest ->
  matchesNone value pre = true ->
  decide (Some d) data at_ =
    (if String.eqb cl "" then decide dec data at_ else Ret cl)
  /\ (cl = "" -> dec = None -> decide (Some d) data at_ = Panic NilDereference).
Proof.
  intros Hl Hc Hp.
  assert (E : decide (Some d) data at_ =
              if String.eqb cl "" then decide dec data at_ else Ret cl).
  { simpl. rewrite (decideOn_first_match _ _ _ _ _ _ _ _ Hl Hc Hp).
    destruct (String.eqb cl ""); reflexivity. }
  split; [exact E|].
  intros -> ->. rewrite E. simpl.
  unfold lookup in Hl. destruct data; [discriminate|reflexivity].
Qed.

(** A tree with a case that has neither a class nor a decision. *)
Lemma C10_leaf_test_witness :
  decide (Some (mkDecision "outlook" [Some (mkCase "sunny" "" None)]))
    [ ["outlook"; "play"]; ["sunny"; ""] ] 1
  = Panic NilDereference.
Proof.
  apply (C10_leaf_is_tested_by_nonempty_class
           (mkDecision "outlook" [Some (mkCase "sunny" "" None)])
           [ ["outlook"; "play"]; ["sunny"; ""] ] 1 "sunny" "" [] [] None).
  - reflexivity.
  - reflexivity.
  - reflexivity.
  - reflexivity.
  - reflexivity.
Defined.

(** ** A full pass over a well-formed view *)

Lemma rectangular_length data :
  rectangular data = true -> 1 <= List.length data.
Proof. destruct data; simpl; [discriminate|lia]. Qed.

Lemma wellFormed_base (v : View) :
  wellFormed v = true -> rectangular (baseData v) = true.
Proof.
  induction v; simpl; auto; intros H; apply andb_prop in H as [H _]; auto.
Qed.

Lemma rectangular_width data header rest r n :
  rectangular data = true -> data = header :: rest -> 1 <= n ->
  In r (skipn n data) -> List.length r = List.length header.
Proof.
  intros Hr -> Hn Hin. simpl in Hr.
  destruct n as [|n]; [lia|]. simpl in Hin.
  assert (In r rest).
  { rewrite <- (firstn_skipn n rest). apply in_or_app. auto. }
  rewrite forallb_forall in Hr. apply Nat.eqb_eq. auto.
Qed.

Lemma rowsFrom_width (v : View) n r :
  wellFormed v = true -> 1 <= n -> In r (rowsFrom v n) ->
  List.length r = width v.
Proof.
  intros Hwf Hn Hin. unfold rowsFrom in Hin. apply filter_In in Hin as [Hin _].
  pose proof (wellFormed_base _ Hwf) as Hr. unfold width.
  destruct (baseData v) as [|header rest] eqn:E; [discriminate|].
  eapply rectangular_width; eauto.
Qed.

Lemma rowsFrom_select p col val n :
  rowsFrom (selectView p col val) n = filter (hasValue col val) (rowsFrom p n).
Proof.
  unfold rowsFrom. simpl. generalize (skipn n (baseData p)).
  induction l as [|r l IH]; simpl; auto.
  destruct (shows p r); simpl; [|exact IH].
  destruct (hasValue col val r); simpl; rewrite IH; reflexivity.
Qed.

Lemma skipn_nth_error {A} (l : list A) n x :
  nth_error l n = Some x -> skipn n l = x :: skipn (S n) l.
Proof.
  revert n. induction l as [|a l IH]; intros [|n]; simpl; try discriminate.
  - intros H; inversion H; reflexivity.
  - intros H. apply IH in H. exact H.
Qed.

Lemma selectLoop_steps p col val :
  wellFormed (selectView p col val) = true ->
  (forall n, 1 <= n <= List.length (baseData p) -> steps p (Next p) n) ->
  forall fuel n,
    1 <= n <= List.length (baseData p) ->
    List.length (baseData p) < n + fuel ->
    steps (selectView p col val) (selectLoop fuel (Next p) col val) n.
Proof.
  intros Hwf Hp. simpl in Hwf. apply andb_prop in Hwf as [Hwf Hcol].
  apply Nat.ltb_lt in Hcol.
  induction fuel as [|f IH]; intros n Hn Hf; [lia|].
  unfold steps. rewrite !rowsFrom_select. cbn [selectLoop]. unfold bind.
  destruct (Hp n Hn) as [(r & n' & E & Hn' & Hrows)|[E Hrows]]; rewrite E, Hrows.
  - assert (Hlen : List.length r = width p).
    { apply (rowsFrom_width p n); auto; try lia. rewrite Hrows. left. reflexivity. }
    cbn [filter].
    destruct (nth_error r col) as [x|] eqn:Ex.
    2:{ apply nth_error_None in Ex. exfalso. lia. }
    assert (Hv : hasValue col val r = String.eqb x val)
      by (unfold hasValue; rewrite Ex; reflexivity).
    rewrite Hv.
    destruct (String.eqb x val).
    + left. exists r, n'. unfold ret. rewrite rowsFrom_select. auto.
    + destruct (IH n') as [(r2 & n2 & E2 & Hn2 & Hrows2)|[E2 Hrows2]]; try lia;
        cbn [baseData] in *.
      * left. exists r2, n2. rewrite !rowsFrom_select in Hrows2.
        rewrite rowsFrom_select. repeat split; auto; try lia.
      * right. rewrite !rowsFrom_select in Hrows2. auto.
  - right. unfold ret. auto.
Qed.

Lemma Next_steps (v : View) :
  wellFormed v = true ->
  forall n, 1 <= n <= List.length (baseData v) -> steps v (Next v) n.
Proof.
  induction v as [data|p IH col val|p IH d]; intros Hwf n Hn.
  - simpl in *. unfold steps, rowsFrom, baseNext. simpl.
    destruct (Nat.eqb_spec n 0); [lia|].
    destruct (Nat.eqb_spec n (List.length data)) as [E|E].
    + right. subst n. rewrite skipn_all. auto.
    + left. destruct (nth_error data n) as [r|] eqn:Er.
      2:{ apply nth_error_None in Er. lia. }
      exists r, (S n). rewrite (skipn_nth_error _ _ _ Er). simpl.
      repeat split; auto; lia.
  - apply selectLoop_steps; auto; try lia.
    apply IH. simpl in Hwf. apply andb_prop in Hwf as [H _]. exact H.
  - simpl in Hwf. apply andb_prop in Hwf as [Hwf _].
    destruct (IH Hwf n Hn) as [(r & n' & E & Hn' & Hrows)|[E Hrows]].
    + left. exists r, n'. simpl. unfold bind, ret. rewrite E. auto.
    + right. simpl. unfold bind, ret. rewrite E. auto.
Qed.

Lemma find_spec (l : list string) (x : string) (i : nat) :
  find l x = Ret i ->
  i < List.length l /\ nth_error l i = Some x
  /\ forall j, j < i -> nth_error l j <> Some x.
Proof.
  revert i. induction l as [|s l IH]; simpl; intros i; [discriminate|].
  destruct (String.eqb_spec s x) as [->|Hne].
  - intros H; inversion H; subst. repeat split; auto; try lia.
  - destruct (find l x) as [k| |]; try discriminate.
    intros H; inversion H; subst. destruct (IH k eq_refl) as (Hk & Hn & Hfirst).
    repeat split; simpl; auto; try lia.
    intros [|j] Hj; simpl; [congruence|]. apply Hfirst. lia.
Qed.

Lemma find_In (l : list string) (x : string) :
  In x l -> exists i, find l x = Ret i.
Proof.
  induction l as [|s l IH]; simpl; [tauto|].
  intros H. destruct (String.eqb_spec s x) as [->|Hne]; [eauto|].
  destruct H as [H|H]; [congruence|].
  destruct (IH H) as [i ->]. eauto.
Qed.

Lemma assign_spec {A} (c : list A) (i : nat) (x : A) :
  i < List.length c ->
  exists c', assign c i x = Ret c' /\ List.length c' = List.length c
             /\ nth_error c' i = Some x
             /\ forall j, j <> i -> nth_error c' j = nth_error c j.
Proof.
  revert i. induction c as [|a c IH]; simpl; intros i Hi; [lia|].
  destruct i as [|i].
  - exists (x :: c). repeat split; auto. intros [|j] Hj; [lia|reflexivity].
  - destruct (IH i) as (c' & -> & Hl & Hn & Ho); [lia|].
    exists (a :: c'). simpl. repeat split; auto.
    intros [|j] Hj; simpl; auto.
Qed.

Lemma Columns_wellFormed (v : View) :
  wellFormed v = true ->
  exists cols, Columns v = Ret cols /\ List.length cols = width v.
Proof.
  induction v as [data|p IH col val|p IH d]; simpl; intros Hwf.
  - unfold width. simpl. destruct data as [|h rest]; [discriminate|]. eauto.
  - apply andb_prop in Hwf as [Hwf _]. exact (IH Hwf).
  - apply andb_prop in Hwf as [Hwf Hd]. apply Nat.ltb_lt in Hd.
    destruct (IH Hwf) as (cols & -> & Hl).
    destruct (assign_spec cols d "") as (c' & -> & Hl' & _); [lia|].
    exists c'. split; auto. unfold width in *. simpl. lia.
Qed.

Lemma Select_wellFormed (v : View) column value sub :
  wellFormed v = true -> Select v column value = Ret sub ->
  wellFormed sub = true /\ baseData sub = baseData v
  /\ exists cols i, Columns v = Ret cols /\ find cols column = Ret i
                    /\ sub = selectView v i value.
Proof.
  intros Hwf. unfold Select.
  destruct (Columns_wellFormed v Hwf) as (cols & -> & Hl).
  destruct (find cols column) as [i| |] eqn:E; try discriminate.
  intros H; inversion H; subst.
  pose proof (find_spec _ _ _ E) as (Hi & _).
  split; [simpl; rewrite Hwf; apply Nat.ltb_lt; lia|].
  split; [reflexivity|]. exists cols, i. auto.
Qed.

Lemma tallyLoop_spec (v : View) (i : nat) :
  wellFormed v = true -> i < width v ->
  forall fuel n acc tot,
    1 <= n <= List.length (baseData v) ->
    List.length (baseData v) < n + fuel ->
    tallyLoop fuel v i acc tot n =
    Ret ((fold_left bump (map (field i) (rowsFrom v n)) acc,
          tot + List.length (rowsFrom v n)),
         List.length (baseData v)).
Proof.
  intros Hwf Hi. induction fuel as [|f IH]; intros n acc tot Hn Hf; [lia|].
  cbn [tallyLoop]. unfold bind.
  destruct (Next_steps v Hwf n Hn) as [(r & n' & E & Hn' & Hrows)|[E Hrows]];
    rewrite E, Hrows.
  - assert (Hlen : List.length r = width v).
    { apply (rowsFrom_width v n); auto; try lia. rewrite Hrows. left. reflexivity. }
    destruct (nth_error r i) as [x|] eqn:Ex.
    2:{ apply nth_error_None in Ex. exfalso. lia. }
    rewrite IH by lia. simpl.
    replace (field i r) with x.
    2:{ unfold field. symmetry. apply nth_error_nth. exact Ex. }
    do 3 f_equal. lia.
  - unfold ret. simpl. do 3 f_equal. lia.
Qed.

(** [Likelihood] on a well-formed view: the value is the tally of the
    column over the rows of the view, in the order of the seed, divided by
    the number of rows and sorted; the cursor is left on the end of the data
    and one seed is used up. *)
Lemma Likelihood_spec (v : View) (column : string) cols i (w : World) :
  wellFormed v = true ->
  Columns v = Ret cols -> find cols column = Ret i ->
  Likelihood v column w =
  Ret (sortSlice
         (map (toDistinct (List.length (rows v)))
              (mapRange (hd 0 (order w)) (tally (map (field i) (rows v))))),
       mkWorld (List.length (baseData v)) (tl (order w))).
Proof.
  intros Hwf Hc Hf. unfold Likelihood, bind, lift, onCursor.
  rewrite Hc, Hf, First_resets. cbn [next order].
  pose proof (rectangular_length _ (wellFormed_base _ Hwf)) as Hlen.
  destruct (Columns_wellFormed v Hwf) as (cols' & Hc' & Hw).
  rewrite Hc in Hc'. inversion Hc'; subst cols'.
  apply find_spec in Hf as (Hi & _).
  rewrite tallyLoop_spec; auto; try lia.
  unfold rangeSeed, ret. cbn [next order]. fold (rows v). unfold tally.
  destruct (order w); reflexivity.
Qed.

(** ** The tally *)

Lemma tally_snoc l x : tally (l ++ [x]) = bump (tally l) x.
Proof. unfold tally. rewrite fold_left_app. reflexivity. Qed.

Lemma bump_keys m v :
  map fst (bump m v) = if in_dec string_dec v (map fst m)
                       then map fst m else map fst m ++ [v].
Proof.
  induction m as [|[k n] m IH]; simpl; [reflexivity|].
  destruct (String.eqb_spec k v) as [->|Hne]; simpl.
  - destruct (string_dec v v); [reflexivity|congruence].
  - rewrite IH. destruct (string_dec k v); [congruence|].
    destruct (in_dec string_dec v (map fst m)); reflexivity.
Qed.

Lemma bump_NoDup m v : NoDup (map fst m) -> NoDup (map fst (bump m v)).
Proof.
  intros H. rewrite bump_keys.
  destruct (in_dec string_dec v (map fst m)) as [Hin|Hnin]; auto.
  apply NoDup_app; auto.
  - repeat constructor. simpl. tauto.
  - intros a Ha [<-|[]]. tauto.
Qed.

Lemma countOf_bump m v k :
  countOf (bump m v) k = countOf m k + (if String.eqb v k then 1 else 0).
Proof.
  induction m as [|[k' n] m IH]; simpl.
  - reflexivity.
  - destruct (String.eqb_spec k' v) as [->|Hne]; simpl.
    + destruct (String.eqb v k); lia.
    + destruct (String.eqb_spec k' k) as [->|Hne'].
      * destruct (String.eqb_spec v k); [congruence|lia].
      * exact IH.
Qed.

Lemma countOf_In m k n :
  NoDup (map fst m) -> In (k, n) m -> countOf m k = n.
Proof.
  induction m as [|[k' n'] m IH]; simpl; [tauto|].
  intros Hnd [H|H].
  - inversion H; subst. rewrite String.eqb_refl. reflexivity.
  - inversion Hnd; subst. destruct (String.eqb_spec k' k) as [->|Hne]; auto.
    exfalso. apply H2. change k with (fst (k, n)). apply in_map. exact H.
Qed.

Lemma countOf_absent m k : ~ In k (map fst m) -> countOf m k = 0.
Proof.
  induction m as [|[k' n'] m IH]; simpl; auto.
  intros H. destruct (String.eqb_spec k' k); [tauto|]. apply IH. tauto.
Qed.

Lemma In_countOf m k :
  In k (map fst m) -> In (k, countOf m k) m.
Proof.
  induction m as [|[k' n'] m IH]; simpl; [tauto|].
  destruct (String.eqb_spec k' k) as [->|Hne]; auto.
  intros [H|H]; [congruence|]. auto.
Qed.

Lemma tally_NoDup l : NoDup (map fst (tally l)).
Proof.
  induction l as [|x l IH] using rev_ind; [constructor|].
  rewrite tally_snoc. apply bump_NoDup. exact IH.
Qed.

Lemma tally_keys l k : In k (map fst (tally l)) <-> In k l.
Proof.
  induction l as [|x l IH] using rev_ind; [simpl; tauto|].
  rewrite tally_snoc, bump_keys, in_app_iff.
  destruct (in_dec string_dec x (map fst (tally l))) as [Hin|Hnin].
  - rewrite IH. simpl. split; auto. intros [H|[<-|[]]]; auto. apply IH. exact Hin.
  - rewrite in_app_iff, IH. simpl. tauto.
Qed.

Lemma tally_countOf l k : countOf (tally l) k = count_occ string_dec l k.
Proof.
  induction l as [|x l IH] using rev_ind; [reflexivity|].
  rewrite tally_snoc, countOf_bump, IH, count_occ_app. simpl.
  destruct (string_dec x k) as [->|Hne].
  - rewrite String.eqb_refl. reflexivity.
  - destruct (String.eqb_spec x k); [congruence|reflexivity].
Qed.

(** An entry of the tally is a value of the column with the number of its
    occurrences. *)
Lemma tally_In l k n :
  In (k, n) (tally l) <-> In k l /\ n = count_occ string_dec l k.
Proof.
  split.
  - intros H. split.
    + apply tally_keys. change k with (fst (k, n)). apply in_map. exact H.
    + rewrite <- tally_countOf. symmetry. apply countOf_In; auto. apply tally_NoDup.
  - intros [H ->]. rewrite <- tally_countOf. apply In_countOf.
    apply tally_keys. exact H.
Qed.

Lemma bump_total m v :
  list_sum (map snd (bump m v)) = S (list_sum (map snd m)).
Proof.
  induction m as [|[k n] m IH]; simpl; [reflexivity|].
  destruct (String.eqb k v); simpl; [reflexivity|]. rewrite IH. lia.
Qed.

Lemma tally_total l : list_sum (map snd (tally l)) = List.length l.
Proof.
  induction l as [|x l IH] using rev_ind; [reflexivity|].
  rewrite tally_snoc, bump_total, IH, length_app. simpl. lia.
Qed.

(** ** The order of a map range and the sort *)

Lemma insertAt_perm {A} (k : nat) (x : A) (l : list A) :
  Permutation (insertAt k x l) (x :: l).
Proof.
  revert k. induction l as [|y l IH]; intros [|k]; simpl; auto.
  rewrite IH. apply perm_swap.
Qed.

Lemma mapRange_perm {A} (seed : nat) (m : list A) :
  Permutation (mapRange seed m) m.
Proof.
  revert seed. induction m as [|x m IH]; intros seed; simpl; auto.
  rewrite insertAt_perm. constructor. apply IH.
Qed.

Lemma insertAt_length {A} (x : A) (l1 l2 : list A) :
  insertAt (List.length l1) x (l1 ++ l2) = l1 ++ x :: l2.
Proof.
  induction l1 as [|y l1 IH]; simpl.
  - destruct l2; reflexivity.
  - rewrite IH. reflexivity.
Qed.

(** Every order of the entries is the order of some seed. *)
Lemma mapRange_any_order {A} (m m' : list A) :
  Permutation m m' -> exists seed, mapRange seed m = m'.
Proof.
  revert m'. induction m as [|x m IH]; intros m' Hp.
  - apply Permutation_nil in Hp. subst. exists 0. reflexivity.
  - assert (Hin : In x m') by (apply (Permutation_in _ Hp); left; reflexivity).
    apply in_split in Hin as (l1 & l2 & ->).
    apply Permutation_cons_app_inv in Hp.
    destruct (IH _ Hp) as [seed' Hseed].
    assert (Hlen : List.length l1 < S (List.length m)).
    { apply Permutation_length in Hp. rewrite length_app in Hp. lia. }
    exists (List.length l1 + S (List.length m) * seed'). cbn [mapRange].
    rewrite (Nat.mul_comm (S (List.length m)) seed').
    rewrite Nat.Div0.mod_add, Nat.div_add by lia.
    rewrite (Nat.mod_small _ _ Hlen), (Nat.div_small _ _ Hlen), Nat.add_0_l.
    rewrite Hseed. apply insertAt_length.
Qed.

Lemma sortInsert_perm x l : Permutation (sortInsert x l) (x :: l).
Proof.
  induction l as [|y l IH]; simpl; auto.
  destruct (gtb _ _); auto. rewrite IH. apply perm_swap.
Qed.

Lemma sortSlice_perm l : Permutation (sortSlice l) l.
Proof.
  unfold sortSlice.
  assert (H : forall acc, Permutation (fold_left (fun s x => sortInsert x s) l acc)
                                      (acc ++ l)).
  { induction l as [|x l IH]; intros acc; simpl.
    - rewrite app_nil_r. reflexivity.
    - rewrite IH, sortInsert_perm. apply Permutation_middle. }
  apply (H []).
Qed.

Lemma sortInsert_sorted x l : decreasing l -> decreasing (sortInsert x l).
Proof.
  unfold decreasing. induction 1 as [|y l Hs IH Hy]; simpl.
  - repeat constructor.
  - unfold gtb. destruct (Rgt_dec (Probability x) (Probability y)) as [Hgt|Hle].
    + constructor; [constructor; auto|].
      constructor; [lra|].
      rewrite Forall_forall in *. intros z Hz. specialize (Hy z Hz). lra.
    + constructor; auto.
      rewrite Forall_forall in *. intros z Hz.
      apply (Permutation_in _ (sortInsert_perm x l)) in Hz.
      destruct Hz as [<-|Hz]; [lra|auto].
Qed.

Lemma sortSlice_sorted l : decreasing (sortSlice l).
Proof.
  unfold sortSlice.
  assert (H : forall acc, decreasing acc ->
                decreasing (fold_left (fun s x => sortInsert x s) l acc)).
  { induction l as [|x l IH]; intros acc Hacc; simpl; auto.
    apply IH. apply sortInsert_sorted. exact Hacc. }
  apply H. constructor.
Qed.

(** ** Sums of reals *)

Lemma sumR_app l1 l2 : sumR (l1 ++ l2) = (sumR l1 + sumR l2)%R.
Proof. induction l1; simpl; [lra|]. rewrite IHl1. lra. Qed.

Lemma sumR_perm l1 l2 : Permutation l1 l2 -> sumR l1 = sumR l2.
Proof. induction 1; simpl; lra. Qed.

Lemma fold_left_sumR {A} (f : A -> R) (l : list A) (h : R) :
  fold_left (fun h v => (h + f v)%R) l h = (h + sumR (map f l))%R.
Proof.
  revert h. induction l as [|a l IH]; intros h; simpl; [lra|].
  rewrite IH. lra.
Qed.

Lemma sumR_counts (m : list (string * nat)) (total : nat) :
  sumR (map Probability (map (toDistinct total) m))
  = (INR (list_sum (map snd m)) / INR total)%R.
Proof.
  induction m as [|[k n] m IH]; simpl.
  - unfold Rdiv. lra.
  - rewrite IH, plus_INR. unfold Rdiv. lra.
Qed.

(** ** Likelihood *)

Lemma Likelihood_perm (v : View) (column : string) cols i (w : World) l w' :
  wellFormed v = true ->
  Columns v = Ret cols -> find cols column = Ret i ->
  Likelihood v column w = Ret (l, w') ->
  Permutation l (map (toDistinct (List.length (rows v)))
                     (tally (map (field i) (rows v))))
  /\ decreasing l.
Proof.
  intros Hwf Hc Hf H. rewrite (Likelihood_spec _ _ _ _ _ Hwf Hc Hf) in H.
  inversion H; subst. split; [|apply sortSlice_sorted].
  rewrite sortSlice_perm. apply Permutation_map. apply mapRange_perm.
Qed.

(** C5: on a view with at least one row and a column of the view,
    [Likelihood] returns a slice whose probabilities add up to 1 (exactly,
    in the arithmetic of the model, which does not round) and which is
    sorted in non-increasing probability. *)
Theorem C5_likelihood_sums_to_one_and_is_sorted
    (v : View) (column : string) (cols : list string) (w : World) :
  wellFormed v = true ->
  Columns v = Ret cols -> In column cols ->
  rows v <> [] ->
  exists l w',
    Likelihood v column w = Ret (l, w')
    /\ sumR (map Probability l) = 1%R
    /\ decreasing l.
Proof.
  intros Hwf Hc Hin Hrows.
  destruct (find_In _ _ Hin) as [i Hf].
  eexists. eexists. split; [apply (Likelihood_spec _ _ _ _ _ Hwf Hc Hf)|].
  split; [|apply sortSlice_sorted].
  rewrite (sumR_perm _ (map Probability
             (map (toDistinct (List.length (rows v)))
                  (tally (map (field i) (rows v)))))).
  - rewrite sumR_counts, tally_total, length_map.
    apply Rinv_r. apply not_0_INR. destruct (rows v); [congruence|discriminate].
  - apply Permutation_map. rewrite sortSlice_perm.
    apply Permutation_map. apply mapRange_perm.
Qed.

Lemma C5_likelihood_witness :
  exists l w',
    Likelihood (baseView weather) "outlook" (mkWorld 1 []) = Ret (l, w')
    /\ sumR (map Probability l) = 1%R
    /\ decreasing l.
Proof.
  apply (C5_likelihood_sums_to_one_and_is_sorted (baseView weather) "outlook"
           ["outlook"; "temperature"; "humidity"; "wind"; "play"]).
  - reflexivity.
  - reflexivity.
  - simpl. auto.
  - vm_compute. discriminate.
Defined.

Lemma gtb_irrefl (a : R) : gtb a a = false.
Proof. unfold gtb. destruct (Rgt_dec a a); [lra|reflexivity]. Qed.

(** C6, as stated, fails: on a table whose two rows have different values
    in a column, the two values are equally likely and come out in the order
    in which the runtime walked the map, which differs between two calls. *)
Lemma C6_tie_order_counterexample :
  ~ Likelihood_deterministic (baseView twoRows) "wind".
Proof.
  intros H.
  specialize (H (mkWorld 1 [0]) (mkWorld 1 [1])).
  rewrite !(Likelihood_spec (baseView twoRows) "wind" ["wind"; "play"] 0)
    in H by reflexivity.
  cbn in H. rewrite !gtb_irrefl in H.
  specialize (H _ _ _ _ eq_refl eq_refl). discriminate H.
Qed.

Lemma sorted_reals_unique (l1 l2 : list R) :
  Permutation l1 l2 ->
  StronglySorted Rge l1 -> StronglySorted Rge l2 -> l1 = l2.
Proof.
  revert l2. induction l1 as [|a l1 IH]; intros l2 Hp H1 H2.
  - apply Permutation_nil in Hp. congruence.
  - destruct l2 as [|b l2].
    { symmetry in Hp. apply Permutation_nil in Hp. discriminate. }
    inversion H1 as [|? ? Hs1 Ha]; subst. inversion H2 as [|? ? Hs2 Hb]; subst.
    assert (E : a = b).
    { assert (Hin1 : In a (b :: l2)) by (apply (Permutation_in _ Hp); left; auto).
      assert (Hin2 : In b (a :: l1))
        by (apply (Permutation_in _ (Permutation_sym Hp)); left; auto).
      rewrite Forall_forall in Ha, Hb.
      destruct Hin1 as [->|Hin1]; auto. destruct Hin2 as [->|Hin2]; auto.
      specialize (Ha _ Hin2). specialize (Hb _ Hin1). lra. }
    subst b. f_equal. apply IH; auto. eapply Permutation_cons_inv; eauto.
Qed.

Lemma decreasing_map l : decreasing l -> StronglySorted Rge (map Probability l).
Proof.
  induction 1 as [|a l Hs IH Ha]; simpl; constructor; auto.
  rewrite Forall_forall in *. intros p Hp.
  apply in_map_iff in Hp as (b & <- & Hb). auto.
Qed.

Lemma distinct_keys_unique (l1 l2 : list Distinct) :
  Permutation l1 l2 ->
  map Probability l1 = map Probability l2 ->
  NoDup (map Probability l1) -> l1 = l2.
Proof.
  revert l2. induction l1 as [|a l1 IH]; intros [|b l2] Hp Hm Hnd;
    try discriminate; auto.
  simpl in Hm. inversion Hm as [[Hab Hrest]]. inversion Hnd as [|? ? Hna Hnd']; subst.
  assert (E : a = b).
  { assert (Hin : In b (a :: l1))
      by (apply (Permutation_in _ (Permutation_sym Hp)); left; auto).
    destruct Hin as [->|Hin]; auto.
    exfalso. apply Hna. rewrite Hab. apply in_map. exact Hin. }
  subst b. f_equal. apply IH; auto. eapply Permutation_cons_inv; eauto.
Qed.

(** C6 (amended): two calls of [Likelihood] on the same view and column
    return the same entries with the same sequence of probabilities; they
    return the same slice when no two values are equally likely.  The order
    among equally likely values is the order in which the runtime walked the
    map in that call and is not fixed. *)
Theorem C6_likelihood_is_determined_up_to_ties
    (v : View) (column : string) (cols : list string)
    (w1 w2 w1' w2' : World) (l1 l2 : list Distinct) :
  wellFormed v = true ->
  Columns v = Ret cols -> In column cols ->
  Likelihood v column w1 = Ret (l1, w1') ->
  Likelihood v column w2 = Ret (l2, w2') ->
  Permutation l1 l2
  /\ map Probability l1 = map Probability l2
  /\ (NoDup (map Probability l1) -> l1 = l2).
Proof.
  intros Hwf Hc Hin H1 H2.
  destruct (find_In _ _ Hin) as [i Hf].
  destruct (Likelihood_perm _ _ _ _ _ _ _ Hwf Hc Hf H1) as [P1 S1].
  destruct (Likelihood_perm _ _ _ _ _ _ _ Hwf Hc Hf H2) as [P2 S2].
  assert (P : Permutation l1 l2) by (rewrite P1, P2; reflexivity).
  assert (E : map Probability l1 = map Probability l2).
  { apply sorted_reals_unique; auto using decreasing_map.
    apply Permutation_map. exact P. }
  repeat split; auto. intros Hnd. apply distinct_keys_unique; auto.
Qed.

Lemma C6_likelihood_witness :
  exists l1 l2 w1' w2',
    Likelihood (baseView twoRows) "wind" (mkWorld 1 [0]) = Ret (l1, w1')
    /\ Likelihood (baseView twoRows) "wind" (mkWorld 1 [1]) = Ret (l2, w2')
    /\ Permutation l1 l2
    /\ map Probability l1 = map Probability l2.
Proof.
  do 4 eexists.
  split; [apply (Likelihood_spec (baseView twoRows) "wind" ["wind"; "play"] 0);
          reflexivity|].
  split; [apply (Likelihood_spec (baseView twoRows) "wind" ["wind"; "play"] 0);
          reflexivity|].
  assert (H := C6_likelihood_is_determined_up_to_ties
                 (baseView twoRows) "wind" ["wind"; "play"]
                 (mkWorld 1 [0]) (mkWorld 1 [1])).
  edestruct H as (P & E & _).
  - reflexivity.
  - reflexivity.
  - simpl. auto.
  - apply (Likelihood_spec (baseView twoRows) "wind" ["wind"; "play"] 0); reflexivity.
  - apply (Likelihood_spec (baseView twoRows) "wind" ["wind"; "play"] 0); reflexivity.
  - split; [exact P|exact E].
Defined.

(** ** Learning from a view without rows *)

Section EmptyView.

Variable v : View.
Variable cols : list string.
Hypothesis Hwf : wellFormed v = true.
Hypothesis Hcols : Columns v = Ret cols.
Hypothesis Hempty : rows v = [].

Let done_ (w : World) : World :=
  mkWorld (List.length (baseData v)) (tl (order w)).

Lemma Likelihood_empty column w :
  In column cols -> Likelihood v column w = Ret ([], done_ w).
Proof.
  intros Hin. destruct (find_In _ _ Hin) as [i Hf].
  rewrite (Likelihood_spec _ _ _ _ _ Hwf Hcols Hf), Hempty. reflexivity.
Qed.

Lemma TotalEntropy_empty class w :
  In class cols -> TotalEntropy v class w = Ret (0%R, done_ w).
Proof.
  intros Hin. unfold TotalEntropy, bind. rewrite Likelihood_empty by assumption.
  reflexivity.
Qed.

Lemma AverageEntropy_empty attribute class w :
  In attribute cols -> In class cols ->
  AverageEntropy v attribute class w = Ret (0%R, done_ w).
Proof.
  intros Ha Hc. destruct (find_In _ _ Hc) as [i Hf].
  unfold AverageEntropy, bind, lift. rewrite Hcols, Hf.
  rewrite Likelihood_empty by assumption. reflexivity.
Qed.

Lemma gainLoop_empty_keeps class w rest x :
  In class cols -> incl rest cols ->
  exists w', gainLoop v class 0%R rest ((0 - 0)%R, x) w
             = Ret (((0 - 0)%R, x), w').
Proof.
  intros Hc. revert w. induction rest as [|c rest IH]; intros w Hincl; simpl.
  - eexists. reflexivity.
  - assert (Hrest : incl rest cols) by (intros a Ha; apply Hincl; right; auto).
    destruct (String.eqb c class || String.eqb c "")%bool; [apply IH; auto|].
    unfold bind. rewrite AverageEntropy_empty; auto.
    2:{ apply Hincl. left. reflexivity. }
    rewrite gtb_irrefl. apply IH; auto.
Qed.

Lemma gainLoop_empty_first class w rest c :
  In class cols -> incl rest cols ->
  firstEligible rest class = Some c ->
  exists w', gainLoop v class 0%R rest ((-1)%R, "") w
             = Ret (((0 - 0)%R, c), w').
Proof.
  intros Hc. revert w. induction rest as [|x rest IH]; intros w Hincl; simpl;
    [discriminate|].
  assert (Hrest : incl rest cols) by (intros a Ha; apply Hincl; right; auto).
  destruct (String.eqb x class || String.eqb x "")%bool; [apply IH; auto|].
  intros H; inversion H; subst x.
  unfold bind. rewrite AverageEntropy_empty; auto.
  2:{ apply Hincl. left. reflexivity. }
  simpl. replace (gtb (0 - 0) (-1)) with true.
  - apply gainLoop_empty_keeps; auto.
  - unfold gtb. destruct (Rgt_dec (0 - 0) (-1)); [reflexivity|lra].
Qed.

Lemma firstEligible_In class rest c :
  firstEligible rest class = Some c -> In c rest.
Proof.
  induction rest as [|x rest IH]; simpl; [discriminate|].
  destruct (String.eqb x class || String.eqb x "")%bool; auto.
  intros H; inversion H; auto.
Qed.

Lemma Learn_empty class c fuel w :
  In class cols -> firstEligible cols class = Some c ->
  exists w', Learn (S fuel) v class w = Ret (mkDecision c [], w').
Proof.
  intros Hc Hfirst. cbn [Learn]. unfold bind at 1.
  rewrite TotalEntropy_empty by assumption.
  unfold bind at 1. unfold lift. rewrite Hcols.
  destruct (gainLoop_empty_first class (done_ w) cols c Hc (incl_refl _) Hfirst)
    as [w1 E].
  unfold bind at 1. rewrite E. cbn [snd].
  unfold bind at 1. rewrite Likelihood_empty.
  2:{ eapply firstEligible_In; eauto. }
  cbn [caseLoop]. unfold bind, ret. eexists. reflexivity.
Qed.

End EmptyView.

(** C3, as stated, fails: [Learn] has no guard for a view without rows; on
    a table that has only its header it returns a decision on the first
    column with no case. *)
Lemma C3_empty_view_counterexample :
  ~ Learn_rejects_empty (baseView headerOnly) "play".
Proof.
  intros H.
  destruct (Learn_empty (baseView headerOnly) ["outlook"; "play"]
              eq_refl eq_refl eq_refl "play" "outlook" 0 (mkWorld 1 []))
    as [w' E].
  - simpl. auto.
  - reflexivity.
  - exact (H eq_refl 1 _ _ _ E).
Qed.

(** C3 (amended): on a well-formed view without rows whose columns hold the
    class and a column that is neither the class nor hidden, [Learn] raises
    no error and divides nothing: every likelihood is the empty slice, every
    entropy is 0, and the result is a decision on the first such column with
    no case. *)
Theorem C3_empty_view_gives_a_decision_without_cases
    (v : View) (cols : list string) (class c : string) (fuel : nat) (w : World) :
  wellFormed v = true ->
  Columns v = Ret cols ->
  rows v = [] ->
  In class cols ->
  firstEligible cols class = Some c ->
  (exists w', Likelihood v class w = Ret ([], w'))
  /\ (exists w', TotalEntropy v class w = Ret (0%R, w'))
  /\ (exists w', Learn (S fuel) v class w = Ret (mkDecision c [], w')).
Proof.
  intros Hwf Hcols Hempty Hc Hfirst. split; [|split].
  - eexists. apply (Likelihood_empty v cols Hwf Hcols Hempty). exact Hc.
  - eexists. apply (TotalEntropy_empty v cols Hwf Hcols Hempty). exact Hc.
  - apply (Learn_empty v cols Hwf Hcols Hempty); assumption.
Qed.

Lemma C3_empty_view_witness :
  exists w', Learn 1 (baseView headerOnly) "play" (mkWorld 1 [])
             = Ret (mkDecision "outlook" [], w').
Proof.
  apply (C3_empty_view_gives_a_decision_without_cases
           (baseView headerOnly) ["outlook"; "play"] "play" "outlook" 0
           (mkWorld 1 [])).
  - reflexivity.
  - reflexivity.
  - reflexivity.
  - simpl. auto.
  - reflexivity.
Defined.

(** ** The entropies of a well-formed view *)

Lemma rows_select p col val :
  rows (selectView p col val) = filter (hasValue col val) (rows p).
Proof. apply rowsFrom_select. Qed.

Lemma rows_drop p d : rows (dropView p d) = rows p.
Proof. reflexivity. Qed.

Section Entropies.

Variable v : View.
Variable cols : list string.
Hypothesis Hwf : wellFormed v = true.
Hypothesis Hcols : Columns v = Ret cols.

Lemma find_width column i : find cols column = Ret i -> i < width v.
Proof.
  intros Hf. apply find_spec in Hf as (Hi & _).
  destruct (Columns_wellFormed v Hwf) as (cols' & Hc' & Hw).
  rewrite Hcols in Hc'. inversion Hc'; subst. lia.
Qed.

Lemma TotalEntropy_spec class k w :
  find cols class = Ret k ->
  TotalEntropy v class w =
  Ret (entropyOf (map (field k) (rows v)),
       mkWorld (List.length (baseData v)) (tl (order w))).
Proof.
  intros Hf. unfold TotalEntropy, bind.
  rewrite (Likelihood_spec _ _ _ _ _ Hwf Hcols Hf). unfold ret.
  f_equal. f_equal. rewrite fold_left_sumR, Rplus_0_l.
  unfold entropyOf. rewrite length_map.
  rewrite <- (map_map Probability Entropy).
  rewrite <- (map_map (toDistinct _) (fun d => Entropy (Probability d))).
  rewrite (map_map Probability Entropy).
  apply sumR_perm. apply Permutation_map. rewrite sortSlice_perm.
  apply Permutation_map. apply mapRange_perm.
Qed.

End Entropies.

Section Averages.

Variable v : View.
Variable cols : list string.
Hypothesis Hwf : wellFormed v = true.
Hypothesis Hcols : Columns v = Ret cols.

Lemma TotalEntropy_select class a k x w :
  a < width v -> find cols class = Ret k ->
  TotalEntropy (selectView v a x) class w =
  Ret (entropyOf (map (field k) (filter (hasValue a x) (rows v))),
       mkWorld (List.length (baseData v)) (tl (order w))).
Proof.
  intros Ha Hk.
  rewrite (TotalEntropy_spec (selectView v a x) cols) with (k := k); auto.
  - rewrite rows_select. reflexivity.
  - simpl. rewrite Hwf. apply Nat.ltb_lt. exact Ha.
Qed.

Lemma averageLoop_spec attribute class a k :
  find cols attribute = Ret a -> find cols class = Ret k ->
  forall l h w,
  exists w',
    averageLoop v attribute class l h w =
    Ret ((h + sumR (map (fun d =>
                (Probability d
                 * entropyOf (map (field k)
                                (filter (hasValue a (Value d)) (rows v))))%R) l))%R,
         w').
Proof.
  intros Ha Hk. induction l as [|d l IH]; intros h w; simpl.
  - eexists. unfold ret. rewrite Rplus_0_r. reflexivity.
  - unfold bind, lift, Select. rewrite Hcols, Ha.
    rewrite (TotalEntropy_select class a k (Value d));
      eauto using find_width.
    destruct (IH (h + Probability d
                  * entropyOf (map (field k)
                                 (filter (hasValue a (Value d)) (rows v))))%R
                 (mkWorld (List.length (baseData v)) (tl (order w))))
      as [w' E].
    exists w'. rewrite E. f_equal. f_equal. lra.
Qed.

Lemma AverageEntropy_spec attribute class a k w :
  find cols attribute = Ret a -> find cols class = Ret k ->
  exists w',
    AverageEntropy v attribute class w = Ret (averageOf (rows v) a k, w').
Proof.
  intros Ha Hk. unfold AverageEntropy, bind, lift. rewrite Hcols, Hk.
  rewrite (Likelihood_spec _ _ _ _ _ Hwf Hcols Ha).
  match goal with
  | |- context [averageLoop v attribute class ?l ?h ?w0] =>
      destruct (averageLoop_spec attribute class a k Ha Hk l h w0) as [w' E]
  end.
  exists w'. rewrite E. f_equal. f_equal. rewrite Rplus_0_l.
  unfold averageOf.
  rewrite (sumR_perm _ _ (Permutation_map _ (sortSlice_perm _))).
  rewrite map_map.
  apply sumR_perm. apply Permutation_map. apply mapRange_perm.
Qed.

End Averages.

(** ** Hiding a column *)

Lemma find_assign (cols cols' : list string) (c x : string) (idx : nat) :
  find cols c = Ret idx -> assign cols idx "" = Ret cols' ->
  x <> c -> x <> "" ->
  find cols' x = find cols x.
Proof.
  revert idx cols'. induction cols as [|s rest IH]; simpl; intros idx cols';
    [discriminate|].
  destruct (String.eqb_spec s c) as [->|Hsc].
  - intros H; inversion H; subst idx. intros H'; inversion H'; subst cols'.
    intros Hxc Hx. cbn [find].
    destruct (String.eqb_spec "" x); [congruence|].
    destruct (String.eqb_spec c x); [congruence|]. reflexivity.
  - destruct (find rest c) as [j| |] eqn:Ej; try discriminate.
    intros H; inversion H; subst idx.
    destruct (assign rest j "") as [rest'| |] eqn:Ea; try discriminate.
    intros H'; inversion H'; subst cols'. intros Hxc Hx. simpl.
    destruct (String.eqb s x); [reflexivity|].
    rewrite (IH j rest' eq_refl Ea Hxc Hx). reflexivity.
Qed.




(** ** The information gain is not negative *)

Lemma ln_2_pos : (0 < ln 2)%R.
Proof. rewrite <- ln_1. apply ln_increasing; lra. Qed.

Lemma ln_le_sub (t : R) : (0 < t)%R -> (ln t <= t - 1)%R.
Proof.
  intros Ht. pose proof (exp_ineq1_le (ln t)) as H.
  rewrite exp_ln in H by assumption. lra.
Qed.

Lemma ln_quotient (x y : R) :
  (0 < x)%R -> (0 < y)%R -> (ln (x / y) = ln x - ln y)%R.
Proof.
  intros Hx Hy. unfold Rdiv. rewrite ln_mult; auto.
  - rewrite ln_Rinv by assumption. lra.
  - apply Rinv_0_lt_compat. exact Hy.
Qed.

Lemma INR_pos (n : nat) : 1 <= n -> (0 < INR n)%R.
Proof. intros H. apply lt_0_INR. lia. Qed.

(** The term of the entropy for a value seen [m] times in [N] rows. *)
Lemma Entropy_count (m N : nat) :
  1 <= m <= N ->
  (Entropy (INR m / INR N) * (INR N * ln 2)
   = INR m * (ln (INR N) - ln (INR m)))%R.
Proof.
  intros Hm.
  assert (Hm0 : (0 < INR m)%R) by (apply INR_pos; lia).
  assert (HN0 : (0 < INR N)%R) by (apply INR_pos; lia).
  pose proof ln_2_pos as H2.
  unfold Entropy.
  destruct (Req_dec_T (INR m / INR N) 0) as [E0|_].
  { exfalso. assert (0 < INR m / INR N)%R by (apply Rdiv_lt_0_compat; auto). lra. }
  destruct (Req_dec_T (INR m / INR N) 1) as [E1|_].
  - assert (E : INR m = INR N).
    { apply (Rmult_eq_compat_r (INR N)) in E1. field_simplify in E1; lra. }
    rewrite E. lra.
  - unfold log2. rewrite ln_quotient by assumption. field. split; lra.
Qed.

Lemma sumR_scale {A} (f : A -> R) (c : R) (l : list A) :
  (sumR (map f l) * c)%R = sumR (map (fun a => (f a * c)%R) l).
Proof. induction l; simpl; [lra|]. rewrite <- IHl. lra. Qed.

Lemma sumR_map_ext_in {A} (f g : A -> R) (l : list A) :
  (forall a, In a l -> f a = g a) -> sumR (map f l) = sumR (map g l).
Proof. intros H. f_equal. apply map_ext_in. exact H. Qed.

Lemma sumR_le {A} (f g : A -> R) (l : list A) :
  (forall a, In a l -> (f a <= g a)%R) ->
  (sumR (map f l) <= sumR (map g l))%R.
Proof.
  induction l as [|a l IH]; simpl; intros H; [lra|].
  pose proof (H a (or_introl eq_refl)). assert (sumR (map f l) <= sumR (map g l))%R.
  { apply IH. intros; apply H; auto. }
  lra.
Qed.

Lemma sumR_plus {A} (f g : A -> R) (l : list A) :
  sumR (map (fun a => (f a + g a)%R) l) = (sumR (map f l) + sumR (map g l))%R.
Proof. induction l; simpl; [lra|]. rewrite IHl. lra. Qed.

Lemma sumR_const {A} (c : R) (l : list A) :
  sumR (map (fun _ => c) l) = (INR (List.length l) * c)%R.
Proof.
  induction l as [|a l IH]; [simpl; lra|].
  change (List.length (a :: l)) with (S (List.length l)).
  rewrite S_INR. simpl. rewrite IH. lra.
Qed.

(** A sum over the tally, weighted by the counts, is a sum over the rows. *)
Lemma bump_weighted (f : string -> R) m v :
  sumR (map (fun kv => (INR (snd kv) * f (fst kv))%R) (bump m v))
  = (sumR (map (fun kv => (INR (snd kv) * f (fst kv))%R) m) + f v)%R.
Proof.
  unfold sumR. induction m as [|[k n] m IH]; simpl; [lra|].
  destruct (String.eqb_spec k v) as [->|Hne]; cbn [map fold_right fst snd].
  - rewrite S_INR. lra.
  - rewrite IH. lra.
Qed.

Lemma tally_weighted (f : string -> R) l :
  sumR (map (fun kv => (INR (snd kv) * f (fst kv))%R) (tally l))
  = sumR (map f l).
Proof.
  induction l as [|x l IH] using rev_ind; [reflexivity|].
  rewrite tally_snoc, bump_weighted, IH, map_app, sumR_app. simpl. lra.
Qed.

Lemma count_occ_le_length (l : list string) y :
  count_occ string_dec l y <= List.length l.
Proof.
  induction l as [|a l IH]; simpl; auto. destruct (string_dec a y); lia.
Qed.

(** The entropy of a column as a sum over its rows. *)
Lemma entropyOf_rows (l : list string) :
  (entropyOf l * (INR (List.length l) * ln 2))%R
  = sumR (map (fun y => (ln (INR (List.length l))
                         - ln (INR (count_occ string_dec l y)))%R) l).
Proof.
  unfold entropyOf. rewrite sumR_scale.
  rewrite <- (tally_weighted
               (fun y => (ln (INR (List.length l))
                          - ln (INR (count_occ string_dec l y)))%R) l).
  apply sumR_map_ext_in. intros [y m] Hin. apply tally_In in Hin as [Hin ->].
  unfold toDistinct. cbn [Probability fst snd]. apply Entropy_count.
  split; [|apply count_occ_le_length].
  apply (count_occ_In string_dec) in Hin. lia.
Qed.

Lemma NoDup_count_sum (l K : list string) :
  NoDup K ->
  list_sum (map (count_occ string_dec l) K) <= List.length l.
Proof.
  intros HK. induction l as [|a l IH]; simpl.
  - clear HK. induction K; simpl; lia.
  - assert (E : list_sum (map (fun y => if string_dec a y
                                        then S (count_occ string_dec l y)
                                        else count_occ string_dec l y) K)
                = list_sum (map (count_occ string_dec l) K)
                  + count_occ string_dec K a).
    { clear. induction K as [|k K IHK]; simpl; auto.
      rewrite IHK. destruct (string_dec a k) as [->|Hne].
      - destruct (string_dec k k); [lia|congruence].
      - destruct (string_dec k a); [congruence|lia]. }
    rewrite E. pose proof (proj1 (NoDup_count_occ string_dec K) HK a). lia.
Qed.

Lemma sumR_INR {A} (f : A -> nat) (l : list A) :
  sumR (map (fun a => INR (f a)) l) = INR (list_sum (map f l)).
Proof.
  induction l as [|a l IH]; simpl; auto. rewrite plus_INR, <- IH. reflexivity.
Qed.

(** Gibbs' inequality on counts: the rows [l'] are cheaper to describe with
    their own frequencies than with the frequencies of [l]. *)
Lemma gibbs (l' l : list string) :
  incl l' l ->
  (sumR (map (fun y => ln (INR (List.length l'))
                       - ln (INR (count_occ string_dec l' y))) l')
   <= sumR (map (fun y => ln (INR (List.length l))
                          - ln (INR (count_occ string_dec l y))) l'))%R.
Proof.
  intros Hincl.
  destruct l' as [|y0 l0] eqn:El'; [simpl; lra|]. rewrite <- El' in *.
  assert (Hn' : 1 <= List.length l') by (rewrite El'; simpl; lia).
  assert (HN : 1 <= List.length l).
  { assert (In y0 l) by (apply Hincl; rewrite El'; left; auto).
    destruct l; [contradiction|simpl; lia]. }
  clear El' y0 l0.
  set (n' := INR (List.length l')). set (N := INR (List.length l)).
  assert (Hn'0 : (0 < n')%R) by (apply INR_pos; auto).
  assert (HN0 : (0 < N)%R) by (apply INR_pos; auto).
  set (c' := fun y => INR (count_occ string_dec l' y)).
  set (c := fun y => INR (count_occ string_dec l y)).
  assert (Hpos : forall y, In y l' -> (0 < c' y)%R /\ (0 < c y)%R).
  { intros y Hy. split; apply INR_pos.
    - apply (count_occ_In string_dec) in Hy. lia.
    - apply Hincl in Hy. apply (count_occ_In string_dec) in Hy. lia. }
  (* term by term: ln t <= t - 1 *)
  assert (Hterm : forall y, In y l' ->
            (ln n' - ln (c' y)
             <= (ln N - ln (c y)) + (n' / N * (c y / c' y) - 1))%R).
  { intros y Hy. destruct (Hpos y Hy) as [Hc' Hc].
    assert (Ht : (0 < n' / N * (c y / c' y))%R).
    { apply Rmult_lt_0_compat; apply Rdiv_lt_0_compat; auto. }
    pose proof (ln_le_sub _ Ht) as Hle.
    rewrite ln_mult in Hle by (apply Rdiv_lt_0_compat; auto).
    rewrite !ln_quotient in Hle by auto. lra. }
  apply (sumR_le _ _ l') in Hterm. fold c c' in Hterm |- *.
  change (sumR (map (fun y => (ln n' - ln (c' y))%R) l')
          <= sumR (map (fun y => (ln N - ln (c y))%R) l'))%R.
  rewrite (sumR_plus (fun y => (ln N - ln (c y))%R)
                     (fun y => (n' / N * (c y / c' y) - 1)%R)) in Hterm.
  (* the correction adds up to at most 0 *)
  assert (Hsum : (sumR (map (fun y => (c y / c' y)%R) l') <= N)%R).
  { rewrite <- (tally_weighted (fun y => (c y / c' y)%R) l').
    rewrite (sumR_map_ext_in _ (fun kv => c (fst kv)) (tally l')).
    - unfold c.
      rewrite (sumR_INR (fun kv => count_occ string_dec l (fst kv)) (tally l')).
      unfold N. apply le_INR. rewrite <- map_map.
      apply NoDup_count_sum. apply tally_NoDup.
    - intros [y m] Hin. apply tally_In in Hin as [Hin ->]. cbn [fst snd].
      destruct (Hpos y Hin) as [Hc' Hc]. fold (c' y). field. lra. }
  assert (Hcorr : (sumR (map (fun y => (n' / N * (c y / c' y) - 1)%R) l') <= 0)%R).
  { rewrite (sumR_map_ext_in _
               (fun y => (c y / c' y * (n' / N) + -1)%R)) by (intros; lra).
    rewrite (sumR_plus (fun y => (c y / c' y * (n' / N))%R) (fun _ => (-1)%R) l').
    rewrite sumR_const. fold n'.
    rewrite <- (sumR_scale (fun y => (c y / c' y)%R)).
    assert (sumR (map (fun y => (c y / c' y)%R) l') * (n' / N) <= N * (n' / N))%R.
    { apply Rmult_le_compat_r; auto. apply Rlt_le. apply Rdiv_lt_0_compat; auto. }
    replace (N * (n' / N))%R with n' in H by (field; lra). lra. }
  lra.
Qed.

Lemma hasValue_field a x r :
  a < List.length r -> hasValue a x r = String.eqb (field a r) x.
Proof.
  intros Ha. unfold hasValue, field.
  destruct (nth_error r a) as [y|] eqn:E.
  - rewrite (nth_error_nth _ _ _ E). reflexivity.
  - apply nth_error_None in E. lia.
Qed.

Lemma filter_hasValue_length rs a x :
  Forall (fun r => a < List.length r) rs ->
  List.length (filter (hasValue a x) rs)
  = count_occ string_dec (map (field a) rs) x.
Proof.
  induction 1 as [|r rs Hr _ IH]; simpl; auto.
  rewrite (hasValue_field _ _ _ Hr).
  destruct (String.eqb_spec (field a r) x) as [E|E];
    destruct (string_dec (field a r) x); try congruence; simpl; rewrite IH; auto.
Qed.

Lemma sumR_indicator (K : list string) (v : string) (g : R) :
  NoDup K -> In v K ->
  sumR (map (fun x => if String.eqb v x then g else 0%R) K) = g.
Proof.
  induction 1 as [|k K Hk HK IH]; simpl; [tauto|].
  intros [->|Hin].
  - rewrite String.eqb_refl.
    rewrite (sumR_map_ext_in _ (fun _ => 0%R)).
    + rewrite sumR_const. lra.
    + intros x Hx. destruct (String.eqb_spec v x); [congruence|reflexivity].
  - destruct (String.eqb_spec v k); [congruence|]. rewrite IH by assumption. lra.
Qed.

(** The rows split by the value of a column. *)
Lemma sumR_partition (G : row -> R) (rs : list row) (a : nat) (K : list string) :
  Forall (fun r => a < List.length r) rs ->
  NoDup K -> (forall r, In r rs -> In (field a r) K) ->
  sumR (map (fun x => sumR (map G (filter (hasValue a x) rs))) K)
  = sumR (map G rs).
Proof.
  intros Hw HK. induction Hw as [|r rs Hr _ IH]; intros Hin.
  - simpl. rewrite sumR_const. lra.
  - rewrite (sumR_map_ext_in _
      (fun x => ((if String.eqb (field a r) x then G r else 0)
                 + sumR (map G (filter (hasValue a x) rs)))%R)).
    + rewrite sumR_plus. rewrite IH.
      2:{ intros r' Hr'. apply Hin. right. exact Hr'. }
      rewrite sumR_indicator; auto.
      apply Hin. left. reflexivity.
    + intros x _. cbn [filter]. rewrite (hasValue_field _ _ _ Hr).
      destruct (String.eqb (field a r) x); simpl; lra.
Qed.

(** The average entropy of the class over the values of a column is at most
    the entropy of the class. *)
Lemma averageOf_le_entropyOf (rs : list row) (a k : nat) :
  Forall (fun r => a < List.length r) rs ->
  (averageOf rs a k <= entropyOf (map (field k) rs))%R.
Proof.
  intros Hw. destruct rs as [|r0 rs0] eqn:Ers.
  { unfold averageOf, entropyOf. simpl. lra. }
  rewrite <- Ers in *.
  assert (HN : 1 <= List.length rs) by (rewrite Ers; simpl; lia).
  clear Ers r0 rs0.
  assert (Htotal :
    (entropyOf (map (field k) rs) * (INR (List.length rs) * ln 2))%R
    = sumR (map (fun r : row =>
                   (ln (INR (List.length rs))
                    - ln (INR (count_occ string_dec (map (field k) rs)
                                 (field k r))))%R) rs)).
  { pose proof (entropyOf_rows (map (field k) rs)) as E.
    rewrite length_map, map_map in E. exact E. }
  set (N := INR (List.length rs)) in *.
  assert (HN0 : (0 < N)%R) by (apply INR_pos; auto).
  pose proof ln_2_pos as H2.
  set (Y := map (field k) rs) in *.
  set (G := fun r : row =>
              (ln N - ln (INR (count_occ string_dec Y (field k r))))%R) in *.
  assert (Havg : (averageOf rs a k * (N * ln 2) <= sumR (map G rs))%R).
  { unfold averageOf. rewrite sumR_scale.
    rewrite <- (sumR_partition G rs a (map fst (tally (map (field a) rs)))); auto.
    2:{ apply tally_NoDup. }
    2:{ intros r Hr. apply tally_keys. apply in_map. exact Hr. }
    rewrite map_map. apply sumR_le. intros [x n] Hin.
    apply tally_In in Hin as [Hin ->]. unfold toDistinct. cbn [Probability fst snd].
    rewrite <- (filter_hasValue_length rs a x Hw).
    set (rx := filter (hasValue a x) rs).
    pose proof (entropyOf_rows (map (field k) rx)) as E. rewrite length_map in E.
    replace (INR (List.length rx) / INR (List.length rs)
             * entropyOf (map (field k) rx) * (N * ln 2))%R
      with (entropyOf (map (field k) rx) * (INR (List.length rx) * ln 2))%R
      by (fold N; field; lra).
    rewrite E.
    pose proof (gibbs (map (field k) rx) Y) as Hg.
    rewrite !length_map in Hg. unfold Y in Hg at 2. rewrite length_map in Hg.
    fold N in Hg. unfold G. rewrite <- (map_map (field k)
      (fun y => (ln N - ln (INR (count_occ string_dec Y y)))%R) rx).
    apply Hg. intros y Hy. unfold Y. apply in_map_iff in Hy as (r & <- & Hr).
    apply in_map. unfold rx in Hr. apply filter_In in Hr. tauto. }
  rewrite <- Htotal in Havg.
  apply Rmult_le_reg_r with (r := (N * ln 2)%R); auto.
  apply Rmult_lt_0_compat; auto.
Qed.

(** ** The column with the maximum gain *)

Lemma scan_spec (g : string -> R) (class : string) (cs : list string) :
  forall g0 x0,
    (scan g class cs (g0, x0) = (g0, x0)
     /\ forall x, In x cs -> eligible class x = true -> (g x <= g0)%R)
    \/ (exists pre post,
          cs = pre ++ snd (scan g class cs (g0, x0)) :: post
          /\ eligible class (snd (scan g class cs (g0, x0))) = true
          /\ fst (scan g class cs (g0, x0)) = g (snd (scan g class cs (g0, x0)))
          /\ (g0 < g (snd (scan g class cs (g0, x0))))%R
          /\ (forall x, In x pre -> eligible class x = true ->
                (g x < g (snd (scan g class cs (g0, x0))))%R)
          /\ (forall x, In x post -> eligible class x = true ->
                (g x <= g (snd (scan g class cs (g0, x0))))%R)).
Proof.
  induction cs as [|x cs IH]; intros g0 x0.
  - left. simpl. tauto.
  - cbn [scan]. destruct (eligible class x) eqn:El.
    + cbn [fst]. unfold gtb. destruct (Rgt_dec (g x) g0) as [Hgt|Hle].
      * right. destruct (IH (g x) x) as [[E Hall]|(pre & post & E & He & Hf & Hg & Hpre & Hpost)].
        -- rewrite E. cbn [fst snd]. exists [], cs. repeat split; auto.
           intros y [].
        -- exists (x :: pre), post. split; [simpl; rewrite <- E; reflexivity|].
           repeat split; auto; try lra.
           intros y [<-|Hy] Hel; auto.
      * destruct (IH g0 x0) as [[E Hall]|(pre & post & E & He & Hf & Hg & Hpre & Hpost)].
        -- left. split; auto. intros y [<-|Hy] Hel; auto. lra.
        -- right. exists (x :: pre), post. split; [simpl; rewrite <- E; reflexivity|].
           repeat split; auto.
           intros y [<-|Hy] Hel; auto. lra.
    + destruct (IH g0 x0) as [[E Hall]|(pre & post & E & He & Hf & Hg & Hpre & Hpost)].
      * left. split; auto. intros y [<-|Hy] Hel; auto. congruence.
      * right. exists (x :: pre), post. split; [simpl; rewrite <- E; reflexivity|].
        repeat split; auto.
        intros y [<-|Hy] Hel; auto. congruence.
Qed.

Lemma firstEligible_eligible cols class c :
  firstEligible cols class = Some c -> In c cols /\ eligible class c = true.
Proof.
  unfold eligible. induction cols as [|x cols IH]; simpl; [discriminate|].
  destruct (String.eqb x class || String.eqb x "")%bool eqn:E.
  - intros H. destruct (IH H). auto.
  - intros H; inversion H; subst. rewrite E. auto.
Qed.

Section Gains.

Variable v : View.
Variable cols : list string.
Variable class : string.
Variable k : nat.
Hypothesis Hwf : wellFormed v = true.
Hypothesis Hcols : Columns v = Ret cols.
Hypothesis Hclass : find cols class = Ret k.

Lemma rows_wide a : a < width v -> Forall (fun r => a < List.length r) (rows v).
Proof.
  intros Ha. apply Forall_forall. intros r Hr.
  rewrite (rowsFrom_width v 1 r); auto.
Qed.

Lemma gainOf_nonneg x : In x cols -> (0 <= gainOf v cols class x)%R.
Proof.
  intros Hx. destruct (find_In _ _ Hx) as [a Ha].
  unfold gainOf. rewrite Ha, Hclass.
  pose proof (averageOf_le_entropyOf (rows v) a k
                (rows_wide a (find_width v cols Hwf Hcols x a Ha))).
  lra.
Qed.


Lemma gainLoop_scan cs :
  incl cs cols ->
  forall best w,
  exists w',
    gainLoop v class (entropyOf (map (field k) (rows v))) cs best w
    = Ret (scan (gainOf v cols class) class cs best, w').
Proof.
  induction cs as [|x cs IH]; intros Hincl best w.
  - eexists. reflexivity.
  - assert (Hcs : incl cs cols) by (intros y Hy; apply Hincl; right; auto).
    cbn [gainLoop scan]. unfold eligible.
    destruct (String.eqb x class || String.eqb x "")%bool; cbn [negb].
    + apply IH; auto.
    + assert (Hx : In x cols) by (apply Hincl; left; auto).
      destruct (find_In _ _ Hx) as [a Ha].
      destruct (AverageEntropy_spec v cols Hwf Hcols x class a k w Ha Hclass)
        as [w1 E].
      unfold bind. rewrite E.
      replace (gainOf v cols class x)
        with (entropyOf (map (field k) (rows v)) - averageOf (rows v) a k)%R
        by (unfold gainOf; rewrite Ha, Hclass; reflexivity).
      destruct (gtb _ _); apply IH; auto.
Qed.

Lemma chosen_firstMaximum c0 :
  firstEligible cols class = Some c0 ->
  firstMaximum (gainOf v cols class) class cols (chosen v cols class).
Proof.
  intros Hfirst. apply firstEligible_eligible in Hfirst as [Hin Hel].
  unfold chosen, firstMaximum.
  destruct (scan_spec (gainOf v cols class) class cols (-1)%R "")
    as [[_ Hall]|(pre & post & E & He & _ & _ & Hpre & Hpost)].
  - specialize (Hall c0 Hin Hel). pose proof (gainOf_nonneg c0 Hin). lra.
  - exists pre, post. auto.
Qed.

(** [Learn] up to the loop over the cases. *)
Lemma Learn_head fuel w :
  exists w1,
    Learn (S fuel) v class w =
    (l <- Likelihood v (chosen v cols class) ;;
     cs <- caseLoop (Learn fuel) v class (chosen v cols class) l ;;
     ret (mkDecision (chosen v cols class) cs))%go w1.
Proof.
  cbn [Learn]. unfold bind at 1.
  rewrite (TotalEntropy_spec v cols Hwf Hcols class k w Hclass).
  unfold bind at 1. unfold lift. rewrite Hcols.
  destruct (gainLoop_scan cols (incl_refl _) ((-1)%R, "")
              (mkWorld (List.length (baseData v)) (tl (order w)))) as [w1 E].
  unfold bind at 1. rewrite E. exists w1. reflexivity.
Qed.

Lemma Learn_column fuel w d w' :
  Learn fuel v class w = Ret (d, w') -> Column d = chosen v cols class.
Proof.
  destruct fuel as [|fuel]; [discriminate|].
  destruct (Learn_head fuel w) as [w1 ->]. unfold bind, ret.
  destruct (Likelihood _ _ _) as [[l w2]| |]; try discriminate.
  destruct (caseLoop _ _ _ _ _ _) as [[cs w3]| |]; try discriminate.
  intros H; inversion H; reflexivity.
Qed.

End Gains.



(** ** Pure partitions *)

Lemma count_occ_pure (l : list string) y :
  pure l -> In y l -> count_occ string_dec l y = List.length l.
Proof.
  intros Hp Hy. induction l as [|a l IH]; [contradiction|].
  simpl. destruct (string_dec a y) as [->|Hne].
  - f_equal. destruct l as [|b l']; [reflexivity|]. apply IH.
    + intros y1 y2 H1 H2. apply Hp; right; auto.
    + assert (b = y) by (apply Hp; [right; left; auto|left; auto]). left. auto.
  - exfalso. apply Hne. apply Hp; [left; auto|exact Hy].
Qed.

Lemma sumR_nonneg {A} (f : A -> R) (l : list A) :
  (forall a, In a l -> (0 <= f a)%R) -> (0 <= sumR (map f l))%R.
Proof.
  induction l as [|b l IH]; simpl; intros H; [lra|].
  assert (0 <= f b)%R by auto.
  assert (0 <= sumR (map f l))%R by (apply IH; intros; auto).
  lra.
Qed.

Lemma sumR_nonneg_zero {A} (f : A -> R) (l : list A) :
  (forall a, In a l -> (0 <= f a)%R) -> sumR (map f l) = 0%R ->
  forall a, In a l -> f a = 0%R.
Proof.
  induction l as [|b l IH]; simpl; [tauto|]. intros Hpos Hsum a Ha.
  assert (0 <= f b)%R by auto.
  assert (0 <= sumR (map f l))%R by (apply sumR_nonneg; intros; auto).
  destruct Ha as [<-|Ha]; [lra|]. apply IH; auto. lra.
Qed.

(** The class entropy is 0 exactly on a pure partition. *)
Lemma entropyOf_zero_iff_pure (l : list string) :
  entropyOf l = 0%R <-> pure l.
Proof.
  destruct l as [|y0 l0] eqn:El.
  { split; [intros _ y1 y2 []|intros _; reflexivity]. }
  rewrite <- El. assert (HN : 1 <= List.length l) by (rewrite El; simpl; lia).
  clear El y0 l0.
  assert (HN0 : (0 < INR (List.length l))%R) by (apply INR_pos; auto).
  pose proof ln_2_pos as H2. pose proof (entropyOf_rows l) as E.
  split.
  - intros H0. rewrite H0, Rmult_0_l in E. symmetry in E.
    assert (Hc : forall y, In y l -> count_occ string_dec l y = List.length l).
    { intros y Hy.
      pose proof (sumR_nonneg_zero
                    (fun y => ln (INR (List.length l))
                              - ln (INR (count_occ string_dec l y)))%R l) as Hz.
      cbv beta in Hz.
      assert (Hc1 : 1 <= count_occ string_dec l y)
        by (apply (count_occ_In string_dec) in Hy; lia).
      pose proof (count_occ_le_length l y) as Hc2.
      assert (Hterm : (ln (INR (List.length l))
                       - ln (INR (count_occ string_dec l y)) = 0)%R).
      { apply Hz; auto. intros a Ha.
        assert (1 <= count_occ string_dec l a)
          by (apply (count_occ_In string_dec) in Ha; lia).
        pose proof (count_occ_le_length l a) as Hle. apply le_INR in Hle.
        destruct (Rle_lt_or_eq_dec _ _ Hle) as [Hlt|Heq].
        - apply ln_increasing in Hlt; [lra|]. apply INR_pos. auto.
        - rewrite Heq. lra. }
      apply INR_eq. apply ln_inv; try (apply INR_pos; auto). lra. }
    intros y1 y2 H1 H2'. pose proof (Hc y1 H1) as E1.
    destruct (string_dec y1 y2) as [|Hne]; auto. exfalso.
    assert (count_occ string_dec l y1 + count_occ string_dec l y2
            <= List.length l).
    { pose proof (NoDup_count_sum l [y1; y2]) as Hs. simpl in Hs.
      rewrite Nat.add_0_r in Hs. apply Hs.
      constructor; [simpl; intuition congruence|]. constructor; [simpl; tauto|constructor]. }
    apply (count_occ_In string_dec) in H2'. lia.
  - intros Hp.
    rewrite (sumR_map_ext_in _ (fun _ => 0%R)) in E.
    + rewrite sumR_const, Rmult_0_r in E.
      apply Rmult_integral in E as [E|E]; auto.
      apply Rmult_integral in E as [E|E]; lra.
    + intros y Hy. rewrite (count_occ_pure l y Hp Hy). lra.
Qed.

(** ** One case of a decision *)

Lemma eqb0_true (a : R) : a = 0%R -> eqb0 a = true.
Proof. intros ->. unfold eqb0. destruct (Req_dec_T 0 0); [reflexivity|lra]. Qed.

Lemma eqb0_false (a : R) : a <> 0%R -> eqb0 a = false.
Proof. intros H. unfold eqb0. destruct (Req_dec_T a 0); [contradiction|reflexivity]. Qed.

Section Cases.

Variable v : View.
Variable cols : list string.
Variable class column : string.
Variable k a : nat.
Hypothesis Hwf : wellFormed v = true.
Hypothesis Hcols : Columns v = Ret cols.
Hypothesis Hclass : find cols class = Ret k.
Hypothesis Hcolumn : find cols column = Ret a.

Lemma wellFormed_select x : wellFormed (selectView v a x) = true.
Proof.
  simpl. rewrite Hwf. apply Nat.ltb_lt.
  apply (find_width v cols Hwf Hcols column a Hcolumn).
Qed.

Lemma wellFormed_drop_select x :
  wellFormed (dropView (selectView v a x) a) = true.
Proof.
  simpl. rewrite Hwf. simpl.
  pose proof (find_width v cols Hwf Hcols column a Hcolumn) as Ha.
  unfold width in *. simpl.
  assert (E : (a <? match baseData v with
                    | [] => 0
                    | header :: _ => List.length header
                    end) = true) by (apply Nat.ltb_lt; exact Ha).
  rewrite E. reflexivity.
Qed.

Lemma learnCase_leaf learn d w :
  entropyOf (map (field k) (rows (selectView v a (Value d)))) = 0%R ->
  rows (selectView v a (Value d)) <> [] ->
  exists w',
    learnCase learn v class column d w =
    Ret (mkCase (Value d)
           (field k (hd [] (rows (selectView v a (Value d))))) None, w').
Proof.
  intros H0 Hne. unfold learnCase.
  unfold bind at 1. unfold lift, Select. rewrite Hcols, Hcolumn.
  unfold bind at 1.
  rewrite (TotalEntropy_select v cols Hwf Hcols class a k (Value d));
    eauto using find_width.
  rewrite rows_select in H0. rewrite (eqb0_true _ H0).
  unfold bind at 1. unfold onCursor at 1. rewrite First_resets. cbn [next order].
  pose proof (wellFormed_select (Value d)) as Hwfs.
  pose proof (rectangular_length _ (wellFormed_base _ Hwf)) as Hlen.
  destruct (Next_steps _ Hwfs 1) as [(r & n' & E & Hn' & Hrows)|[E Hrows]].
  { cbn [baseData]. lia. }
  2:{ exfalso. apply Hne. exact Hrows. }
  unfold bind at 1. unfold onCursor. cbn [next order]. rewrite E.
  cbn [next order].
  unfold bind at 1. unfold lift. cbn [Columns]. rewrite Hcols.
  unfold bind at 1. rewrite Hclass.
  assert (Hr : List.length r = width (selectView v a (Value d))).
  { apply (rowsFrom_width _ 1); auto. rewrite Hrows. left. reflexivity. }
  pose proof (find_width v cols Hwf Hcols class k Hclass) as Hk.
  destruct (nth_error r k) as [cl|] eqn:Ecl.
  2:{ apply nth_error_None in Ecl. unfold width in *. cbn [baseData] in Hr. lia. }
  unfold rows. rewrite Hrows. cbn [hd]. unfold field.
  rewrite (nth_error_nth _ _ _ Ecl). unfold ret. eexists. reflexivity.
Qed.

Lemma learnCase_recurse learn d w :
  entropyOf (map (field k) (rows (selectView v a (Value d)))) <> 0%R ->
  exists w1,
    learnCase learn v class column d w =
    (d' <- learn (dropView (selectView v a (Value d)) a) class ;;
     ret (mkCase (Value d) "" (Some d')))%go w1.
Proof.
  intros H0. unfold learnCase.
  unfold bind at 1. unfold lift, Select. rewrite Hcols, Hcolumn.
  unfold bind at 1.
  rewrite (TotalEntropy_select v cols Hwf Hcols class a k (Value d));
    eauto using find_width.
  rewrite rows_select in H0. rewrite (eqb0_false _ H0).
  unfold bind at 1. unfold Drop. cbn [Columns]. rewrite Hcols, Hcolumn.
  eexists. reflexivity.
Qed.

End Cases.

(** ** The trees of Learn *)

Lemma Likelihood_found (v : View) cols column w l w' :
  Columns v = Ret cols -> Likelihood v column w = Ret (l, w') ->
  exists a, find cols column = Ret a.
Proof.
  intros Hc. unfold Likelihood, bind, lift. rewrite Hc.
  destruct (find cols column) as [a| |]; try discriminate. eauto.
Qed.

Lemma tally_value_has_rows (v : View) (a : nat) (l : list Distinct) :
  wellFormed v = true -> a < width v ->
  Permutation l (map (toDistinct (List.length (rows v)))
                     (tally (map (field a) (rows v)))) ->
  forall d, In d l -> rows (selectView v a (Value d)) <> [].
Proof.
  intros Hwf Ha Hp d Hd.
  apply (Permutation_in _ Hp) in Hd. apply in_map_iff in Hd as ([x n] & Ed & Hin).
  subst d.
  apply tally_In in Hin as [Hin _]. apply in_map_iff in Hin as (r & Hr & Hin).
  cbn [toDistinct Value fst]. rewrite rows_select.
  assert (Hf : In r (filter (hasValue a x) (rows v))).
  { apply filter_In. split; auto. rewrite hasValue_field.
    - rewrite Hr. apply String.eqb_refl.
    - rewrite (rowsFrom_width v 1 r); auto. }
  intros E. rewrite E in Hf. contradiction.
Qed.

Lemma In_assign (cols cols' : list string) (a : nat) (x : string) :
  assign cols a "" = Ret cols' -> In x cols ->
  nth_error cols a <> Some x \/ x = "" -> In x cols'.
Proof.
  revert a cols'. induction cols as [|s cols IH]; intros a cols'; simpl; [tauto|].
  destruct a as [|a].
  - intros H; inversion H; subst. intros [Hs|Hin] [Hne|Hx]; simpl; auto.
    exfalso. apply Hne. rewrite Hs. reflexivity.
  - destruct (assign cols a "") as [rest| |] eqn:E; try discriminate.
    intros H; inversion H; subst. intros [->|Hin] Hor; simpl; auto.
    right. apply (IH a rest E Hin Hor).
Qed.

Lemma chosen_not_class_or_empty (v : View) cols class a :
  find cols (chosen v cols class) = Ret a ->
  chosen v cols class <> class \/ chosen v cols class = "".
Proof.
  intros _. unfold chosen.
  destruct (scan_spec (gainOf v cols class) class cols (-1)%R "")
    as [[E _]|(pre & post & _ & He & _)].
  - right. rewrite E. reflexivity.
  - left. unfold eligible in He. intros E. rewrite E in He.
    rewrite String.eqb_refl in He. discriminate.
Qed.

Lemma caseLoop_Learned (learn : View -> string -> M World Decision)
    (v : View) cols class k a :
  wellFormed v = true -> Columns v = Ret cols ->
  find cols class = Ret k -> find cols (chosen v cols class) = Ret a ->
  (forall x w d' w',
     learn (dropView (selectView v a x) a) class w = Ret (d', w') ->
     Learned class (dropView (selectView v a x) a) d') ->
  forall l, (forall d, In d l -> rows (selectView v a (Value d)) <> []) ->
  forall w cs w',
    caseLoop learn v class (chosen v cols class) l w = Ret (cs, w') ->
    LearnedCases class v a k l cs.
Proof.
  intros Hwf Hcols Hk Ha Hlearn. induction l as [|d l IH]; intros Hrows w cs w'.
  - simpl. unfold ret. intros H; inversion H. constructor.
  - cbn [caseLoop]. unfold bind at 1.
    destruct (Req_dec_T (entropyOf (map (field k)
                (rows (selectView v a (Value d))))) 0) as [E0|E0].
    + destruct (learnCase_leaf v cols class _ k a Hwf Hcols Hk Ha learn d w E0)
        as [w1 E]; [apply Hrows; left; auto|].
      rewrite E. unfold bind at 1.
      destruct (caseLoop _ _ _ _ l w1) as [[cs' w2]| |] eqn:El; try discriminate.
      unfold ret. intros H; inversion H; subst.
      apply LearnedCases_leaf; auto.
      eapply IH; eauto. intros d0 Hd0. apply Hrows. right. exact Hd0.
    + destruct (learnCase_recurse v cols class _ k a Hwf Hcols Hk Ha learn d w E0)
        as [w1 E].
      rewrite E. unfold bind at 1.
      destruct (learn _ class w1) as [[d' w2]| |] eqn:Ed; try discriminate.
      unfold ret at 1. unfold bind at 1.
      destruct (caseLoop _ _ _ _ l w2) as [[cs' w3]| |] eqn:El; try discriminate.
      unfold ret. intros H; inversion H; subst.
      apply LearnedCases_recurse; auto.
      * eapply Hlearn; eauto.
      * eapply IH; eauto. intros d0 Hd0. apply Hrows. right. exact Hd0.
Qed.

(** Every tree [Learn] returns is a learned tree. *)
Lemma Learn_Learned (fuel : nat) :
  forall (v : View) cols class w d w',
    wellFormed v = true -> Columns v = Ret cols -> In class cols ->
    Learn fuel v class w = Ret (d, w') -> Learned class v d.
Proof.
  induction fuel as [|fuel IH]; intros v cols class w d w' Hwf Hcols Hclass;
    [discriminate|].
  destruct (find_In _ _ Hclass) as [k Hk].
  destruct (Learn_head v cols class k Hwf Hcols Hk fuel w) as [w1 ->].
  unfold bind at 1.
  destruct (Likelihood v _ w1) as [[l w2]| |] eqn:El; try discriminate.
  destruct (Likelihood_found _ _ _ _ _ _ Hcols El) as [a Ha].
  destruct (Likelihood_perm _ _ _ _ _ _ _ Hwf Hcols Ha El) as [Hp Hs].
  unfold bind at 1.
  destruct (caseLoop _ _ _ _ l w2) as [[cs w3]| |] eqn:Ec; try discriminate.
  unfold ret. intros H; inversion H; subst.
  apply (Learned_decision class v cols k a l cs); auto.
  apply (caseLoop_Learned (Learn fuel) v cols class k a Hwf Hcols Hk Ha)
    with (w := w2) (w' := w'); auto.
  - intros x w0 d' w0' Hd'.
    pose proof (wellFormed_drop_select v cols _ a Hwf Hcols Ha x) as Hwfd.
    destruct (Columns_wellFormed _ Hwfd) as (cols' & Hc' & _).
    apply (IH _ cols' class w0 d' w0'); auto.
    cbn [Columns] in Hc'. rewrite Hcols in Hc'.
    apply (In_assign cols cols' a class Hc' Hclass).
    pose proof (find_spec _ _ _ Ha) as (_ & Hnth & _). rewrite Hnth.
    destruct (chosen_not_class_or_empty v cols class a Ha) as [Hne|He].
    + left. congruence.
    + destruct (string_dec class "") as [->|Hc0]; [right; reflexivity|].
      left. rewrite He. congruence.
  - apply (tally_value_has_rows v a l Hwf); auto.
    apply (find_width v cols Hwf Hcols _ a Ha).
Qed.

(** ** Consistent rows *)

Lemma consistent_spec (v : View) cols class k :
  consistent v cols class = true -> find cols class = Ret k ->
  consistentRows (rows v) cols class k.
Proof.
  unfold consistent. intros H Hk. rewrite Hk in H.
  intros r1 r2 H1 H2 Hagree.
  rewrite forallb_forall in H. specialize (H r1 H1).
  rewrite forallb_forall in H. specialize (H r2 H2).
  assert (Ha : agree cols class r1 r2 = true).
  { unfold agree. apply forallb_forall. intros j Hj. apply in_seq in Hj.
    destruct (eligible class (nth j cols "")) eqn:El; [|reflexivity].
    simpl. apply String.eqb_eq. apply Hagree; auto. lia. }
  rewrite Ha in H. simpl in H. apply String.eqb_eq. exact H.
Qed.

Lemma consistentRows_incl rs rs' cols class k :
  incl rs' rs -> consistentRows rs cols class k -> consistentRows rs' cols class k.
Proof. intros Hi Hc r1 r2 H1 H2. apply Hc; auto. Qed.

Lemma assign_nth (cols cols' : list string) (a j : nat) :
  assign cols a "" = Ret cols' -> j <> a -> nth j cols' "" = nth j cols "".
Proof.
  intros Ha Hj.
  assert (Hlt : a < List.length cols).
  { clear Hj. revert a cols' Ha. induction cols as [|s cols IH]; intros [|a] cols';
      simpl; try discriminate; try lia.
    destruct (assign cols a "") as [rest| |] eqn:E; try discriminate. intros _.
    specialize (IH a rest E). lia. }
  destruct (assign_spec cols a "" Hlt) as (c' & Hc' & Hl & _ & Ho).
  rewrite Ha in Hc'. inversion Hc'; subst c'.
  specialize (Ho j Hj).
  destruct (nth_error cols j) as [x|] eqn:E.
  - rewrite (nth_error_nth _ _ _ E), (nth_error_nth _ _ _ Ho). reflexivity.
  - rewrite !nth_overflow; auto.
    + apply nth_error_None. exact E.
    + apply nth_error_None. exact Ho.
Qed.

Lemma assign_length {A} (c c' : list A) (i : nat) (x : A) :
  assign c i x = Ret c' -> List.length c' = List.length c /\ i < List.length c.
Proof.
  revert i c'. induction c as [|a c IH]; intros [|i] c'; simpl; try discriminate.
  - intros H; inversion H; subst. simpl. split; lia.
  - destruct (assign c i x) as [rest| |] eqn:E; try discriminate.
    intros H; inversion H; subst. destruct (IH i rest E). simpl. split; lia.
Qed.

Lemma consistentRows_assign rs cols cols' class k a x :
  assign cols a "" = Ret cols' ->
  (forall r, In r rs -> field a r = x) ->
  consistentRows rs cols class k -> consistentRows rs cols' class k.
Proof.
  intros Ha Hx Hc r1 r2 H1 H2 Hagree. apply Hc; auto.
  intros j Hj Hel. destruct (Nat.eq_dec j a) as [->|Hne].
  - rewrite (Hx r1 H1), (Hx r2 H2). reflexivity.
  - apply Hagree.
    + destruct (assign_length _ _ _ _ Ha). lia.
    + rewrite (assign_nth _ _ _ _ Ha Hne). exact Hel.
Qed.

Lemma firstEligible_None cols class :
  firstEligible cols class = None <->
  forall x, In x cols -> eligible class x = false.
Proof.
  unfold eligible. induction cols as [|s cols IH]; simpl.
  - split; auto. intros _ x [].
  - destruct (String.eqb s class || String.eqb s "")%bool eqn:E.
    + rewrite IH. split.
      * intros H x [<-|Hx]; auto. rewrite E. reflexivity.
      * intros H x Hx. apply H. right. exact Hx.
    + split; [discriminate|]. intros H. specialize (H s (or_introl eq_refl)).
      rewrite E in H. discriminate.
Qed.

Lemma no_eligible_pure rs cols class k :
  firstEligible cols class = None -> consistentRows rs cols class k ->
  pure (map (field k) rs).
Proof.
  intros Hnone Hc y1 y2 H1 H2.
  apply in_map_iff in H1 as (r1 & <- & H1). apply in_map_iff in H2 as (r2 & <- & H2).
  apply Hc; auto. intros j Hj Hel.
  rewrite firstEligible_None in Hnone.
  rewrite (Hnone (nth j cols "")) in Hel; [discriminate|].
  apply nth_In. exact Hj.
Qed.

Lemma eligibleCount_assign cols cols' class a c :
  nth_error cols a = Some c -> eligible class c = true ->
  assign cols a "" = Ret cols' ->
  S (eligibleCount cols' class) = eligibleCount cols class.
Proof.
  unfold eligibleCount. revert a cols'.
  induction cols as [|s cols IH]; intros [|a] cols'; simpl; try discriminate.
  - intros H; inversion H; subst. intros He H'; inversion H'; subst. simpl.
    rewrite He. unfold eligible at 1. rewrite String.eqb_refl, orb_true_r. reflexivity.
  - intros Hn He. destruct (assign cols a "") as [rest| |] eqn:E; try discriminate.
    intros H; inversion H; subst. simpl.
    destruct (eligible class s); simpl; rewrite <- (IH a rest Hn He E); reflexivity.
Qed.

Lemma eligibleCount_first cols class c :
  firstEligible cols class = Some c -> 1 <= eligibleCount cols class.
Proof.
  intros H. apply firstEligible_eligible in H as [Hin He].
  unfold eligibleCount.
  assert (In c (filter (eligible class) cols)) by (apply filter_In; auto).
  destruct (filter (eligible class) cols); [contradiction|simpl; lia].
Qed.

Lemma chosen_none (v : View) cols class :
  firstEligible cols class = None -> chosen v cols class = "".
Proof.
  intros H. rewrite firstEligible_None in H. unfold chosen.
  assert (E : forall g cs best,
             (forall x, In x cs -> eligible class x = false) ->
             scan g class cs best = best).
  { intros g. induction cs as [|s cs IH]; intros best Hcs; simpl; auto.
    rewrite (Hcs s (or_introl eq_refl)). apply IH. intros x Hx. apply Hcs. right. auto. }
  rewrite E by assumption. reflexivity.
Qed.

(** ** Learn comes back *)

Lemma find_total (l : list string) (x : string) : find l x <> OutOfFuel.
Proof.
  induction l as [|s l IH]; simpl; [discriminate|].
  destruct (String.eqb s x); [discriminate|].
  destruct (find l x); try discriminate. congruence.
Qed.

Lemma caseLoop_returns (learn : View -> string -> M World Decision)
    (v : View) cols class column k a :
  wellFormed v = true -> Columns v = Ret cols ->
  find cols class = Ret k -> find cols column = Ret a ->
  forall l,
    (forall d, In d l ->
       rows (selectView v a (Value d)) <> []
       /\ (entropyOf (map (field k) (rows (selectView v a (Value d)))) <> 0%R ->
           forall w, exists d' w',
             learn (dropView (selectView v a (Value d)) a) class w = Ret (d', w'))) ->
  forall w, exists cs w', caseLoop learn v class column l w = Ret (cs, w').
Proof.
  intros Hwf Hcols Hk Ha. induction l as [|d l IH]; intros Hl w.
  - simpl. unfold ret. eauto.
  - cbn [caseLoop]. unfold bind at 1.
    destruct (Hl d (or_introl eq_refl)) as [Hrows Hrec].
    assert (Hl' : forall d0, In d0 l ->
       rows (selectView v a (Value d0)) <> []
       /\ (entropyOf (map (field k) (rows (selectView v a (Value d0)))) <> 0%R ->
           forall w, exists d' w',
             learn (dropView (selectView v a (Value d0)) a) class w = Ret (d', w')))
      by (intros d0 Hd0; apply Hl; right; exact Hd0).
    destruct (Req_dec_T (entropyOf (map (field k)
                (rows (selectView v a (Value d))))) 0) as [E0|E0].
    + destruct (learnCase_leaf v cols class column k a Hwf Hcols Hk Ha learn d w
                  E0 Hrows) as [w1 E].
      rewrite E. unfold bind at 1.
      destruct (IH Hl' w1) as (cs & w2 & Ecs). rewrite Ecs. unfold ret. eauto.
    + destruct (learnCase_recurse v cols class column k a Hwf Hcols Hk Ha learn d w
                  E0) as [w1 E].
      rewrite E. unfold bind at 1.
      destruct (Hrec E0 w1) as (d' & w2 & Ed). rewrite Ed.
      unfold ret at 1. unfold bind at 1.
      destruct (IH Hl' w2) as (cs & w3 & Ecs). rewrite Ecs. unfold ret. eauto.
Qed.

Lemma rows_select_field (v : View) a x r :
  wellFormed v = true -> a < width v ->
  In r (rows (selectView v a x)) -> In r (rows v) /\ field a r = x.
Proof.
  intros Hwf Ha Hr. rewrite rows_select in Hr. apply filter_In in Hr as [Hr Hv].
  split; auto. rewrite hasValue_field in Hv.
  - apply String.eqb_eq. exact Hv.
  - rewrite (rowsFrom_width v 1 r); auto.
Qed.

(** Where no column is left to decide on, every sub-view of consistent
    rows is pure. *)
Lemma Learn_no_column (v : View) cols class k fuel w :
  wellFormed v = true -> Columns v = Ret cols ->
  find cols class = Ret k ->
  consistentRows (rows v) cols class k ->
  firstEligible cols class = None ->
  (exists d w', Learn (S fuel) v class w = Ret (d, w'))
  \/ (exists p, Learn (S fuel) v class w = Panic p).
Proof.
  intros Hwf Hcols Hk Hcons Hfirst.
  destruct (Learn_head v cols class k Hwf Hcols Hk fuel w) as [w1 ->].
  rewrite (chosen_none v cols class Hfirst).
  destruct (find cols "") as [a| |] eqn:Ha.
  - left. unfold bind at 1.
    rewrite (Likelihood_spec v "" cols a w1 Hwf Hcols Ha). unfold bind at 1.
    match goal with
    | |- context [caseLoop ?learn v class "" ?l ?w0] =>
        destruct (caseLoop_returns learn v cols class "" k a Hwf Hcols Hk Ha l)
          with (w := w0) as (cs & w3 & Ecs)
    end.
    2:{ rewrite Ecs. unfold bind, ret. eauto. }
    intros d Hd. split.
    + apply (tally_value_has_rows v a _ Hwf
               (find_width v cols Hwf Hcols "" a Ha)
               (Permutation_trans (sortSlice_perm _)
                  (Permutation_map _ (mapRange_perm _ _))) d Hd).
    + intros E0. exfalso. apply E0. apply entropyOf_zero_iff_pure.
      apply (no_eligible_pure _ cols class k Hfirst).
      apply (consistentRows_incl (rows v)); auto.
      intros r Hr. rewrite rows_select in Hr. apply filter_In in Hr. tauto.
  - right. unfold Likelihood, bind, lift. rewrite Hcols, Ha. eauto.
  - exfalso. eapply find_total; eauto.
Qed.

(** With more fuel than there are columns to decide on, [Learn] on
    consistent rows returns a tree; where no column is left to decide on it
    may also stop on the panic of [find]. *)
Lemma Learn_returns (m : nat) :
  forall (v : View) cols class k,
    wellFormed v = true -> Columns v = Ret cols ->
    find cols class = Ret k -> class <> "" ->
    rows v <> [] ->
    consistentRows (rows v) cols class k ->
    eligibleCount cols class <= m ->
    forall fuel, m < fuel ->
    forall w,
      (exists d w', Learn fuel v class w = Ret (d, w'))
      \/ (firstEligible cols class = None
          /\ exists p, Learn fuel v class w = Panic p).
Proof.
  induction m as [|m IH]; intros v cols class k Hwf Hcols Hk Hc0 Hrows Hcons Hm
    fuel Hfuel w; (destruct fuel as [|fuel]; [lia|]);
    destruct (firstEligible cols class) as [c0|] eqn:Hfirst.
  1:{ apply eligibleCount_first in Hfirst. lia. }
  1,3: destruct (Learn_no_column v cols class k fuel w Hwf Hcols Hk Hcons Hfirst)
         as [H|H]; [left; exact H|right; split; [reflexivity|exact H]].
  (* a column to decide on *)
  left. destruct (Learn_head v cols class k Hwf Hcols Hk fuel w) as [w1 ->].
  pose proof (chosen_firstMaximum v cols class k Hwf Hcols Hk c0 Hfirst)
    as (pre & post & Epre & Hel & _).
  assert (Hin : In (chosen v cols class) cols)
    by (rewrite Epre at 2; apply in_or_app; right; left; reflexivity).
  destruct (find_In _ _ Hin) as [a Ha].
  pose proof (find_width v cols Hwf Hcols _ a Ha) as Haw.
  unfold bind at 1.
  rewrite (Likelihood_spec v _ cols a w1 Hwf Hcols Ha). unfold bind at 1.
  match goal with
  | |- context [caseLoop ?learn v class ?c ?l ?w0] =>
      destruct (caseLoop_returns learn v cols class c k a Hwf Hcols Hk Ha l)
        with (w := w0) as (cs & w3 & Ecs)
  end.
  2:{ rewrite Ecs. unfold bind, ret. eauto. }
  intros d Hd. split.
  { apply (tally_value_has_rows v a _ Hwf Haw
             (Permutation_trans (sortSlice_perm _)
                (Permutation_map _ (mapRange_perm _ _))) d Hd). }
  intros E0 w0.
  pose proof (wellFormed_drop_select v cols _ a Hwf Hcols Ha (Value d)) as Hwfd.
  destruct (Columns_wellFormed _ Hwfd) as (cols' & Hc' & _).
  assert (Hassign : assign cols a "" = Ret cols')
    by (cbn [Columns] in Hc'; rewrite Hcols in Hc'; exact Hc').
  pose proof (find_spec _ _ _ Ha) as (_ & Hnth & _).
  assert (Hne : class <> chosen v cols class).
  { intros E. unfold eligible in Hel. rewrite <- E in Hel.
    rewrite String.eqb_refl in Hel. discriminate. }
  assert (Hk' : find cols' class = Ret k)
    by (rewrite (find_assign _ _ _ _ _ Ha Hassign); auto).
  assert (Hcons' : consistentRows (rows (dropView (selectView v a (Value d)) a))
                     cols' class k).
  { rewrite rows_drop.
    apply (consistentRows_assign _ cols cols' class k a (Value d) Hassign).
    - intros r Hr. apply (rows_select_field v a (Value d) r Hwf Haw Hr).
    - apply (consistentRows_incl (rows v)); auto.
      intros r Hr. apply (rows_select_field v a (Value d) r Hwf Haw Hr). }
  assert (Hcount : eligibleCount cols' class <= m).
  { pose proof (eligibleCount_assign cols cols' class a _ Hnth Hel Hassign). lia. }
  assert (Hrows' : rows (dropView (selectView v a (Value d)) a) <> []).
  { rewrite rows_drop.
    apply (tally_value_has_rows v a _ Hwf Haw
             (Permutation_trans (sortSlice_perm _)
                (Permutation_map _ (mapRange_perm _ _))) d Hd). }
  destruct (IH _ cols' class k Hwfd Hc' Hk' Hc0 Hrows' Hcons' Hcount fuel
              ltac:(lia) w0) as [Hret|[Hnone _]]; [exact Hret|].
  exfalso. apply E0. apply entropyOf_zero_iff_pure.
  apply (no_eligible_pure _ cols' class k Hnone). rewrite rows_drop in Hcons'.
  exact Hcons'.
Qed.



(** ** Serialization *)

Lemma unmarshal_marshal :
  (forall d, validTree d = true -> unmarshalDecision (marshalDecision d) = d)
  /\ (forall c, validCase c = true -> unmarshalCase (marshalCase c) = c).
Proof.
  assert (HD : forall d, validTree d = true ->
                 unmarshalDecision (marshalDecision d) = d).
  { fix HD 1. intros [column cases]. cbn [validTree marshalDecision unmarshalDecision].
    intros H. apply andb_prop in H as [Hcol Hcases].
    apply String.eqb_eq in Hcol. cbn [orEmpty]. rewrite Hcol. f_equal.
    destruct cases as [|c0 cases0]; [reflexivity|].
    set (cases := c0 :: cases0) in *. clearbody cases. clear c0 cases0.
    rewrite map_map.
    induction cases as [|c cases IH]; [reflexivity|].
    cbn [forallb] in Hcases. apply andb_prop in Hcases as [Hc Hrest].
    cbn [map]. rewrite (IH Hrest). f_equal.
    destruct c as [[value class dec]|]; [|reflexivity].
    cbn [validCase] in Hc. apply andb_prop in Hc as [Hc Hdec].
    apply andb_prop in Hc as [Hv Hcl].
    apply String.eqb_eq in Hv. apply String.eqb_eq in Hcl.
    cbn [marshalCase unmarshalCase orEmpty]. rewrite Hv, Hcl.
    destruct dec as [d'|]; [|reflexivity].
    rewrite (HD d' Hdec). reflexivity. }
  split; [exact HD|].
  intros [value class dec]. cbn [validCase]. intros Hc.
  apply andb_prop in Hc as [Hc Hdec]. apply andb_prop in Hc as [Hv Hcl].
  apply String.eqb_eq in Hv. apply String.eqb_eq in Hcl.
  cbn [marshalCase unmarshalCase orEmpty]. rewrite Hv, Hcl.
  destruct dec as [d'|]; [|reflexivity]. rewrite (HD d' Hdec). reflexivity.
Qed.

Lemma roundTrips_column (d : Decision) :
  roundTrips d -> toValidUTF8 (Column d) = Column d.
Proof.
  intros H. specialize (H false). destruct d as [column cases].
  cbn in H. injection H as Hc _. simpl. exact Hc.
Qed.

Lemma field_valid (r : row) (i : nat) :
  forallb validUTF8 r = true -> validUTF8 (field i r) = true.
Proof.
  intros H. unfold field. destruct (nth_in_or_default i r "") as [Hin|E].
  - rewrite forallb_forall in H. auto.
  - rewrite E. reflexivity.
Qed.

Lemma rows_valid (v : View) (r : row) :
  validTable (baseData v) = true -> In r (rows v) -> forallb validUTF8 r = true.
Proof.
  unfold validTable, rows, rowsFrom. intros H Hr.
  apply filter_In in Hr as [Hr _].
  rewrite forallb_forall in H. apply H.
  rewrite <- (firstn_skipn 1 (baseData v)). apply in_or_app. right. exact Hr.
Qed.

Lemma assign_In {A} (c c' : list A) (i : nat) (x y : A) :
  assign c i x = Ret c' -> In y c' -> y = x \/ In y c.
Proof.
  revert i c'. induction c as [|a c IH]; intros [|i] c'; simpl; try discriminate.
  - intros H; inversion H; subst. simpl. intros [<-|Hy]; auto.
  - destruct (assign c i x) as [rest| |] eqn:E; try discriminate.
    intros H; inversion H; subst. simpl. intros [<-|Hy]; auto.
    destruct (IH i rest E Hy); auto.
Qed.

Lemma Columns_valid (v : View) cols :
  validTable (baseData v) = true -> Columns v = Ret cols ->
  forallb validUTF8 cols = true.
Proof.
  revert cols. induction v as [data|p IH col val|p IH d]; simpl; intros cols Hv.
  - destruct data as [|header rest]; [discriminate|].
    intros H; inversion H; subst. unfold validTable in Hv. simpl in Hv.
    apply andb_prop in Hv. tauto.
  - auto.
  - destruct (Columns p) as [c| |]; try discriminate. intros Ha.
    apply forallb_forall. intros x Hx.
    destruct (assign_In _ _ _ _ _ Ha Hx) as [E|Hin]; [rewrite E; reflexivity|].
    specialize (IH c Hv eq_refl). rewrite forallb_forall in IH. auto.
Qed.

(** The names, values and classes of a learned tree are fields of the
    table, or empty. *)
Lemma Learned_valid (class : string) (v : View) (d : Decision) :
  Learned class v d -> validTable (baseData v) = true -> validTree d = true.
Proof.
  intros HL.
  apply (Learned_minimal class
    (fun v d => validTable (baseData v) = true -> validTree d = true)
    (fun v a k l cs =>
       validTable (baseData v) = true ->
       (forall d, In d l -> validUTF8 (Value d) = true) ->
       forallb (fun c => match c with
                         | None => true
                         | Some c' => validCase c'
                         end) cs = true)); auto; clear v d HL.
  - intros v cols k a l cs Hcols Hk Ha Hp Hs _ IH Hv. cbn [validTree].
    apply andb_true_intro. split.
    + pose proof (Columns_valid v cols Hv Hcols) as Hc.
      rewrite forallb_forall in Hc. apply Hc.
      apply find_spec in Ha as (_ & Hn & _). eapply nth_error_In; eauto.
    + apply IH; auto. intros d Hd. apply (Permutation_in _ Hp) in Hd.
      apply in_map_iff in Hd as ([x n] & Ed & Hin). subst d.
      apply tally_In in Hin as [Hin _]. apply in_map_iff in Hin as (r & Hr & Hin).
      cbn [toDistinct Value fst]. rewrite <- Hr.
      apply field_valid. apply (rows_valid v); auto.
  - intros v a k d l cs _ _ IH Hv Hl. cbn [forallb validCase].
    rewrite (Hl d (or_introl eq_refl)). rewrite IH; auto.
    2:{ intros d0 Hd0. apply Hl. right. exact Hd0. }
    rewrite !andb_true_r. cbn [andb]. apply field_valid.
    destruct (rows (selectView v a (Value d))) as [|r rs] eqn:Er; [reflexivity|].
    apply (rows_valid (selectView v a (Value d))); auto.
    rewrite Er. left. reflexivity.
  - intros v a k d d' l cs _ _ IHd _ IH Hv Hl. cbn [forallb validCase].
    rewrite (Hl d (or_introl eq_refl)). rewrite IH; auto.
    2:{ intros d0 Hd0. apply Hl. right. exact Hd0. }
    rewrite (IHd Hv). reflexivity.
Qed.

(** C8, as stated, fails: [json.Marshal] coerces strings to valid UTF-8.  The
    tree learned from a table whose first column has the byte FF for a name
    decides on that column, and comes back from the round trip deciding on a
    column named U+FFFD. *)
Lemma C8_invalid_utf8_counterexample :
  ~ learned_trees_round_trip (baseView latin1) "play".
Proof.
  intros H.
  set (cols := [String (ascii_of_nat 255) EmptyString; "play"]).
  assert (Hwf : wellFormed (baseView latin1) = true) by reflexivity.
  assert (Hcols : Columns (baseView latin1) = Ret cols) by reflexivity.
  assert (Hk : find cols "play" = Ret 1) by reflexivity.
  destruct (Learn_returns 1 (baseView latin1) cols "play" 1 Hwf Hcols Hk)
    with (fuel := 2) (w := mkWorld 1 []) as [(d & w' & E)|[Hnone _]].
  - discriminate.
  - vm_compute. discriminate.
  - apply (consistent_spec (baseView latin1) cols "play" 1); reflexivity.
  - vm_compute. lia.
  - lia.
  - pose proof (roundTrips_column d (H _ _ _ _ E)) as Hrt.
    rewrite (Learn_column _ cols "play" 1 Hwf Hcols Hk _ _ _ _ E) in Hrt.
    destruct (chosen_firstMaximum (baseView latin1) cols "play" 1 Hwf Hcols Hk
                (String (ascii_of_nat 255) EmptyString) eq_refl)
      as (pre & post & Epre & Hel & _).
    assert (Hin : In (chosen (baseView latin1) cols "play") cols)
      by (rewrite Epre at 2; apply in_or_app; right; left; reflexivity).
    destruct Hin as [Hc|[Hc|[]]]; rewrite <- Hc in *.
    + vm_compute in Hrt. discriminate Hrt.
    + vm_compute in Hel. discriminate Hel.
  - vm_compute in Hnone. discriminate Hnone.
Qed.

(** C8 (amended): for every tree that [Learn] returns on a well-formed
    view of a table whose fields are all valid UTF-8, [ToJSON] raises no error
    and [FromJSON] of its bytes gives the same tree back, with the same column
    at every decision, the same cases in the same order and the same leaves,
    so that the tree read back classifies every row of every table as the
    tree itself does. *)
Theorem C8_trees_learned_from_utf8_tables_round_trip
    (v : View) (cols : list string) (class : string)
    (fuel : nat) (w w' : World) (d : Decision) :
  wellFormed v = true ->
  Columns v = Ret cols ->
  In class cols ->
  validTable (baseData v) = true ->
  Learn fuel v class w = Ret (d, w') ->
  forall indent,
    snd (ToJSON (Some d) indent) = None
    /\ FromJSON (fst (ToJSON (Some d) indent)) = (Some d, None)
    /\ (forall data at_,
          decide (fst (FromJSON (fst (ToJSON (Some d) indent)))) data at_
          = decide (Some d) data at_)
    /\ (forall data,
          Decide (fst (FromJSON (fst (ToJSON (Some d) indent)))) data
          = Decide (Some d) data).
Proof.
  intros Hwf Hcols Hclass Hv HL indent.
  pose proof (Learned_valid class v d
                (Learn_Learned fuel v cols class w d w' Hwf Hcols Hclass HL) Hv)
    as Hd.
  assert (E : FromJSON (fst (ToJSON (Some d) indent)) = (Some d, None)).
  { destruct indent; cbn; rewrite (proj1 unmarshal_marshal d Hd); reflexivity. }
  split; [destruct indent; reflexivity|].
  split; [exact E|]. rewrite E. split; reflexivity.
Qed.

(** The trees learned from the weather table round-trip. *)
Lemma C8_round_trip_witness :
  exists d w',
    Learn 5 (baseView weather) "play" (mkWorld 1 []) = Ret (d, w')
    /\ FromJSON (fst (ToJSON (Some d) true)) = (Some d, None).
Proof.
  set (cols := ["outlook"; "temperature"; "humidity"; "wind"; "play"]).
  assert (Hwf : wellFormed (baseView weather) = true) by reflexivity.
  assert (Hcols : Columns (baseView weather) = Ret cols) by reflexivity.
  assert (Hk : find cols "play" = Ret 4) by reflexivity.
  assert (Hclass : In "play" cols) by (simpl; auto 6).
  destruct (Learn_returns 4 (baseView weather) cols "play" 4 Hwf Hcols Hk)
    with (fuel := 5) (w := mkWorld 1 []) as [(d & w' & E)|[Hnone _]].
  - discriminate.
  - vm_compute. discriminate.
  - apply (consistent_spec (baseView weather) cols "play" 4); vm_compute; reflexivity.
  - vm_compute. lia.
  - lia.
  - exists d, w'. split; [exact E|].
    apply (C8_trees_learned_from_utf8_tables_round_trip
             (baseView weather) cols "play" 5 (mkWorld 1 []) w' d
             Hwf Hcols Hclass eq_refl E true).
  - vm_compute in Hnone. discriminate Hnone.
Defined.

(** ** Trees with a case that is neither a leaf nor a decision *)

(** [FromJSON] accepts every object: a case to which the document gives
    neither a class nor a decision is read as a case with class "" and a nil
    [Decide], on which [decide] panics. *)
Lemma FromJSON_does_not_validate :
  (forall o, FromJSON (jsonObject o) = (Some (unmarshalDecision o), None))
  /\ exists b d,
       FromJSON b = (Some d, None)
       /\ decide (Some d) [ ["outlook"; "play"]; ["sunny"; "yes"] ] 1
          = Panic NilDereference.
Proof.
  split; [reflexivity|].
  exists (jsonObject (jsDecision (Some "outlook")
            (Some [Some (jsCase (Some "sunny") None None)]))).
  eexists. split; reflexivity.
Qed.

(** [Learn] on a table whose class label is the empty string returns a tree
    with such a case, and [decide] panics on the training row itself. *)
Lemma Learn_empty_class_label :
  exists d w',
    Learn 2 (baseView emptyLabel) "play" (mkWorld 1 []) = Ret (d, w')
    /\ d = mkDecision "outlook" [Some (mkCase "sunny" "" None)]
    /\ decide (Some d) emptyLabel 1 = Panic NilDereference.
Proof.
  set (v := baseView emptyLabel). set (cols := ["outlook"; "play"]).
  assert (Hwf : wellFormed v = true) by reflexivity.
  assert (Hcols : Columns v = Ret cols) by reflexivity.
  assert (Hk : find cols "play" = Ret 1) by reflexivity.
  destruct (Learn_returns 1 v cols "play" 1 Hwf Hcols Hk)
    with (fuel := 2) (w := mkWorld 1 []) as [(d & w' & E)|[Hnone _]].
  - discriminate.
  - vm_compute. discriminate.
  - apply (consistent_spec v cols "play" 1); reflexivity.
  - vm_compute. lia.
  - lia.
  - exists d, w'. split; [exact E|].
    assert (Hd : d = mkDecision "outlook" [Some (mkCase "sunny" "" None)]).
    2:{ split; [exact Hd|]. rewrite Hd. reflexivity. }
    assert (Hchosen : chosen v cols "play" = "outlook").
    { destruct (chosen_firstMaximum v cols "play" 1 Hwf Hcols Hk "outlook" eq_refl)
        as (pre & post & Epre & Hel & _).
      assert (Hin : In (chosen v cols "play") cols)
        by (rewrite Epre at 2; apply in_or_app; right; left; reflexivity).
      destruct Hin as [Hc|[Hc|[]]]; [symmetry; exact Hc|].
      rewrite <- Hc in Hel. vm_compute in Hel. discriminate Hel. }
    pose proof (Learn_Learned 2 v cols "play" _ d w' Hwf Hcols
                  (or_intror (or_introl eq_refl)) E) as HL.
    inversion HL as [v0 cols0 k0 a0 l cs Hc0 Hk0 Ha0 Hp Hs Hcases]; subst.
    rewrite Hcols in Hc0. injection Hc0 as <-.
    rewrite Hk in Hk0. injection Hk0 as <-.
    rewrite Hchosen in *. change (find cols "outlook") with (@Ret nat 0) in Ha0.
    injection Ha0 as <-.
    change (map (toDistinct (List.length (rows v))) (tally (map (field 0) (rows v))))
      with [toDistinct 1 ("sunny", 1)] in Hp.
    apply Permutation_sym, Permutation_length_1_inv in Hp. subst l.
    inversion Hcases as [|v1 a1 k1 d1 l1 cs1 H0 Hrest|v1 a1 k1 d1 d' l1 cs1 H0 _ _];
      subst.
    + inversion Hrest; subst. reflexivity.
    + exfalso. apply H0. apply entropyOf_zero_iff_pure.
      intros y1 y2 [<-|[]] [<-|[]]. reflexivity.
  - vm_compute in Hnone. discriminate Hnone.
Qed.

(** ** The tests of the package *)

(** TestViews: the first row of the table, and the four rows of the view
    on overcast. *)
Example TestViews_first_row :
  Next (fst (Read weather)) (snd (Read weather))
  = Ret (Some ["sunny"; "hot"; "high"; "weak"; "no"], 2).
Proof. reflexivity. Qed.

Example TestViews_overcast :
  rows (selectView (baseView weather) 0 "overcast")
  = [ ["overcast"; "hot"; "high"; "weak"; "yes"];
      ["overcast"; "cool"; "normal"; "strong"; "yes"];
      ["overcast"; "mild"; "high"; "strong"; "yes"];
      ["overcast"; "hot"; "normal"; "weak"; "yes"] ].
Proof. reflexivity. Qed.

(** TestEntropy. *)
Example TestEntropy :
  Entropy (1 / 2) = (1 / 2)%R /\ Entropy 0 = 0%R /\ Entropy 1 = 0%R.
Proof.
  unfold Entropy. repeat split.
  - destruct (Req_dec_T (1 / 2) 0); [lra|].
    destruct (Req_dec_T (1 / 2) 1); [lra|].
    unfold log2. rewrite ln_quotient, ln_1 by lra.
    pose proof ln_2_pos. field. lra.
  - destruct (Req_dec_T 0 0); [reflexivity|lra].
  - destruct (Req_dec_T 1 0); [lra|].
    destruct (Req_dec_T 1 1); [reflexivity|lra].
Qed.

(** TestDecide. *)
Example TestDecide :
  Decide (Some testRule)
    [ ["outlook"; "temperature"; "humidity"; "wind"; "play"];
      ["sunny"; "hot"; "high"; "weak"; "no"] ]
  = Ret ["no"].
Proof. reflexivity. Qed.

(** The tallies of the weather table. *)
Example weather_outlook_tally :
  tally (map (field 0) (rows (baseView weather)))
  = [("sunny", 5); ("overcast", 4); ("rain", 5)].
Proof. reflexivity. Qed.

(** * Further properties of the code *)

(** ** find *)

Lemma find_absent (l : list string) (x : string) :
  ~ In x l -> find l x = Panic (NotInSlice x).
Proof.
  induction l as [|s l IH]; simpl; intros H; [reflexivity|].
  destruct (String.eqb_spec s x) as [->|Hne]; [tauto|].
  rewrite IH by tauto. reflexivity.
Qed.

(** X1: [find] returns the index of the first element equal to the string
    when there is one and panics with "not in slice" exactly when there is
    none. *)
Theorem X1_find_first_index_or_panic (slice : list string) (x : string) :
  (forall i, find slice x = Ret i <->
             nth_error slice i = Some x
             /\ forall j, j < i -> nth_error slice j <> Some x)
  /\ (find slice x = Panic (NotInSlice x) <-> ~ In x slice)
  /\ (forall p, find slice x = Panic p -> p = NotInSlice x).
Proof.
  split; [|split].
  - intros i. split.
    + intros H. apply find_spec in H. tauto.
    + intros [Hn Hfirst].
      destruct (find_In slice x) as [i' Hi']; [eapply nth_error_In; eauto|].
      pose proof (find_spec _ _ _ Hi') as (_ & Hn' & Hfirst').
      destruct (Nat.lt_trichotomy i i') as [Hlt|[->|Hgt]]; auto.
      * exfalso. apply (Hfirst' i Hlt Hn).
      * exfalso. apply (Hfirst i' Hgt Hn').
  - split.
    + intros H Hin. destruct (find_In _ _ Hin) as [i Hi]. congruence.
    + apply find_absent.
  - intros p H. destruct (in_dec string_dec x slice) as [Hin|Hnin].
    + destruct (find_In _ _ Hin) as [i Hi]. congruence.
    + rewrite (find_absent _ _ Hnin) in H. congruence.
Qed.

(** ** A pass over a view *)

Lemma pass_rowsFrom (v : View) :
  wellFormed v = true ->
  forall k n,
    1 <= n <= List.length (baseData v) ->
    List.length (baseData v) - n <= k ->
    pass v n (rowsFrom v n) (List.length (baseData v)).
Proof.
  intros Hwf. induction k as [|k IH]; intros n Hn Hk;
    destruct (Next_steps v Hwf n Hn) as [(r & n' & E & Hn' & Hrows)|[E Hrows]];
    rewrite Hrows; try (apply pass_end; exact E); try lia.
  apply (pass_row v n r n'); [exact E|]. apply IH; lia.
Qed.

Lemma pass_unique (v : View) n rs1 n1 :
  pass v n rs1 n1 -> forall rs2 n2, pass v n rs2 n2 -> rs1 = rs2 /\ n1 = n2.
Proof.
  induction 1 as [n n' E|n r n' rs n'' E _ IH]; intros rs2 n2 H2;
    inversion H2 as [m m' E2|m r2 m' rs2' m'' E2 H2']; subst;
    rewrite E in E2; inversion E2; subst; auto.
  destruct (IH _ _ H2') as [-> ->]. auto.
Qed.

Lemma Next_from_zero (v : View) : Next v 0 = Next v 1.
Proof.
  induction v as [data|p IH col val|p IH d]; cbn [Next].
  - reflexivity.
  - cbn [selectLoop]. unfold bind. rewrite IH. reflexivity.
  - unfold bind. rewrite IH. reflexivity.
Qed.

(** X2: after [First], the successive calls of [Next] on a well-formed view
    return, in the order of the data, exactly the data rows that have the
    selected value in the column of every [Select] of the chain, never the
    header, and then nil with the cursor on the end of the data; a [Drop]
    takes no row away.  Every pass after a [First] is therefore the same. *)
Theorem X2_a_pass_yields_the_selected_rows (v : View) (n : nat) :
  wellFormed v = true ->
  First v n = Ret (tt, 1)
  /\ Next v 0 = Next v 1
  /\ pass v 1 (filter (shows v) (tl (baseData v))) (List.length (baseData v))
  /\ (forall rs n', pass v 1 rs n' ->
        rs = filter (shows v) (tl (baseData v))
        /\ n' = List.length (baseData v))
  /\ (forall p col val,
        v = selectView p col val ->
        filter (shows v) (tl (baseData v))
        = filter (hasValue col val) (filter (shows p) (tl (baseData p))))
  /\ (forall p d,
        v = dropView p d ->
        filter (shows v) (tl (baseData v)) = filter (shows p) (tl (baseData p))).
Proof.
  intros Hwf.
  pose proof (rectangular_length _ (wellFormed_base _ Hwf)) as Hlen.
  assert (Hp : pass v 1 (filter (shows v) (tl (baseData v)))
                 (List.length (baseData v))).
  { apply (pass_rowsFrom v Hwf (List.length (baseData v)) 1); lia. }
  split; [apply First_resets|]. split; [apply Next_from_zero|].
  split; [exact Hp|]. split; [|split].
  - intros rs n' H. destruct (pass_unique _ _ _ _ H _ _ Hp). auto.
  - intros p col val ->. apply (rowsFrom_select p col val 1).
  - intros p d ->. reflexivity.
Qed.

Lemma X2_pass_witness :
  pass (selectView (baseView weather) 0 "overcast") 1
    [ ["overcast"; "hot"; "high"; "weak"; "yes"];
      ["overcast"; "cool"; "normal"; "strong"; "yes"];
      ["overcast"; "mild"; "high"; "strong"; "yes"];
      ["overcast"; "hot"; "normal"; "weak"; "yes"] ] 15.
Proof.
  exact (proj1 (proj2 (proj2 (X2_a_pass_yields_the_selected_rows
                         (selectView (baseView weather) 0 "overcast") 7 eq_refl)))).
Defined.

(** ** What the entropy engine does to the cursor *)

Lemma Next_at_end (v : View) :
  wellFormed v = true ->
  Next v (List.length (baseData v)) = Ret (None, List.length (baseData v)).
Proof.
  intros Hwf. pose proof (rectangular_length _ (wellFormed_base _ Hwf)) as Hlen.
  destruct (Next_steps v Hwf (List.length (baseData v)))
    as [(r & n' & _ & Hn' & _)|[E _]]; [lia|lia|exact E].
Qed.

(** X3: [Likelihood] (and with it [TotalEntropy]) reads the view to its
    end and leaves it there: after the call the cursor of the base view is on
    the end of the data, and [Next] on any view of the same chain returns nil
    until [First] is called. *)
Theorem X3_likelihood_leaves_the_view_exhausted
    (v v' : View) (column : string) (w w' : World) (l : list Distinct) :
  wellFormed v = true ->
  wellFormed v' = true -> baseData v' = baseData v ->
  Likelihood v column w = Ret (l, w') ->
  next w' = List.length (baseData v)
  /\ Next v' (next w') = Ret (None, next w')
  /\ (forall h w'', TotalEntropy v column w = Ret (h, w'') -> w'' = w').
Proof.
  intros Hwf Hwf' Hbase HL.
  destruct (Columns_wellFormed v Hwf) as (cols0 & Hc & _).
  destruct (Likelihood_found _ _ _ _ _ _ Hc HL) as [i Hf].
  rewrite (Likelihood_spec _ _ _ _ _ Hwf Hc Hf) in HL.
  inversion HL; subst. cbn [next].
  split; [reflexivity|]. split.
  - rewrite <- Hbase. apply Next_at_end. exact Hwf'.
  - intros h w''. unfold TotalEntropy, bind.
    rewrite (Likelihood_spec _ _ _ _ _ Hwf Hc Hf). unfold ret.
    intros H; inversion H; reflexivity.
Qed.

Lemma X3_exhausted_witness :
  exists l w',
    Likelihood (selectView (baseView weather) 0 "sunny") "play" (mkWorld 1 [])
    = Ret (l, w')
    /\ Next (baseView weather) (next w') = Ret (None, next w').
Proof.
  eexists. eexists. split.
  - apply (Likelihood_spec (selectView (baseView weather) 0 "sunny") "play"
             ["outlook"; "temperature"; "humidity"; "wind"; "play"] 4);
      reflexivity.
  - eapply (X3_likelihood_leaves_the_view_exhausted
              (selectView (baseView weather) 0 "sunny") (baseView weather) "play"
              (mkWorld 1 [])).
    + reflexivity.
    + reflexivity.
    + reflexivity.
    + apply (Likelihood_spec (selectView (baseView weather) 0 "sunny") "play"
               ["outlook"; "temperature"; "humidity"; "wind"; "play"] 4);
        reflexivity.
Defined.

Lemma Likelihood_any_cursor (v : View) (column : string) (n n' : nat) o :
  Likelihood v column (mkWorld n o) = Likelihood v column (mkWorld n' o).
Proof.
  unfold Likelihood, bind, lift.
  destruct (Columns v) as [cols| |]; try reflexivity.
  destruct (find cols column) as [i| |]; try reflexivity.
  unfold onCursor. cbn [next order]. rewrite !First_resets. reflexivity.
Qed.

(** X4: what [Likelihood], [TotalEntropy], [AverageEntropy] and [Learn]
    return does not depend on where the cursor stands when they are called:
    each begins its reading with [First]. *)
Theorem X4_results_do_not_depend_on_the_cursor
    (v : View) (column class : string) (fuel n n' : nat) (o : list nat) :
  Likelihood v column (mkWorld n o) = Likelihood v column (mkWorld n' o)
  /\ TotalEntropy v class (mkWorld n o) = TotalEntropy v class (mkWorld n' o)
  /\ AverageEntropy v column class (mkWorld n o)
     = AverageEntropy v column class (mkWorld n' o)
  /\ Learn fuel v class (mkWorld n o) = Learn fuel v class (mkWorld n' o).
Proof.
  assert (HT : TotalEntropy v class (mkWorld n o)
               = TotalEntropy v class (mkWorld n' o)).
  { unfold TotalEntropy, bind. rewrite (Likelihood_any_cursor v class n n').
    reflexivity. }
  split; [apply Likelihood_any_cursor|]. split; [exact HT|]. split.
  - unfold AverageEntropy, bind, lift.
    destruct (Columns v) as [cols| |]; try reflexivity.
    destruct (find cols class) as [k| |]; try reflexivity.
    rewrite (Likelihood_any_cursor v column n n'). reflexivity.
  - destruct fuel as [|fuel]; [reflexivity|]. cbn [Learn].
    unfold bind at 1 6. rewrite HT. reflexivity.
Qed.

(** ** Hiding a column, again *)

Lemma assign_blank_absent (cols cols' : list string) (c : string) (idx : nat) :
  find cols c = Ret idx -> assign cols idx "" = Ret cols' ->
  c <> "" -> count_occ string_dec cols c = 1 -> ~ In c cols'.
Proof.
  revert idx cols'. induction cols as [|s rest IH]; simpl; intros idx cols';
    [discriminate|].
  destruct (String.eqb_spec s c) as [->|Hsc].
  - intros H; inversion H; subst idx. intros H'; inversion H'; subst cols'.
    intros Hc Hcount. destruct (string_dec c c); [|congruence].
    intros [E|Hin]; [congruence|].
    apply (count_occ_In string_dec) in Hin. lia.
  - destruct (find rest c) as [j| |] eqn:Ej; try discriminate.
    intros H; inversion H; subst idx.
    destruct (assign rest j "") as [rest'| |] eqn:Ea; try discriminate.
    intros H'; inversion H'; subst cols'. intros Hc Hcount.
    destruct (string_dec s c); [congruence|].
    intros [E|Hin]; [congruence|]. apply (IH j rest' eq_refl Ea Hc Hcount Hin).
Qed.

(** X5: [Drop] of a column hides its name and nothing else.  The columns of
    the new view are as many as before, with "" at the index [find] gave and
    every other entry as it was, so every other named column keeps its index;
    and when the dropped name is not empty and occurred once, it is no longer
    found: [Select] and [Drop] of that name on the new view panic with "not in
    slice". *)
Theorem X5_drop_hides_the_name
    (v dv : View) (cols : list string) (c value : string) :
  Columns v = Ret cols ->
  Drop v c = Ret dv ->
  exists idx cols',
    find cols c = Ret idx
    /\ Columns dv = Ret cols'
    /\ List.length cols' = List.length cols
    /\ nth_error cols' idx = Some ""
    /\ (forall j, j <> idx -> nth_error cols' j = nth_error cols j)
    /\ (forall x, x <> c -> x <> "" -> find cols' x = find cols x)
    /\ (c <> "" -> count_occ string_dec cols c = 1 ->
        Select dv c value = Panic (NotInSlice c)
        /\ Drop dv c = Panic (NotInSlice c)).
Proof.
  intros Hc. unfold Drop at 1. rewrite Hc.
  destruct (find cols c) as [idx| |] eqn:Ef; try discriminate.
  intros H; inversion H; subst dv.
  pose proof (find_spec _ _ _ Ef) as (Hidx & _).
  destruct (assign_spec cols idx "" Hidx) as (cols' & Ea & Hl & Hn & Ho).
  exists idx, cols'. cbn [Columns]. rewrite Hc, Ea.
  repeat split; auto.
  - intros x Hx Hx0. apply (find_assign _ _ _ _ _ Ef Ea); auto.
  - unfold Select. cbn [Columns]. rewrite Hc, Ea.
    rewrite (find_absent cols' c); auto.
    apply (assign_blank_absent cols cols' c idx); auto.
  - unfold Drop. cbn [Columns]. rewrite Hc, Ea.
    rewrite (find_absent cols' c); auto.
    apply (assign_blank_absent cols cols' c idx); auto.
Qed.

Lemma X5_drop_witness :
  Select (dropView (baseView weather) 1) "temperature" "hot"
  = Panic (NotInSlice "temperature").
Proof.
  destruct (X5_drop_hides_the_name (baseView weather)
              (dropView (baseView weather) 1)
              ["outlook"; "temperature"; "humidity"; "wind"; "play"]
              "temperature" "hot" eq_refl eq_refl)
    as (idx & cols' & _ & _ & _ & _ & _ & _ & H).
  apply H; [discriminate|reflexivity].
Defined.

(** ** The entries of Likelihood *)

(** X6: the slice [Likelihood] returns on a well-formed view has exactly
    one entry for each distinct value of the column in the rows of the view
    and none for any other value; the probability of the entry is the number
    of rows with the value divided by the number of rows, which is above 0
    and at most 1. *)
Theorem X6_likelihood_has_one_entry_per_distinct_value
    (v : View) (column : string) (cols : list string) (i : nat)
    (w w' : World) (l : list Distinct) :
  wellFormed v = true ->
  Columns v = Ret cols -> find cols column = Ret i ->
  Likelihood v column w = Ret (l, w') ->
  NoDup (map Value l)
  /\ (forall x, In x (map Value l) <-> In x (map (field i) (rows v)))
  /\ (forall d, In d l ->
        Probability d
        = (INR (count_occ string_dec (map (field i) (rows v)) (Value d))
           / INR (List.length (rows v)))%R
        /\ (0 < Probability d <= 1)%R).
Proof.
  intros Hwf Hc Hf HL.
  destruct (Likelihood_perm _ _ _ _ _ _ _ Hwf Hc Hf HL) as [Hp _].
  set (X := map (field i) (rows v)) in *.
  assert (Hvals : Permutation (map Value l) (map fst (tally X))).
  { rewrite (Permutation_map Value Hp), map_map. apply Permutation_refl. }
  split; [|split].
  - apply (Permutation_NoDup (Permutation_sym Hvals)). apply tally_NoDup.
  - intros x. split; intros H.
    + apply (tally_keys X x). apply (Permutation_in _ Hvals). exact H.
    + apply (Permutation_in _ (Permutation_sym Hvals)).
      apply (tally_keys X x). exact H.
  - intros d Hd. apply (Permutation_in _ Hp) in Hd.
    apply in_map_iff in Hd as ([x n] & Ed & Hin). subst d.
    apply tally_In in Hin as [Hin ->]. cbn [toDistinct Value Probability fst snd].
    split; [reflexivity|].
    assert (Hlen : List.length X = List.length (rows v)) by apply length_map.
    pose proof (count_occ_le_length X x) as Hle. rewrite Hlen in Hle.
    assert (H1 : 1 <= count_occ string_dec X x)
      by (apply (count_occ_In string_dec) in Hin; lia).
    assert (Hc0 : (0 < INR (count_occ string_dec X x))%R) by (apply INR_pos; lia).
    assert (HN0 : (0 < INR (List.length (rows v)))%R) by (apply INR_pos; lia).
    split.
    + apply Rdiv_lt_0_compat; assumption.
    + apply le_INR in Hle. apply Rmult_le_reg_r with (r := INR (List.length (rows v)));
        [assumption|]. unfold Rdiv. rewrite Rmult_assoc, Rinv_l; lra.
Qed.

Lemma X6_likelihood_witness :
  exists l w',
    Likelihood (baseView weather) "outlook" (mkWorld 1 []) = Ret (l, w')
    /\ NoDup (map Value l).
Proof.
  eexists. eexists. split.
  - apply (Likelihood_spec (baseView weather) "outlook"
             ["outlook"; "temperature"; "humidity"; "wind"; "play"] 0);
      reflexivity.
  - eapply (X6_likelihood_has_one_entry_per_distinct_value (baseView weather)
              "outlook" ["outlook"; "temperature"; "humidity"; "wind"; "play"] 0
              (mkWorld 1 [])).
    + reflexivity.
    + reflexivity.
    + reflexivity.
    + apply (Likelihood_spec (baseView weather) "outlook"
               ["outlook"; "temperature"; "humidity"; "wind"; "play"] 0);
        reflexivity.
Defined.

(** ** Bounds on the entropies *)







(** ** Batch classification *)

Lemma decideRows_spec d data ats result :
  decideRows d data ats = Ret result <->
  List.length result = List.length ats
  /\ forall j, j < List.length ats ->
       decide d data (nth j ats 0) = Ret (nth j result "").
Proof.
  revert result. induction ats as [|i ats IH]; intros result; simpl.
  - split.
    + intros H; inversion H; subst. split; [reflexivity|]. intros j Hj. lia.
    + intros [Hl _]. destruct result; [reflexivity|discriminate].
  - split.
    + destruct (decide d data i) as [cl| |] eqn:Ei; try discriminate.
      destruct (decideRows d data ats) as [rest| |] eqn:Er; try discriminate.
      intros H; inversion H; subst. destruct (proj1 (IH rest) eq_refl) as [Hl Hn].
      split; [simpl; lia|]. intros [|j] Hj; simpl; auto. apply Hn. lia.
    + intros [Hl Hn]. destruct result as [|cl rest]; [discriminate|].
      rewrite (Hn 0 ltac:(lia)). simpl.
      rewrite (proj2 (IH rest)); [reflexivity|]. split; [simpl in Hl; lia|].
      intros j Hj. apply (Hn (S j)). lia.
Qed.

Lemma decideRows_first_panic d data ats i p pre post :
  ats = pre ++ i :: post ->
  (forall j, In j pre -> exists cl, decide d data j = Ret cl) ->
  decide d data i = Panic p ->
  decideRows d data ats = Panic p.
Proof.
  intros -> Hpre Hp. induction pre as [|j pre IH]; simpl.
  - rewrite Hp. reflexivity.
  - destruct (Hpre j (or_introl eq_refl)) as [cl ->].
    rewrite IH; [reflexivity|]. intros j' Hj'. apply Hpre. right. exact Hj'.
Qed.

(** X8: [Decide] returns one class per record after the header, in the
    order of the records, each the class [decide] returns for that record; it
    returns at all only when [decide] returns for every record, and otherwise
    panics with the panic of the first record on which [decide] panics.  For
    data with no record after the header it returns an empty result whatever
    the tree. *)
Theorem X8_decide_classifies_every_record_in_order
    (d : option Decision) (data : list row) :
  (forall result,
     Decide d data = Ret result <->
     List.length result = List.length data - 1
     /\ forall i, 1 <= i < List.length data ->
          decide d data i = Ret (nth (i - 1) result ""))
  /\ (forall i p,
        1 <= i < List.length data ->
        decide d data i = Panic p ->
        (forall j, 1 <= j < i -> exists cl, decide d data j = Ret cl) ->
        Decide d data = Panic p)
  /\ (List.length data <= 1 -> Decide d data = Ret []).
Proof.
  unfold Decide. split; [|split].
  - intros result. rewrite decideRows_spec, length_seq. split.
    + intros [Hl Hn]. split; [exact Hl|]. intros i Hi.
      specialize (Hn (i - 1) ltac:(lia)). rewrite seq_nth in Hn by lia.
      replace (1 + (i - 1)) with i in Hn by lia. exact Hn.
    + intros [Hl Hn]. split; [exact Hl|]. intros j Hj.
      rewrite seq_nth by lia. specialize (Hn (1 + j) ltac:(lia)).
      replace (1 + j - 1) with j in Hn by lia. exact Hn.
  - intros i p Hi Hp Hbefore.
    apply (decideRows_first_panic d data _ i p (seq 1 (i - 1))
             (seq (S i) (List.length data - 1 - i))); auto.
    + replace (List.length data - 1) with ((i - 1) + S (List.length data - 1 - i))
        at 1 by lia.
      rewrite seq_app. cbn [seq]. replace (1 + (i - 1)) with i by lia. reflexivity.
    + intros j Hj. apply in_seq in Hj. apply Hbefore. lia.
  - intros Hl. replace (List.length data - 1) with 0 by lia. reflexivity.
Qed.

Lemma X8_decide_witness :
  Decide (Some testRule)
    [ ["outlook"; "temperature"; "humidity"; "wind"; "play"];
      ["sunny"; "hot"; "high"; "weak"; "no"];
      ["rain"; "hot"; "high"; "gale"; "no"] ]
  = Panic (NoRule "wind").
Proof.
  apply (proj1 (proj2 (X8_decide_classifies_every_record_in_order
                         (Some testRule) _)) 2 (NoRule "wind")).
  - simpl. lia.
  - reflexivity.
  - intros j Hj. assert (j = 1) by lia. subst j. eexists. reflexivity.
Defined.

(** ** A learned tree fits its training data *)

Lemma find_NoDup (l : list string) (a : nat) (c : string) :
  NoDup l -> nth_error l a = Some c -> find l c = Ret a.
Proof.
  intros Hnd Hn. apply (proj1 (X1_find_first_index_or_panic l c)).
  split; [exact Hn|]. intros j Hj Hn'.
  assert (Ha : a < List.length l) by (apply nth_error_Some; congruence).
  pose proof (proj1 (NoDup_nth_error l) Hnd j a ltac:(lia) ltac:(congruence)).
  lia.
Qed.

Lemma In_rows (v : View) (at_ : nat) (r : row) :
  1 <= at_ -> nth_error (baseData v) at_ = Some r -> shows v r = true ->
  In r (rows v).
Proof.
  intros Hat Hn Hs. unfold rows, rowsFrom. apply filter_In. split; [|exact Hs].
  destruct at_ as [|at_]; [lia|]. destruct (baseData v) as [|h body]; [discriminate|].
  simpl in *. eapply nth_error_In; eauto.
Qed.

Lemma trainable_sub class header (v : View) cols cols' k c a x :
  class <> "" ->
  trainable class header v cols k ->
  find cols c = Ret a -> eligible class c = true ->
  assign cols a "" = Ret cols' ->
  trainable class header (dropView (selectView v a x) a) cols' k.
Proof.
  intros Hc0 (Hwf & Hcols & Hk & Hh & Hnames & Hcons & Hlab) Ha Hel Hassign.
  pose proof (find_width v cols Hwf Hcols c a Ha) as Haw.
  assert (Hcc : class <> c).
  { intros E. unfold eligible in Hel. rewrite <- E, String.eqb_refl in Hel.
    discriminate. }
  assert (Hc1 : c <> "").
  { intros E. unfold eligible in Hel. rewrite E in Hel.
    rewrite orb_true_r in Hel. discriminate. }
  repeat split.
  - apply (wellFormed_drop_select v cols c a Hwf Hcols Ha).
  - cbn [Columns]. rewrite Hcols. exact Hassign.
  - rewrite (find_assign _ _ _ _ _ Ha Hassign); auto.
  - exact Hh.
  - intros j y Hj Hy. apply Hnames; auto.
    destruct (Nat.eq_dec j a) as [->|Hne].
    + destruct (assign_length _ _ _ _ Hassign) as [_ Hlt].
      destruct (assign_spec cols a "" Hlt) as (c' & Ec' & _ & Hn & _).
      rewrite Hassign in Ec'. inversion Ec'; subst c'. congruence.
    + destruct (assign_length _ _ _ _ Hassign) as [_ Hlt].
      destruct (assign_spec cols a "" Hlt) as (c' & Ec' & _ & _ & Ho).
      rewrite Hassign in Ec'. inversion Ec'; subst c'.
      rewrite <- (Ho j Hne). exact Hj.
  - rewrite rows_drop.
    apply (consistentRows_assign _ cols cols' class k a x Hassign).
    + intros r Hr. apply (rows_select_field v a x r Hwf Haw Hr).
    + apply (consistentRows_incl (rows v)); auto.
      intros r Hr. apply (rows_select_field v a x r Hwf Haw Hr).
  - intros r Hr. rewrite rows_drop in Hr. apply Hlab.
    apply (rows_select_field v a x r Hwf Haw Hr).
Qed.

Lemma Learned_fits (class : string) (v : View) (d : Decision) :
  Learned class v d ->
  forall header cols k,
    class <> "" -> NoDup header ->
    trainable class header v cols k ->
    cols = header \/ firstEligible cols class <> None ->
    forall at_ r,
      1 <= at_ -> nth_error (baseData v) at_ = Some r -> shows v r = true ->
      decideOn d (baseData v) at_ = Ret (field k r).
Proof.
  intros HL.
  apply (Learned_minimal class
    (fun v d =>
       forall header cols k,
         class <> "" -> NoDup header ->
         trainable class header v cols k ->
         cols = header \/ firstEligible cols class <> None ->
         forall at_ r,
           1 <= at_ -> nth_error (baseData v) at_ = Some r -> shows v r = true ->
           decideOn d (baseData v) at_ = Ret (field k r))
    (fun v a k l cs =>
       forall header cols c,
         class <> "" -> NoDup header ->
         trainable class header v cols k ->
         find cols c = Ret a ->
         eligible class c = true \/ firstEligible cols class = None ->
         forall column at_ r,
           1 <= at_ -> nth_error (baseData v) at_ = Some r -> shows v r = true ->
           In (field a r) (map Value l) ->
           caseScan (fun d' => decideOn d' (baseData v) at_) column (field a r) cs
           = Ret (field k r))); auto; clear v d HL.
  - (* a decision *)
    intros v cols0 k0 a l cs Hcols0 Hk0 Ha Hp _ _ IH header cols k Hc0 Hnd Ht
      Htop at_ r Hat Hn Hs.
    pose proof Ht as (Hwf & Hcols & Hk & Hh & Hnames & Hcons & Hlab).
    rewrite Hcols in Hcols0. inversion Hcols0; subst cols0.
    rewrite Hk in Hk0. inversion Hk0; subst k0.
    pose proof (find_spec _ _ _ Ha) as (_ & Hnth & _).
    pose proof (find_width v cols Hwf Hcols _ a Ha) as Haw.
    assert (Hel : eligible class (chosen v cols class) = true
                  \/ firstEligible cols class = None).
    { destruct (firstEligible cols class) as [c0|] eqn:Hf; [left|right; reflexivity].
      destruct (chosen_firstMaximum v cols class k Hwf Hcols Hk c0 Hf)
        as (pre & post & _ & He & _). exact He. }
    assert (Hfind : find header (chosen v cols class) = Ret a).
    { destruct Htop as [->|Hsome]; [exact Ha|].
      destruct Hel as [Hel|Hnone]; [|contradiction].
      apply find_NoDup; auto. apply Hnames; auto.
      intros E. unfold eligible in Hel. rewrite E in Hel.
      rewrite orb_true_r in Hel. discriminate. }
    pose proof (In_rows v at_ r Hat Hn Hs) as Hr.
    assert (Hlen : List.length r = width v) by (apply (rowsFrom_width v 1); auto).
    assert (Hval : nth_error r a = Some (field a r)).
    { unfold field. destruct (nth_error r a) as [x|] eqn:E.
      - rewrite (nth_error_nth _ _ _ E). reflexivity.
      - apply nth_error_None in E. lia. }
    assert (Hlook : lookup (mkDecision (chosen v cols class) cs) (baseData v) at_
                    = Some (field a r)).
    { unfold lookup. cbn [Column]. revert Hn Hh.
      destruct (baseData v) as [|h body]; [destruct at_; discriminate|].
      intros Hn Hh. simpl in Hh. subst h. rewrite Hfind, Hn. exact Hval. }
    rewrite (decideOn_unfold _ _ _ _ Hlook). cbn [Column Cases].
    apply (IH header cols (chosen v cols class)); auto.
    apply (Permutation_in _ (Permutation_sym (Permutation_map Value Hp))).
    rewrite map_map. apply (tally_keys (map (field a) (rows v)) (field a r)).
    apply in_map. exact Hr.
  - (* no case *)
    intros v a k header cols c _ _ _ _ _ column at_ r _ _ _ [].
  - (* a leaf *)
    intros v a k d l cs H0 _ IH header cols c Hc0 Hnd Ht Ha Hel column at_ r
      Hat Hn Hs Hin.
    pose proof Ht as (Hwf & Hcols & Hk & Hh & Hnames & Hcons & Hlab).
    pose proof (find_width v cols Hwf Hcols _ a Ha) as Haw.
    pose proof (In_rows v at_ r Hat Hn Hs) as Hr.
    assert (Hlen : List.length r = width v) by (apply (rowsFrom_width v 1); auto).
    cbn [caseScan]. destruct (String.eqb_spec (field a r) (Value d)) as [E|E].
    + assert (Hsub : In r (rows (selectView v a (Value d)))).
      { rewrite rows_select. apply filter_In. split; auto.
        rewrite hasValue_field by lia. rewrite E. apply String.eqb_refl. }
      apply entropyOf_zero_iff_pure in H0.
      destruct (rows (selectView v a (Value d))) as [|r0 rs] eqn:Er; [contradiction|].
      cbn [hd].
      assert (E0 : field k r0 = field k r).
      { apply H0; apply in_map; [left; reflexivity|exact Hsub]. }
      rewrite E0.
      destruct (String.eqb_spec (field k r) "") as [Eempty|_]; [|reflexivity].
      exfalso. apply (Hlab r Hr Eempty).
    + apply (IH header cols c); auto. destruct Hin as [Hin|Hin]; [congruence|exact Hin].
  - (* a nested decision *)
    intros v a k d d' l cs H0 _ IHd _ IH header cols c Hc0 Hnd Ht Ha Hel column
      at_ r Hat Hn Hs Hin.
    pose proof Ht as (Hwf & Hcols & Hk & Hh & Hnames & Hcons & Hlab).
    pose proof (find_width v cols Hwf Hcols _ a Ha) as Haw.
    pose proof (In_rows v at_ r Hat Hn Hs) as Hr.
    assert (Hlen : List.length r = width v) by (apply (rowsFrom_width v 1); auto).
    cbn [caseScan]. destruct (String.eqb_spec (field a r) (Value d)) as [E|E].
    2:{ apply (IH header cols c); auto.
        destruct Hin as [Hin|Hin]; [congruence|exact Hin]. }
    cbn [negb String.eqb].
    assert (Hsubcons : consistentRows (rows (selectView v a (Value d))) cols class k).
    { apply (consistentRows_incl (rows v)); auto.
      intros r1 Hr1. apply (rows_select_field v a (Value d) r1 Hwf Haw Hr1). }
    destruct Hel as [Hel|Hnone].
    2:{ exfalso. apply H0. apply entropyOf_zero_iff_pure.
        apply (no_eligible_pure _ cols class k Hnone Hsubcons). }
    destruct (assign_spec cols a "") as (cols' & Hassign & _).
    { apply find_spec in Ha. tauto. }
    pose proof (trainable_sub class header v cols cols' k c a (Value d)
                  Hc0 Ht Ha Hel Hassign) as Ht'.
    apply (IHd header cols' k Hc0 Hnd Ht'); auto.
    + right. intros Hnone. apply H0. apply entropyOf_zero_iff_pure.
      destruct Ht' as (_ & _ & _ & _ & _ & Hcons' & _).
      rewrite rows_drop in Hcons'.
      apply (no_eligible_pure _ cols' class k Hnone Hcons').
    + cbn [shows]. rewrite Hs. rewrite hasValue_field by lia.
      rewrite E. rewrite String.eqb_refl. reflexivity.
Qed.

Lemma rows_base (header : row) (body : list row) :
  rows (baseView (header :: body)) = body.
Proof.
  unfold rows, rowsFrom. simpl. induction body as [|r body IH]; simpl; congruence.
Qed.

(** X9: a tree that [Learn] returns from a table with distinct column
    names, a class column with a name, consistent rows and no empty class
    label classifies every training record as the record's own class:
    [decide] returns the class field of the record and [Decide] on the
    training table returns the class column. *)
Theorem X9_learned_tree_reproduces_the_training_classes
    (header : row) (body : list row) (class : string) (k fuel : nat)
    (w w' : World) (d : Decision) :
  rectangular (header :: body) = true ->
  NoDup header ->
  find header class = Ret k -> class <> "" ->
  consistent (baseView (header :: body)) header class = true ->
  forallb (fun r => negb (String.eqb (field k r) "")) body = true ->
  Learn fuel (baseView (header :: body)) class w = Ret (d, w') ->
  (forall at_ r,
     1 <= at_ -> nth_error (header :: body) at_ = Some r ->
     decide (Some d) (header :: body) at_ = Ret (field k r))
  /\ Decide (Some d) (header :: body) = Ret (map (field k) body).
Proof.
  intros Hrect Hnd Hk Hc0 Hcons Hlab HL.
  set (v := baseView (header :: body)).
  assert (Hwf : wellFormed v = true) by exact Hrect.
  assert (Hcols : Columns v = Ret header) by reflexivity.
  assert (Hclass : In class header).
  { apply find_spec in Hk as (_ & Hn & _). eapply nth_error_In; eauto. }
  pose proof (Learn_Learned fuel v header class w d w' Hwf Hcols Hclass HL) as HLd.
  assert (Ht : trainable class header v header k).
  { repeat split; auto.
    - apply (consistent_spec v header class k Hcons Hk).
    - intros r Hr. unfold v in Hr. rewrite rows_base in Hr.
      rewrite forallb_forall in Hlab. specialize (Hlab r Hr).
      intros E. rewrite E in Hlab. discriminate. }
  assert (Hfit : forall at_ r,
            1 <= at_ -> nth_error (header :: body) at_ = Some r ->
            decide (Some d) (header :: body) at_ = Ret (field k r)).
  { intros at_ r Hat Hn.
    apply (Learned_fits class v d HLd header header k Hc0 Hnd Ht
             (or_introl eq_refl) at_ r Hat Hn eq_refl). }
  split; [exact Hfit|].
  unfold Decide. apply decideRows_spec. rewrite length_seq, length_map.
  split; [simpl; lia|].
  replace (List.length (header :: body) - 1) with (List.length body)
    by (simpl; lia).
  intros j Hj. rewrite seq_nth by lia.
  destruct (nth_error body j) as [r|] eqn:Er.
  2:{ apply nth_error_None in Er. lia. }
  rewrite (Hfit (1 + j) r); [|lia|exact Er].
  f_equal. symmetry. apply nth_error_nth. apply map_nth_error. exact Er.
Qed.

Lemma X9_training_classes_witness :
  exists d w',
    Learn 5 (baseView weather) "play" (mkWorld 1 []) = Ret (d, w')
    /\ Decide (Some d) weather
       = Ret ["no"; "no"; "yes"; "yes"; "yes"; "no"; "yes";
              "no"; "yes"; "yes"; "yes"; "yes"; "yes"; "no"].
Proof.
  set (cols := ["outlook"; "temperature"; "humidity"; "wind"; "play"]).
  assert (Hwf : wellFormed (baseView weather) = true) by reflexivity.
  assert (Hcols : Columns (baseView weather) = Ret cols) by reflexivity.
  assert (Hk : find cols "play" = Ret 4) by reflexivity.
  destruct (Learn_returns 4 (baseView weather) cols "play" 4 Hwf Hcols Hk)
    with (fuel := 5) (w := mkWorld 1 []) as [(d & w' & E)|[Hnone _]].
  - discriminate.
  - vm_compute. discriminate.
  - apply (consistent_spec (baseView weather) cols "play" 4); vm_compute; reflexivity.
  - vm_compute. lia.
  - lia.
  - exists d, w'. split; [exact E|].
    refine (proj2 (X9_learned_tree_reproduces_the_training_classes
                     cols (tl weather) "play" 4 5 (mkWorld 1 []) w' d
                     eq_refl _ eq_refl _ _ eq_refl E)).
    + repeat constructor; simpl; intuition discriminate.
    + discriminate.
    + vm_compute. reflexivity.
  - vm_compute in Hnone. discriminate Hnone.
Defined.

(** ** The shape of a learned tree *)

Lemma NoDup_distinct (l : list string) : NoDup l -> distinct l = true.
Proof.
  induction 1 as [|x l Hx _ IH]; simpl; [reflexivity|]. rewrite IH, andb_true_r.
  destruct (existsb (String.eqb x) l) eqn:E; [|reflexivity].
  apply existsb_exists in E as (y & Hy & Exy). apply String.eqb_eq in Exy.
  subst y. contradiction.
Qed.

Lemma assign_same (cols : list string) (a : nat) (x : string) :
  nth_error cols a = Some x -> assign cols a x = Ret cols.
Proof.
  revert a. induction cols as [|s cols IH]; intros [|a]; simpl; try discriminate.
  - intros H; inversion H; reflexivity.
  - intros H. rewrite (IH a H). reflexivity.
Qed.

Lemma Learned_safe (class : string) (v : View) (d : Decision) :
  Learned class v d ->
  forall cols k,
    class <> "" -> wellFormed v = true ->
    Columns v = Ret cols -> find cols class = Ret k ->
    rows v <> [] ->
    (forall r, In r (rows v) -> field k r <> "") ->
    safeTree d = true.
Proof.
  intros HL.
  apply (Learned_minimal class
    (fun v d =>
       forall cols k,
         class <> "" -> wellFormed v = true ->
         Columns v = Ret cols -> find cols class = Ret k ->
         rows v <> [] ->
         (forall r, In r (rows v) -> field k r <> "") ->
         safeTree d = true)
    (fun v a k l cs =>
       forall cols c,
         class <> "" -> wellFormed v = true ->
         Columns v = Ret cols -> find cols class = Ret k ->
         find cols c = Ret a -> c <> class \/ c = "" ->
         (forall r, In r (rows v) -> field k r <> "") ->
         (forall d, In d l -> rows (selectView v a (Value d)) <> []) ->
         forallb (fun c => match c with
                           | None => false
                           | Some c' => safeCase c'
                           end) cs = true
         /\ map valueOf cs = map Value l)); auto; clear v d HL.
  - (* a decision *)
    intros v cols0 k0 a l cs Hcols0 Hk0 Ha Hp _ _ IH cols k Hc0 Hwf Hcols Hk
      Hrows Hlab.
    rewrite Hcols in Hcols0. inversion Hcols0; subst cols0.
    rewrite Hk in Hk0. inversion Hk0; subst k0.
    pose proof (find_width v cols Hwf Hcols _ a Ha) as Haw.
    destruct (IH cols (chosen v cols class) Hc0 Hwf Hcols Hk Ha
                (chosen_not_class_or_empty v cols class a Ha) Hlab
                (tally_value_has_rows v a l Hwf Haw Hp)) as [Hsafe Hvals].
    cbn [safeTree]. rewrite Hsafe, Hvals, andb_true_r.
    apply andb_true_intro. split.
    + destruct cs as [|c0 cs']; [|reflexivity]. exfalso.
      destruct l as [|d0 l']; [|discriminate].
      apply Permutation_nil in Hp.
      destruct (rows v) as [|r rs] eqn:Er; [congruence|].
      assert (Hin : In (field a r) (map fst (tally (map (field a) (r :: rs)))))
        by (apply tally_keys; left; reflexivity).
      destruct (tally (map (field a) (r :: rs))); [contradiction|discriminate].
    + apply NoDup_distinct.
      apply (Permutation_NoDup
               (Permutation_sym (Permutation_map Value Hp))).
      rewrite map_map. apply (tally_NoDup (map (field a) (rows v))).
  - (* a leaf *)
    intros v a k d l cs _ _ IH cols c Hc0 Hwf Hcols Hk Ha Hc Hlab Hl.
    destruct (IH cols c Hc0 Hwf Hcols Hk Ha Hc Hlab) as [Hsafe Hvals].
    { intros d0 Hd0. apply Hl. right. exact Hd0. }
    cbn [forallb safeCase map valueOf caseValue]. rewrite Hsafe, Hvals.
    split; [|reflexivity]. rewrite andb_true_r.
    pose proof (Hl d (or_introl eq_refl)) as Hne.
    destruct (rows (selectView v a (Value d))) as [|r0 rs] eqn:Er; [congruence|].
    cbn [hd]. destruct (String.eqb_spec (field k r0) "") as [E|_]; [|reflexivity].
    exfalso. apply (Hlab r0); [|exact E].
    assert (Hin : In r0 (rows (selectView v a (Value d)))) by (rewrite Er; left; auto).
    rewrite rows_select in Hin. apply filter_In in Hin. tauto.
  - (* a nested decision *)
    intros v a k d d' l cs _ _ IHd _ IH cols c Hc0 Hwf Hcols Hk Ha Hc Hlab Hl.
    destruct (IH cols c Hc0 Hwf Hcols Hk Ha Hc Hlab) as [Hsafe Hvals].
    { intros d0 Hd0. apply Hl. right. exact Hd0. }
    cbn [forallb safeCase map valueOf caseValue]. rewrite Hsafe, Hvals.
    split; [|reflexivity]. rewrite andb_true_r. cbn [String.eqb andb].
    pose proof (find_spec _ _ _ Ha) as (Hlt & Hnth & _).
    destruct (assign_spec cols a "" Hlt) as (cols' & Hassign & _).
    apply (IHd cols' k); auto.
    + apply (wellFormed_drop_select v cols c a Hwf Hcols Ha).
    + cbn [Columns]. rewrite Hcols. exact Hassign.
    + destruct (string_dec c "") as [E|E].
      * subst c. rewrite (assign_same _ _ _ Hnth) in Hassign.
        inversion Hassign; subst. exact Hk.
      * destruct Hc as [Hc|Hc]; [|contradiction].
        rewrite (find_assign _ _ _ _ _ Ha Hassign); auto.
    + rewrite rows_drop. apply Hl. left. reflexivity.
    + intros r Hr. rewrite rows_drop, rows_select in Hr.
      apply filter_In in Hr. apply Hlab. tauto.
Qed.

(** X10: a tree that [Learn] returns on a well-formed view with at least
    one row, a class column with a name and no empty class label has the shape
    classification relies on: every decision has at least one case, no case is
    nil, the cases of a decision have distinct values, and every case holds
    either a non-empty class and no decision or the empty class and a
    decision. *)
Theorem X10_learned_trees_are_safe
    (v : View) (cols : list string) (class : string) (k fuel : nat)
    (w w' : World) (d : Decision) :
  wellFormed v = true ->
  Columns v = Ret cols ->
  find cols class = Ret k -> class <> "" ->
  rows v <> [] ->
  forallb (fun r => negb (String.eqb (field k r) "")) (rows v) = true ->
  Learn fuel v class w = Ret (d, w') ->
  safeTree d = true.
Proof.
  intros Hwf Hcols Hk Hc0 Hrows Hlab HL.
  assert (Hclass : In class cols).
  { apply find_spec in Hk as (_ & Hn & _). eapply nth_error_In; eauto. }
  apply (Learned_safe class v d
           (Learn_Learned fuel v cols class w d w' Hwf Hcols Hclass HL)
           cols k); auto.
  intros r Hr E. rewrite forallb_forall in Hlab. specialize (Hlab r Hr).
  rewrite E in Hlab. discriminate.
Qed.

Lemma X10_safe_witness :
  exists d w',
    Learn 5 (baseView weather) "play" (mkWorld 1 []) = Ret (d, w')
    /\ safeTree d = true.
Proof.
  set (cols := ["outlook"; "temperature"; "humidity"; "wind"; "play"]).
  assert (Hwf : wellFormed (baseView weather) = true) by reflexivity.
  assert (Hcols : Columns (baseView weather) = Ret cols) by reflexivity.
  assert (Hk : find cols "play" = Ret 4) by reflexivity.
  destruct (Learn_returns 4 (baseView weather) cols "play" 4 Hwf Hcols Hk)
    with (fuel := 5) (w := mkWorld 1 []) as [(d & w' & E)|[Hnone _]].
  - discriminate.
  - vm_compute. discriminate.
  - apply (consistent_spec (baseView weather) cols "play" 4); vm_compute; reflexivity.
  - vm_compute. lia.
  - lia.
  - exists d, w'. split; [exact E|].
    apply (X10_learned_trees_are_safe (baseView weather) cols "play" 4 5
             (mkWorld 1 []) w' d Hwf Hcols Hk); auto.
    + discriminate.
    + vm_compute. discriminate.
  - vm_compute in Hnone. discriminate Hnone.
Defined.

Lemma Decision_induction (P : Decision -> Prop) :
  (forall column cases,
     (forall v cl d', In (Some (mkCase v cl (Some d'))) cases -> P d') ->
     P (mkDecision column cases)) ->
  forall d, P d.
Proof.
  intros H. fix HD 1. intros [column cases]. apply H.
  induction cases as [|c cases IH]; intros v cl d' Hin; [destruct Hin|].
  destruct Hin as [E|Hin]; [|exact (IH v cl d' Hin)].
  destruct c as [[v0 cl0 [d0|]]|]; try discriminate.
  assert (Hd0 : P d0) by apply HD.
  injection E as _ _ <-. exact Hd0.
Qed.

(** X11: on a tree of that shape [decide] never dereferences nil: for every
    table and record it returns a class that is not empty, or panics with one
    of "not in slice", index out of range and "no rule for column". *)
Theorem X11_decide_on_a_safe_tree_never_dereferences_nil (d : Decision) :
  safeTree d = true ->
  forall data at_,
    (exists cl, decide (Some d) data at_ = Ret cl /\ cl <> "")
    \/ (exists p, decide (Some d) data at_ = Panic p /\ p <> NilDereference).
Proof.
  intros Hsafe data at_. cbn [decide]. revert Hsafe.
  induction d as [column cases IHd] using Decision_induction.
  intros Hsafe. cbn [safeTree] in Hsafe.
  apply andb_prop in Hsafe as [_ Hcases].
  cbn [decideOn].
  destruct data as [|header body];
    [right; eexists; split; [reflexivity|discriminate]|].
  destruct (find header column) as [i| |] eqn:Ef.
  2:{ right. exists p. split; [reflexivity|].
      apply (proj2 (proj2 (X1_find_first_index_or_panic header column))) in Ef.
      subst p. discriminate. }
  2:{ exfalso. apply (find_total _ _ Ef). }
  destruct (nth_error (header :: body) at_) as [rw|];
    [|right; eexists; split; [reflexivity|discriminate]].
  destruct (nth_error rw i) as [value|];
    [|right; eexists; split; [reflexivity|discriminate]].
  induction cases as [|c cases IH]; cbn [caseScan].
  - right. eexists. split; [reflexivity|discriminate].
  - cbn [forallb] in Hcases. apply andb_prop in Hcases as [Hc Hrest].
    destruct c as [[v cl dec]|]; [|discriminate].
    destruct (String.eqb value v).
    2:{ apply IH; auto. intros v0 cl0 d' Hin. apply (IHd v0 cl0 d'). right. exact Hin. }
    cbn [safeCase] in Hc. destruct dec as [d'|].
    + apply andb_prop in Hc as [Hcl Hd']. rewrite Hcl. cbn [negb].
      apply (IHd v cl d'); [left; reflexivity|exact Hd'].
    + rewrite Hc. left. exists cl. split; [reflexivity|].
      intros E. rewrite E in Hc. discriminate.
Qed.

Lemma X11_safe_decide_witness :
  (exists cl, decide (Some testRule) twoRows 1 = Ret cl /\ cl <> "")
  \/ (exists p, decide (Some testRule) twoRows 1 = Panic p /\ p <> NilDereference).
Proof.
  apply (X11_decide_on_a_safe_tree_never_dereferences_nil testRule).
  reflexivity.
Defined.

(** ** Rows that contradict each other *)

Lemma caseLoop_stuck (learn : View -> string -> M World Decision)
    (v : View) (class column : string) (d0 : Distinct) (l : list Distinct) :
  In d0 l ->
  (forall w c w', learnCase learn v class column d0 w <> Ret (c, w')) ->
  forall w cs w', caseLoop learn v class column l w <> Ret (cs, w').
Proof.
  intros Hin Hstuck. induction l as [|d l IH]; [destruct Hin|].
  intros w cs w'. cbn [caseLoop]. unfold bind at 1.
  destruct (learnCase learn v class column d w) as [[c w1]| |] eqn:E;
    try discriminate.
  destruct Hin as [->|Hin]; [exfalso; eapply Hstuck; eauto|].
  unfold bind at 1.
  destruct (caseLoop learn v class column l w1) as [[cs' w2]| |] eqn:El;
    try discriminate.
  exfalso. eapply IH; eauto.
Qed.

(** X12: when two rows of a well-formed view have the same value in every
    column but the class and differ in the class, [Learn] never returns a
    tree, whatever the fuel: the sub-view that holds the two rows is never
    pure, so each call recurses on it again (or panics). *)
Theorem X12_learn_never_returns_on_contradicting_rows (fuel : nat) :
  forall (v : View) (cols : list string) (class : string) (k : nat)
         (r1 r2 : row) (w w' : World) (d : Decision),
    wellFormed v = true ->
    Columns v = Ret cols ->
    find cols class = Ret k -> class <> "" ->
    In r1 (rows v) -> In r2 (rows v) ->
    (forall j, j < List.length cols -> nth j cols "" <> class ->
               field j r1 = field j r2) ->
    field k r1 <> field k r2 ->
    Learn fuel v class w <> Ret (d, w').
Proof.
  induction fuel as [|fuel IH];
    intros v cols class k r1 r2 w w' d Hwf Hcols Hk Hc0 H1 H2 Hagree Hdiff;
    [discriminate|].
  destruct (Learn_head v cols class k Hwf Hcols Hk fuel w) as [w1 ->].
  unfold bind at 1.
  destruct (Likelihood v _ w1) as [[l w2]| |] eqn:El; try discriminate.
  destruct (Likelihood_found _ _ _ _ _ _ Hcols El) as [a Ha].
  destruct (Likelihood_perm _ _ _ _ _ _ _ Hwf Hcols Ha El) as [Hp _].
  pose proof (find_spec _ _ _ Ha) as (Hlt & Hnth & _).
  pose proof (find_width v cols Hwf Hcols _ a Ha) as Haw.
  set (c := chosen v cols class) in *.
  assert (Hcc : c <> class).
  { destruct (chosen_not_class_or_empty v cols class a Ha) as [H|H]; [exact H|].
    fold c in H. congruence. }
  assert (Ea : field a r1 = field a r2).
  { apply Hagree; auto. rewrite (nth_error_nth _ _ _ Hnth). exact Hcc. }
  set (x := field a r1) in *.
  assert (Hsub : forall r, In r (rows v) -> field a r = x ->
                           In r (rows (selectView v a x))).
  { intros r Hr E. rewrite rows_select. apply filter_In. split; auto.
    rewrite hasValue_field.
    - rewrite E. apply String.eqb_refl.
    - rewrite (rowsFrom_width v 1 r); auto. }
  assert (Hd0 : exists d0, In d0 l /\ Value d0 = x).
  { assert (Hin : In x (map fst (tally (map (field a) (rows v)))))
      by (apply tally_keys; apply in_map; exact H1).
    apply in_map_iff in Hin as ([x' n] & Ex & Hin). simpl in Ex. subst x'.
    exists (toDistinct (List.length (rows v)) (x, n)). split; [|reflexivity].
    apply (Permutation_in _ (Permutation_sym Hp)). apply in_map. exact Hin. }
  destruct Hd0 as (d0 & Hd0 & Ex).
  unfold bind at 1.
  destruct (caseLoop (Learn fuel) v class c l w2) as [[cs w3]| |] eqn:Ec;
    try discriminate.
  exfalso. apply (caseLoop_stuck (Learn fuel) v class c d0 l Hd0) in Ec; auto.
  intros w0 c0 w0'.
  assert (E0 : entropyOf (map (field k) (rows (selectView v a (Value d0)))) <> 0%R).
  { rewrite Ex. intros E0. apply entropyOf_zero_iff_pure in E0. apply Hdiff.
    apply E0; apply in_map; apply Hsub; auto. }
  destruct (learnCase_recurse v cols class c k a Hwf Hcols Hk Ha (Learn fuel) d0 w0
              E0) as [w4 ->].
  rewrite Ex. unfold bind.
  destruct (Learn fuel (dropView (selectView v a x) a) class w4)
    as [[d' w5]| |] eqn:Ed; try discriminate.
  exfalso.
  destruct (assign_spec cols a "" Hlt) as (cols' & Hassign & Hl' & _).
  apply (IH (dropView (selectView v a x) a) cols' class k r1 r2 w4 w5 d'); auto.
  - apply (wellFormed_drop_select v cols c a Hwf Hcols Ha).
  - cbn [Columns]. rewrite Hcols. exact Hassign.
  - destruct (string_dec c "") as [E|E].
    + rewrite E in Hnth. rewrite (assign_same _ _ _ Hnth) in Hassign.
      inversion Hassign; subst. exact Hk.
    + rewrite (find_assign _ _ _ _ _ Ha Hassign); auto.
  - intros j Hj Hne. destruct (Nat.eq_dec j a) as [->|Hja]; [exact Ea|].
    apply Hagree; [lia|]. rewrite <- (assign_nth _ _ _ _ Hassign Hja). exact Hne.
Qed.

Lemma X12_contradicting_rows_witness :
  match Learn 7 (baseView contradictory) "play" (mkWorld 1 []) with
  | Ret _ => False
  | _ => True
  end.
Proof.
  destruct (Learn 7 (baseView contradictory) "play" (mkWorld 1 []))
    as [[d w']| |] eqn:E; [|exact I|exact I].
  apply (X12_learn_never_returns_on_contradicting_rows 7
           (baseView contradictory) ["outlook"; "play"] "play" 1
           ["sunny"; "yes"] ["sunny"; "no"] (mkWorld 1 []) w' d);
    try reflexivity; try discriminate; try exact E.
  - simpl. auto.
  - simpl. auto.
  - intros [|[|j]] Hj Hne; simpl in *; try reflexivity; try lia. congruence.
Defined.

(** ** The depth of a learned tree *)

Lemma eligibleCount_zero cols class :
  eligibleCount cols class = 0 -> firstEligible cols class = None.
Proof.
  intros H. destruct (firstEligible cols class) as [c|] eqn:E; [|reflexivity].
  apply eligibleCount_first in E. lia.
Qed.

Lemma Learned_depth (class : string) (v : View) (d : Decision) :
  Learned class v d ->
  forall cols k,
    class <> "" -> wellFormed v = true ->
    Columns v = Ret cols -> find cols class = Ret k ->
    consistentRows (rows v) cols class k ->
    depth d <= Nat.max 1 (eligibleCount cols class).
Proof.
  intros HL.
  apply (Learned_minimal class
    (fun v d =>
       forall cols k,
         class <> "" -> wellFormed v = true ->
         Columns v = Ret cols -> find cols class = Ret k ->
         consistentRows (rows v) cols class k ->
         depth d <= Nat.max 1 (eligibleCount cols class))
    (fun v a k l cs =>
       forall cols,
         class <> "" -> wellFormed v = true ->
         Columns v = Ret cols -> find cols class = Ret k ->
         find cols (chosen v cols class) = Ret a ->
         consistentRows (rows v) cols class k ->
         S (fold_right Nat.max 0
              (map (fun c => match c with
                             | None => 0
                             | Some c' => depthCase c'
                             end) cs))
         <= Nat.max 1 (eligibleCount cols class))); auto; clear v d HL.
  - (* a decision *)
    intros v cols0 k0 a l cs Hcols0 Hk0 Ha _ _ _ IH cols k Hc0 Hwf Hcols Hk Hcons.
    rewrite Hcols in Hcols0. inversion Hcols0; subst cols0.
    rewrite Hk in Hk0. inversion Hk0; subst k0.
    cbn [depth]. apply IH; auto.
  - (* no case *)
    intros v a k cols _ _ _ _ _ _. cbn [map fold_right]. lia.
  - (* a nested decision; a leaf adds nothing to the depth *)
    intros v a k d d' l cs E0 _ IHd _ IH cols Hc0 Hwf Hcols Hk Ha Hcons.
    specialize (IH cols Hc0 Hwf Hcols Hk Ha Hcons).
    cbn [map fold_right depthCase].
    assert (Hsubrows : incl (rows (selectView v a (Value d))) (rows v)).
    { intros r Hr. rewrite rows_select in Hr. apply filter_In in Hr. tauto. }
    pose proof (find_width v cols Hwf Hcols _ a Ha) as Haw.
    destruct (firstEligible cols class) as [c0|] eqn:Hfirst.
    2:{ exfalso. apply E0. apply entropyOf_zero_iff_pure.
        apply (no_eligible_pure _ cols class k Hfirst).
        apply (consistentRows_incl (rows v)); auto. }
    pose proof (chosen_firstMaximum v cols class k Hwf Hcols Hk c0 Hfirst)
      as (pre & post & Epre & Hel & _).
    pose proof (find_spec _ _ _ Ha) as (Hlt & Hnth & _).
    destruct (assign_spec cols a "" Hlt) as (cols' & Hassign & _).
    pose proof (eligibleCount_assign cols cols' class a _ Hnth Hel Hassign) as Hn.
    assert (Hcc : class <> chosen v cols class).
    { intros E. unfold eligible in Hel. rewrite <- E, String.eqb_refl in Hel.
      discriminate. }
    assert (Hcons' : consistentRows (rows (dropView (selectView v a (Value d)) a))
                       cols' class k).
    { rewrite rows_drop.
      apply (consistentRows_assign _ cols cols' class k a (Value d) Hassign).
      - intros r Hr. apply (rows_select_field v a (Value d) r Hwf Haw Hr).
      - apply (consistentRows_incl (rows v)); auto. }
    assert (Hd' : depth d' <= Nat.max 1 (eligibleCount cols' class)).
    { apply (IHd cols' k); auto.
      - apply (wellFormed_drop_select v cols _ a Hwf Hcols Ha).
      - cbn [Columns]. rewrite Hcols. exact Hassign.
      - rewrite (find_assign _ _ _ _ _ Ha Hassign); auto. }
    assert (Hpos : eligibleCount cols' class <> 0).
    { intros Hz. apply E0. apply entropyOf_zero_iff_pure.
      apply (no_eligible_pure _ cols' class k (eligibleCount_zero _ _ Hz)).
      rewrite rows_drop in Hcons'. exact Hcons'. }
    lia.
Qed.

(** X13: a tree that [Learn] returns from consistent rows is no deeper than
    the number of columns that are neither the class nor hidden (and 1 where
    there is none): every nested call runs on a view with the chosen column
    dropped, so no path decides on a column twice. *)
Theorem X13_learned_tree_is_no_deeper_than_the_attributes
    (v : View) (cols : list string) (class : string) (k fuel : nat)
    (w w' : World) (d : Decision) :
  wellFormed v = true ->
  Columns v = Ret cols ->
  find cols class = Ret k -> class <> "" ->
  consistent v cols class = true ->
  Learn fuel v class w = Ret (d, w') ->
  1 <= depth d /\ depth d <= Nat.max 1 (eligibleCount cols class).
Proof.
  intros Hwf Hcols Hk Hc0 Hcons HL. split.
  - destruct d. simpl. lia.
  - assert (Hclass : In class cols).
    { apply find_spec in Hk as (_ & Hn & _). eapply nth_error_In; eauto. }
    apply (Learned_depth class v d
             (Learn_Learned fuel v cols class w d w' Hwf Hcols Hclass HL)
             cols k); auto.
    apply consistent_spec; auto.
Qed.

Lemma X13_depth_witness :
  exists d w',
    Learn 5 (baseView weather) "play" (mkWorld 1 []) = Ret (d, w')
    /\ 1 <= depth d /\ depth d <= 4.
Proof.
  set (cols := ["outlook"; "temperature"; "humidity"; "wind"; "play"]).
  assert (Hwf : wellFormed (baseView weather) = true) by reflexivity.
  assert (Hcols : Columns (baseView weather) = Ret cols) by reflexivity.
  assert (Hk : find cols "play" = Ret 4) by reflexivity.
  assert (Hcons : consistent (baseView weather) cols "play" = true)
    by (vm_compute; reflexivity).
  destruct (Learn_returns 4 (baseView weather) cols "play" 4 Hwf Hcols Hk)
    with (fuel := 5) (w := mkWorld 1 []) as [(d & w' & E)|[Hnone _]].
  - discriminate.
  - vm_compute. discriminate.
  - apply (consistent_spec (baseView weather) cols "play" 4); auto.
  - vm_compute. lia.
  - lia.
  - exists d, w'. split; [exact E|].
    apply (X13_learned_tree_is_no_deeper_than_the_attributes
             (baseView weather) cols "play" 4 5 (mkWorld 1 []) w' d
             Hwf Hcols Hk); auto.
    discriminate.
  - vm_compute in Hnone. discriminate.
Defined.

(** ** Serializing any tree *)

Lemma toValidUTF8_replacement (s : string) :
  toValidUTF8 (replacementChar ++ s)%string
  = (replacementChar ++ toValidUTF8 s)%string.
Proof. reflexivity. Qed.

(** Coercing to valid UTF-8 a second time changes nothing. *)
Lemma toValidUTF8_idempotent (s : string) :
  toValidUTF8 (toValidUTF8 s) = toValidUTF8 s.
Proof.
  remember (String.length s) as n eqn:Hn.
  assert (Hle : String.length s <= n) by lia. clear Hn. revert s Hle.
  induction n as [|n IH]; intros s Hle.
  - destruct s; [reflexivity|simpl in Hle; lia].
  - destruct s as [|c0 rest]; [reflexivity|].
    cbn [String.length] in Hle.
    assert (Hrest : toValidUTF8 (toValidUTF8 rest) = toValidUTF8 rest)
      by (apply IH; lia).
    cbn [toValidUTF8].
    destruct (between 0 127 c0) eqn:E0.
    { cbn [toValidUTF8]. rewrite E0, Hrest. reflexivity. }
    destruct rest as [|c1 rest1];
      [rewrite toValidUTF8_replacement; reflexivity|].
    cbn [String.length] in Hle.
    destruct (between 194 223 c0 && continuation c1) eqn:E1.
    { cbn [toValidUTF8]. rewrite E0, E1, (IH rest1) by lia. reflexivity. }
    destruct rest1 as [|c2 rest2];
      [rewrite toValidUTF8_replacement, Hrest; reflexivity|].
    cbn [String.length] in Hle.
    match goal with |- context [if ?b then _ else _] => destruct b eqn:E2 end.
    { cbn [toValidUTF8]. rewrite E0, E1, E2, (IH rest2) by lia. reflexivity. }
    destruct rest2 as [|c3 rest3];
      [rewrite toValidUTF8_replacement, Hrest; reflexivity|].
    cbn [String.length] in Hle.
    match goal with |- context [if ?b then _ else _] => destruct b eqn:E3 end.
    { cbn [toValidUTF8]. rewrite E0, E1, E2, E3, (IH rest3) by lia. reflexivity. }
    rewrite toValidUTF8_replacement, Hrest. reflexivity.
Qed.

Lemma validUTF8_toValidUTF8 (s : string) : validUTF8 (toValidUTF8 s) = true.
Proof. unfold validUTF8. rewrite toValidUTF8_idempotent. apply String.eqb_refl. Qed.

Lemma marshal_valid (d : Decision) :
  validTree (unmarshalDecision (marshalDecision d)) = true.
Proof.
  induction d as [column cases IHd] using Decision_induction.
  cbn [marshalDecision unmarshalDecision orEmpty validTree].
  rewrite validUTF8_toValidUTF8. cbn [andb].
  destruct cases as [|c0 cases0]; [reflexivity|].
  set (cases := c0 :: cases0) in *. clearbody cases. clear c0 cases0.
  rewrite map_map.
  induction cases as [|c cases IH]; [reflexivity|].
  cbn [map forallb]. rewrite IH.
  2:{ intros v cl d' Hin. apply (IHd v cl d'). right. exact Hin. }
  rewrite andb_true_r.
  destruct c as [[value class dec]|]; [|reflexivity].
  cbn [marshalCase unmarshalCase orEmpty validCase].
  rewrite !validUTF8_toValidUTF8. cbn [andb].
  destruct dec as [d'|]; [|reflexivity].
  apply (IHd value class d'). left. reflexivity.
Qed.

(** X14: [ToJSON] of any tree gives no error and a document that [FromJSON]
    reads without error as a tree all of whose strings are valid UTF-8;
    that tree serializes and deserializes to itself, so a
    second round trip changes nothing. *)
Theorem X14_a_serialized_tree_reads_back_as_a_tree_that_round_trips
    (d : Decision) (indent : bool) :
  snd (ToJSON (Some d) indent) = None
  /\ exists d',
       FromJSON (fst (ToJSON (Some d) indent)) = (Some d', None)
       /\ validTree d' = true
       /\ roundTrips d'.
Proof.
  split; [destruct indent; reflexivity|].
  exists (unmarshalDecision (marshalDecision d)).
  split; [destruct indent; reflexivity|].
  split; [apply marshal_valid|].
  intros indent'.
  assert (E : FromJSON (fst (ToJSON (Some (unmarshalDecision (marshalDecision d)))
                               indent'))
              = (Some (unmarshalDecision
                         (marshalDecision (unmarshalDecision (marshalDecision d)))),
                 None)) by (destruct indent'; reflexivity).
  rewrite E. rewrite (proj1 unmarshal_marshal _ (marshal_valid d)). reflexivity.
Qed.
